(** * The Plan aggregate of the planning-agent system (src/models.py)

    A shallow embedding of [Step] and [Plan] with their mutation methods,
    the status derivation, the next-step selection and the progress
    statistics, followed by the properties stated about them.

    Conventions of the embedding:
    - Python [int] is [Z]; [str] is [string]; [Optional[T]] is [option T];
      a [datetime] is an opaque reading of the clock, a [Z].  The
      datetimes that the program makes are naive ([utcnow]); one parsed
      from a stored document can be timezone-aware, which matters when
      [get_plans] sorts, and is recorded beside the parsed plan.
    - [datetime.utcnow()] and [str(uuid4())] are the only effects of the
      aggregate besides mutation of [self].  They are reads of two oracles
      kept in a [World]; methods thread the world through a state monad.
    - A method that mutates [self] takes the plan and returns the new plan
      next to its Python return value.
    - [get_step] hands out a reference to an element of [self.steps]; the
      reference is modelled by the index of that element, and a mutation
      through the reference by an update of the list at that index.
    - Python [float] is IEEE 754 binary64, in the specification of the
      Standard Library ([spec_float] with precision 53 and maximal
      exponent 1024), which computes. *)

From Stdlib Require Import SpecFloat.
From stdpp Require Import base tactics option list numbers strings pretty sorting.

Open Scope Z_scope.

(** ** Environment: the clock and the id generator *)

Definition Time := Z.

Record World := mkWorld {
  utc_clock : nat → Time;    (* the n-th reading of datetime.utcnow() *)
  utc_reads : nat;           (* readings consumed so far *)
  uuid_gen : nat → string;   (* the n-th result of str(uuid4()) *)
  uuid_draws : nat           (* ids drawn so far *)
}.

Definition M (A : Type) : Type := World → A * World.

#[global] Instance M_ret : MRet M := λ A (a : A) (w : World), (a, w).
#[global] Instance M_bind : MBind M := λ A B (f : A → M B) (m : M A) (w : World),
  let '(a, w') := m w in f a w'.

Definition utcnow : M Time := λ w,
  (utc_clock w (utc_reads w),
   mkWorld (utc_clock w) (S (utc_reads w)) (uuid_gen w) (uuid_draws w)).

Definition uuid4 : M string := λ w,
  (uuid_gen w (uuid_draws w),
   mkWorld (utc_clock w) (utc_reads w) (uuid_gen w) (S (uuid_draws w))).

(** [for x in xs: body(x)] where the body has effects and rewrites [x]. *)
Fixpoint for_each {A B : Type} (body : A → M B) (xs : list A) : M (list B) :=
  match xs with
  | [] => mret []
  | x :: xs' => y ← body x; ys ← for_each body xs'; mret (y :: ys)
  end.

(** ** Status enumerations *)

Module StepStatus.
Inductive t := PENDING | IN_PROGRESS | COMPLETED | FAILED | SKIPPED.
#[global] Instance eq_dec : EqDecision t.
Proof. solve_decision. Defined.
End StepStatus.

Module PlanStatus.
Inductive t := NOT_STARTED | IN_PROGRESS | COMPLETED | PAUSED | FAILED.
#[global] Instance eq_dec : EqDecision t.
Proof. solve_decision. Defined.
End PlanStatus.

(** ** Step *)

Module Step.
Record t := mk {
  step_id : string;
  order : Z;
  description : string;
  status : StepStatus.t;
  depends_on : list string;
  notes : option string;
  created_at : Time;
  updated_at : Time;
  completed_at : option Time
}.

#[global] Instance eq_dec : EqDecision t.
Proof. solve_decision. Defined.

Definition set_order (o : Z) (s : t) : t :=
  mk (step_id s) o (description s) (status s) (depends_on s) (notes s)
     (created_at s) (updated_at s) (completed_at s).
Definition set_status (st : StepStatus.t) (s : t) : t :=
  mk (step_id s) (order s) (description s) st (depends_on s) (notes s)
     (created_at s) (updated_at s) (completed_at s).
Definition set_notes (n : option string) (s : t) : t :=
  mk (step_id s) (order s) (description s) (status s) (depends_on s) n
     (created_at s) (updated_at s) (completed_at s).
Definition set_updated_at (u : Time) (s : t) : t :=
  mk (step_id s) (order s) (description s) (status s) (depends_on s) (notes s)
     (created_at s) u (completed_at s).
Definition set_completed_at (c : option Time) (s : t) : t :=
  mk (step_id s) (order s) (description s) (status s) (depends_on s) (notes s)
     (created_at s) (updated_at s) c.

(** [Step(description=..., order=..., depends_on=..., notes=...)]: the
    default factories run in field order (step_id, created_at,
    updated_at); status defaults to pending, completed_at to None. *)
Definition new (description : string) (order : Z) (depends_on : list string)
    (notes : option string) : M t :=
  sid ← uuid4;
  created ← utcnow;
  updated ← utcnow;
  mret (mk sid order description StepStatus.PENDING depends_on notes
           created updated None).

Definition mark_completed (self : t) : M t :=
  let self := set_status StepStatus.COMPLETED self in
  now ← utcnow;
  let self := set_completed_at (Some now) self in
  now ← utcnow;
  mret (set_updated_at now self).

Definition update_status (self : t) (status : StepStatus.t)
    (notes : option string) : M t :=
  let self := set_status status self in
  now ← utcnow;
  let self := set_updated_at now self in
  self ← (if bool_decide (status = StepStatus.COMPLETED)
          then now ← utcnow; mret (set_completed_at (Some now) self)
          else mret self);
  mret (match notes with
        | Some n => set_notes (Some n) self
        | None => self
        end).
End Step.

(** ** Python floats

    The three float operations of [get_progress]: true division of two
    ints, multiplication of a float by an int, and [round(x, 2)]. *)

Definition prec : Z := 53.
Definition emax : Z := 1024.

(** An int as an operand of a correctly rounded operation: the integer
    itself as mantissa, with exponent 0 (exact whatever its size). *)
Definition int_operand (z : Z) : spec_float :=
  match z with
  | Z0 => S754_zero false
  | Zpos p => S754_finite false p 0
  | Zneg p => S754_finite true p 0
  end.

(** [a / b] on ints: the double nearest to the quotient (ties to even).
    Python raises ZeroDivisionError for [b = 0], and OverflowError when
    the quotient exceeds the doubles; [get_progress] divides a count by
    the non-zero total, where neither happens. *)
Definition int_true_divide (a b : Z) : spec_float :=
  SFdiv prec emax (int_operand a) (int_operand b).

(** [float(z)], the conversion applied to the int operand of [x * z]. *)
Definition float_of_int (z : Z) : spec_float :=
  binary_normalize prec emax z 0 false.

Definition float_mul (x y : spec_float) : spec_float := SFmul prec emax x y.

(** The integer nearest to [num / den], ties to even ([den > 0]). *)
Definition round_half_even_div (num den : Z) : Z :=
  let q := num / den in
  let r := num mod den in
  match 2 * r ?= den with
  | Lt => q
  | Gt => q + 1
  | Eq => if Z.even q then q else q + 1
  end.

(** [round(x, ndigits)] for a float [x] and [0 <= ndigits]: CPython
    rounds the exact value of [x] to [ndigits] decimals, ties to even,
    and returns the double nearest to that decimal; zeros, infinities
    and NaN are returned as they are. *)
Definition float_round (x : spec_float) (ndigits : Z) : spec_float :=
  match x with
  | S754_finite s m e =>
      let p := 10 ^ ndigits in
      let k := if bool_decide (0 ≤ e) then Zpos m * 2 ^ e * p
               else round_half_even_div (Zpos m * p) (2 ^ (- e)) in
      if bool_decide (k = 0) then S754_zero s
      else SFdiv prec emax (S754_finite s (Z.to_pos k) 0)
             (S754_finite false (Z.to_pos p) 0)
  | _ => x
  end.

(** ** Python's stable sort with [key=lambda x: x.order]

    [sorted] and [list.sort] are stable; the stable sorted arrangement of a
    list is unique, and insertion from the right computes it. *)

Fixpoint insert_by_order (s : Step.t) (l : list Step.t) : list Step.t :=
  match l with
  | [] => [s]
  | x :: l' =>
      if bool_decide (Step.order s ≤ Step.order x) then s :: x :: l'
      else x :: insert_by_order s l'
  end.

Definition sorted_by_order (l : list Step.t) : list Step.t :=
  foldr insert_by_order [] l.

(** ** Plan *)

Module Plan.
Record t := mk {
  plan_id : string;
  name : string;
  description : string;
  status : PlanStatus.t;
  user_id : string;
  created_at : Time;
  updated_at : Time;
  steps : list Step.t
}.

#[global] Instance eq_dec : EqDecision t.
Proof. solve_decision. Defined.

Definition set_name (n : string) (p : t) : t :=
  mk (plan_id p) n (description p) (status p) (user_id p) (created_at p)
     (updated_at p) (steps p).
Definition set_description (d : string) (p : t) : t :=
  mk (plan_id p) (name p) d (status p) (user_id p) (created_at p)
     (updated_at p) (steps p).
Definition set_status (st : PlanStatus.t) (p : t) : t :=
  mk (plan_id p) (name p) (description p) st (user_id p) (created_at p)
     (updated_at p) (steps p).
Definition set_updated_at (u : Time) (p : t) : t :=
  mk (plan_id p) (name p) (description p) (status p) (user_id p)
     (created_at p) u (steps p).
Definition set_steps (l : list Step.t) (p : t) : t :=
  mk (plan_id p) (name p) (description p) (status p) (user_id p)
     (created_at p) (updated_at p) l.

(** [Plan(name=..., description=..., user_id=...)]: the default factories
    run in field order (plan_id, created_at, updated_at); the status
    defaults to not_started and the steps to the empty list. *)
Definition new (name description user_id : string) : M t :=
  pid ← uuid4;
  created ← utcnow;
  updated ← utcnow;
  mret (mk pid name description PlanStatus.NOT_STARTED user_id created
          updated []).

(** [_update_plan_status] *)
Definition _update_plan_status (self : t) : t :=
  match steps self with
  | [] => set_status PlanStatus.NOT_STARTED self
  | _ =>
      let step_statuses := Step.status <$> steps self in
      if forallb (λ status, bool_decide (status = StepStatus.COMPLETED))
           step_statuses
      then set_status PlanStatus.COMPLETED self
      else if existsb (λ status, bool_decide (status = StepStatus.FAILED))
                step_statuses
      then set_status PlanStatus.FAILED self
      else if existsb (λ status,
                  bool_decide (status ∈ [StepStatus.IN_PROGRESS;
                                         StepStatus.COMPLETED]))
                step_statuses
      then set_status PlanStatus.IN_PROGRESS self
      else set_status PlanStatus.NOT_STARTED self
  end.

(** The first loop of [add_step]: insert before the first existing step
    whose order is greater than the requested one, else append. *)
Fixpoint insert_step (order : Z) (step : Step.t) (steps : list Step.t)
    : list Step.t :=
  match steps with
  | [] => [step]
  | existing_step :: rest =>
      if bool_decide (Step.order existing_step > order)
      then step :: existing_step :: rest
      else existing_step :: insert_step order step rest
  end.

(** The second loop of [add_step]. *)
Definition reorder_subsequent (order : Z) (step : Step.t)
    (steps : list Step.t) : list Step.t :=
  (λ step_item,
     if bool_decide (Step.step_id step_item ≠ Step.step_id step)
        && bool_decide (Step.order step_item >= order)
     then Step.set_order (Step.order step_item + 1) step_item
     else step_item) <$> steps.

Definition add_step (self : t) (description : string) (order : option Z)
    (depends_on : option (list string)) (notes : option string)
    : M (string * t) :=
  let order := match order with
               | None => Z.of_nat (length (steps self)) + 1
               | Some o => o
               end in
  step ← Step.new description order (default [] depends_on) notes;
  let self := set_steps (insert_step order step (steps self)) self in
  let self := set_steps (reorder_subsequent order step (steps self)) self in
  now ← utcnow;
  let self := set_updated_at now self in
  let self := _update_plan_status self in
  mret (Step.step_id step, self).

(** [get_step] returns a reference to the first step with the given id:
    its index in [self.steps] together with its current value. *)
Definition get_step_ref (self : t) (step_id : string)
    : option (nat * Step.t) :=
  list_find (λ step, Step.step_id step = step_id) (steps self).

Definition get_step (self : t) (step_id : string) : option Step.t :=
  snd <$> get_step_ref self step_id.

Definition update_step (self : t) (step_id : string)
    (status : option StepStatus.t) (notes : option string) : M (bool * t) :=
  match get_step_ref self step_id with
  | None => mret (false, self)
  | Some (i, step) =>
      step ← match status with
             | Some st => Step.update_status step st notes
             | None =>
                 match notes with
                 | Some n =>
                     let step := Step.set_notes (Some n) step in
                     now ← utcnow;
                     mret (Step.set_updated_at now step)
                 | None => mret step
                 end
             end;
      let self := set_steps (<[i := step]> (steps self)) self in
      now ← utcnow;
      let self := set_updated_at now self in
      let self := _update_plan_status self in
      mret (true, self)
  end.

Definition delete_step (self : t) (step_id : string) : M (bool * t) :=
  match get_step self step_id with
  | None => mret (false, self)
  | Some _ =>
      let self :=
        set_steps (filter (λ s, Step.step_id s ≠ step_id) (steps self)) self in
      let self := set_steps (sorted_by_order (steps self)) self in
      let self :=
        set_steps (imap (λ i step_item,
                           Step.set_order (Z.of_nat i + 1) step_item)
                        (steps self)) self in
      now ← utcnow;
      let self := set_updated_at now self in
      let self := _update_plan_status self in
      mret (true, self)
  end.

Definition reset_steps (self : t) : M t :=
  steps' ← for_each (λ step,
              let step := Step.set_status StepStatus.PENDING step in
              let step := Step.set_completed_at None step in
              now ← utcnow;
              mret (Step.set_updated_at now step)) (steps self);
  let self := set_steps steps' self in
  let self := set_status PlanStatus.NOT_STARTED self in
  now ← utcnow;
  mret (set_updated_at now self).

Definition _dependencies_met (self : t) (step : Step.t) : bool :=
  match Step.depends_on step with
  | [] => true
  | deps =>
      forallb (λ dep_id,
                 match get_step self dep_id with
                 | None => false
                 | Some dep_step =>
                     bool_decide (Step.status dep_step = StepStatus.COMPLETED)
                 end) deps
  end.

Definition get_next_step (self : t) : option Step.t :=
  let sorted_steps := sorted_by_order (steps self) in
  find (λ step,
          bool_decide (Step.status step = StepStatus.PENDING)
          && _dependencies_met self step) sorted_steps.

(** The dict that [get_progress] returns. *)
Record Progress := mkProgress {
  total_steps : Z;
  completed_steps : Z;
  in_progress_steps : Z;
  pending_steps : Z;
  failed_steps : Z;
  skipped_steps : Z;
  completion_percentage : spec_float
}.

(** [sum(1 for step in self.steps if step.status == status)] *)
Definition count_status (self : t) (status : StepStatus.t) : Z :=
  foldr (λ step acc, if bool_decide (Step.status step = status)
                     then 1 + acc else acc) 0 (steps self).

(** [get_progress].  The [else 0] of the conditional expression cannot
    be reached, since [total] is a length and not 0 there; the int 0 it
    would produce is written +0.0. *)
Definition get_progress (self : t) : Progress :=
  let total := Z.of_nat (length (steps self)) in
  if bool_decide (total = 0)
  then mkProgress 0 0 0 0 0 0 (S754_zero false)
  else
    let completed := count_status self StepStatus.COMPLETED in
    let in_progress := count_status self StepStatus.IN_PROGRESS in
    let pending := count_status self StepStatus.PENDING in
    let failed := count_status self StepStatus.FAILED in
    let skipped := count_status self StepStatus.SKIPPED in
    let completion_percentage :=
      if bool_decide (total > 0)
      then float_mul (int_true_divide completed total) (float_of_int 100)
      else S754_zero false in
    mkProgress total completed in_progress pending failed skipped
      (float_round completion_percentage 2).
End Plan.

(** ** Services (src/services.py)

    A service loads the plan from the persistence gateway, changes it in
    memory and saves it.  The gateway (src/database.py, a CouchDB client)
    is outside the aggregate; what is embedded here is what the service
    does to the plan it has loaded, between the load and the save. *)

Module ManagementService.
(** [update_plan_metadata], for a plan that the gateway has found. *)
Definition update_plan_metadata (plan : Plan.t) (name : option string)
    (description : option string) (status : option PlanStatus.t)
    : M Plan.t :=
  let plan := match name with
              | Some n => Plan.set_name n plan
              | None => plan
              end in
  let plan := match description with
              | Some d => Plan.set_description d plan
              | None => plan
              end in
  let plan := match status with
              | Some st => Plan.set_status st plan
              | None => plan
              end in
  now ← utcnow;
  mret (Plan.set_updated_at now plan).
End ManagementService.

(** ** Request models (src/models.py) *)

Module CreateStepRequest.
Record t := mk {
  description : string;
  order : option Z;
  depends_on : option (list string);
  notes : option string
}.
End CreateStepRequest.

(** ** The persistence gateway and the services that use it

    The services reach the database only through the five methods of
    [db_connection].  The gateway is an interface here: a type of database
    states and, for each method, a function from the state to the new
    state and either the value returned or the exception raised.  What
    is proved about the services holds for every gateway. *)

Inductive outcome (E A : Type) : Type :=
  | Return (a : A)
  | Raised (e : E).
Arguments Return {E A} a.
Arguments Raised {E A} e.

Class Gateway := {
  DB : Type;
  Exn : Type;
  db_create_plan : Plan.t → DB → outcome Exn string * DB;
  db_get_plan : string → DB → outcome Exn (option Plan.t) * DB;
  db_update_plan : Plan.t → DB → outcome Exn bool * DB;
  db_delete_plan : string → DB → outcome Exn bool * DB;
  db_get_plans : option string → option PlanStatus.t → option string →
                 DB → outcome Exn (list Plan.t) * DB
}.

(** A service call runs in a database state and a world and ends, in a
    new state and world, with a value or with an exception.  The
    [try ... except Exception: log; raise] around each service body lets
    every exception through and is not written out; logging is not
    modelled. *)
Definition Svc `{Gateway} (A : Type) : Type :=
  DB → World → outcome Exn A * DB * World.

#[global] Instance Svc_ret `{Gateway} : MRet Svc :=
  λ A (a : A) db w, (Return a, db, w).
#[global] Instance Svc_bind `{Gateway} : MBind Svc :=
  λ A B (f : A → Svc B) (m : Svc A) db w,
    match m db w with
    | (Return a, db', w') => f a db' w'
    | (Raised e, db', w') => (Raised e, db', w')
    end.

(** A call of a gateway method. *)
Definition gateway `{Gateway} {A : Type} (op : DB → outcome Exn A * DB)
    : Svc A :=
  λ db w, ((op db).1, (op db).2, w).

(** A call of a method of the aggregate, which cannot raise. *)
Definition aggregate `{Gateway} {A : Type} (m : M A) : Svc A :=
  λ db w, (Return (m w).1, db, (m w).2).

(** [for i, step_request in enumerate(steps): ... plan.add_step(...)] of
    [create_plan_with_steps] and [regenerate_plan], from index [i] on. *)
Fixpoint add_request_steps (i : nat) (steps : list CreateStepRequest.t)
    (plan : Plan.t) : M Plan.t :=
  match steps with
  | [] => mret plan
  | step_request :: rest =>
      let order := match CreateStepRequest.order step_request with
                   | Some o => o
                   | None => Z.of_nat i + 1
                   end in
      r ← Plan.add_step plan (CreateStepRequest.description step_request)
             (Some order) (CreateStepRequest.depends_on step_request)
             (CreateStepRequest.notes step_request);
      add_request_steps (S i) rest r.2
  end.

Module PlanningService.
Definition create_plan_with_steps `{Gateway} (name description user_id : string)
    (steps : list CreateStepRequest.t) : Svc Plan.t :=
  plan ← aggregate (Plan.new name description user_id);
  plan ← aggregate (add_request_steps 0 steps plan);
  _ ← gateway (db_create_plan plan);
  mret plan.

Definition regenerate_plan `{Gateway} (plan_id : string)
    (new_description : option string) (new_steps : list CreateStepRequest.t)
    : Svc (option Plan.t) :=
  found ← gateway (db_get_plan plan_id);
  match found with
  | None => mret None
  | Some plan =>
      let plan := match new_description with
                  | Some d => Plan.set_description d plan
                  | None => plan
                  end in
      now ← aggregate utcnow;
      let plan := Plan.set_updated_at now plan in
      let plan := Plan.set_steps [] plan in
      plan ← aggregate (add_request_steps 0 new_steps plan);
      let plan := Plan.set_status PlanStatus.NOT_STARTED plan in
      _ ← gateway (db_update_plan plan);
      mret (Some plan)
  end.
End PlanningService.

Module ExecutionService.
Definition get_plan `{Gateway} (plan_id : string) : Svc (option Plan.t) :=
  gateway (db_get_plan plan_id).

Definition get_plans `{Gateway} (user_id : option string)
    (status : option PlanStatus.t) (name_filter : option string)
    : Svc (list Plan.t) :=
  gateway (db_get_plans user_id status name_filter).

Definition update_step_status `{Gateway} (plan_id step_id : string)
    (status : option StepStatus.t) (notes : option string) : Svc bool :=
  found ← gateway (db_get_plan plan_id);
  match found with
  | None => mret false
  | Some plan =>
      r ← aggregate (Plan.update_step plan step_id status notes);
      let success : bool := r.1 in
      let plan : Plan.t := r.2 in
      if success
      then _ ← gateway (db_update_plan plan); mret success
      else mret success
  end.

Definition get_next_step `{Gateway} (plan_id : string)
    : Svc (option Step.t) :=
  found ← gateway (db_get_plan plan_id);
  match found with
  | None => mret None
  | Some plan => mret (Plan.get_next_step plan)
  end.

Definition skip_step `{Gateway} (plan_id step_id : string) : Svc bool :=
  update_step_status plan_id step_id (Some StepStatus.SKIPPED) None.
End ExecutionService.

(** The methods of [ManagementService], with the gateway calls. *)
Module ManagementServiceCalls.
Definition update_plan_metadata `{Gateway} (plan_id : string)
    (name description : option string) (status : option PlanStatus.t)
    : Svc bool :=
  found ← gateway (db_get_plan plan_id);
  match found with
  | None => mret false
  | Some plan =>
      plan ← aggregate
        (ManagementService.update_plan_metadata plan name description status);
      _ ← gateway (db_update_plan plan);
      mret true
  end.

Definition delete_plan `{Gateway} (plan_id : string) : Svc bool :=
  gateway (db_delete_plan plan_id).

Definition add_step_to_plan `{Gateway} (plan_id description : string)
    (order : option Z) (depends_on : option (list string))
    (notes : option string) : Svc (option string) :=
  found ← gateway (db_get_plan plan_id);
  match found with
  | None => mret None
  | Some plan =>
      r ← aggregate (Plan.add_step plan description order depends_on notes);
      let step_id : string := r.1 in
      let plan : Plan.t := r.2 in
      _ ← gateway (db_update_plan plan);
      mret (Some step_id)
  end.

Definition delete_step_from_plan `{Gateway} (plan_id step_id : string)
    : Svc bool :=
  found ← gateway (db_get_plan plan_id);
  match found with
  | None => mret false
  | Some plan =>
      r ← aggregate (Plan.delete_step plan step_id);
      let success : bool := r.1 in
      let plan : Plan.t := r.2 in
      if success
      then _ ← gateway (db_update_plan plan); mret success
      else mret success
  end.

Definition reset_plan_steps `{Gateway} (plan_id : string) : Svc bool :=
  found ← gateway (db_get_plan plan_id);
  match found with
  | None => mret false
  | Some plan =>
      plan ← aggregate (Plan.reset_steps plan);
      _ ← gateway (db_update_plan plan);
      mret true
  end.
End ManagementServiceCalls.

(** ** Listing plans (src/database.py) and summaries (src/main.py) *)

(** Python's [a in b] on strings: [a] occurs in [b] as a contiguous block. *)
Fixpoint contains (a b : string) : bool :=
  String.prefix a b
  || match b with
     | EmptyString => false
     | String _ b' => contains a b'
     end.

(** A plan as [_dict_to_plan] makes it of a document.  The timestamps
    are parsed with [datetime.fromisoformat], after a Z in the string
    has been replaced by +00:00: [created_at] is timezone-aware when the
    stored string carries an offset, and naive when it does not (as in
    the documents that [_plan_to_dict] writes, whose timestamps come from
    [datetime.utcnow()]).  The flag records which of the two it is. *)
Record ParsedPlan := mkParsedPlan {
  plan_of : Plan.t;
  created_at_aware : bool
}.

(** The exception of [<] between a naive and an aware datetime ("can't
    compare offset-naive and offset-aware datetimes"). *)
Inductive TypeError := NaiveAwareComparison.

(** [a.created_at < b.created_at] *)
Definition created_at_lt (a b : ParsedPlan) : outcome TypeError bool :=
  if bool_decide (created_at_aware a = created_at_aware b)
  then Return (bool_decide (Plan.created_at (plan_of a)
                            < Plan.created_at (plan_of b)))
  else Raised NaiveAwareComparison.

(** [plans.sort(key=lambda x: x.created_at, reverse=True)]: the stable
    sort by decreasing key, in which plans of equal key keep their
    relative position, written as insertion from the right.  The keys
    are compared with [<] only, and the first comparison that raises
    ends the sort with its exception.  [list.sort] chooses other pairs
    to compare than this insertion does; the outcome is the same,
    since a sort by comparisons cannot place a list that holds both
    kinds of key without comparing a naive key with an aware one. *)
Fixpoint insert_newest_first (p : ParsedPlan) (l : list ParsedPlan)
    : outcome TypeError (list ParsedPlan) :=
  match l with
  | [] => Return [p]
  | x :: l' =>
      match created_at_lt p x with
      | Raised e => Raised e
      | Return false => Return (p :: x :: l')
      | Return true =>
          match insert_newest_first p l' with
          | Raised e => Raised e
          | Return l'' => Return (x :: l'')
          end
      end
  end.

Fixpoint sorted_newest_first (l : list ParsedPlan)
    : outcome TypeError (list ParsedPlan) :=
  match l with
  | [] => Return []
  | p :: l' =>
      match sorted_newest_first l' with
      | Raised e => Raised e
      | Return sorted => insert_newest_first p sorted
      end
  end.

Module DatabaseConnection.
(** The loop of [get_plans] over the documents of the database, in the
    order in which the database lists their ids.  A document is given by
    its id and by what [_dict_to_plan] makes of it, or by None when
    reading or converting it raises (the loop logs and goes on).
    [lower] is [str.lower]. *)
Fixpoint select_plans (lower : string → string)
    (docs : list (string * option ParsedPlan)) (user_id : option string)
    (status : option PlanStatus.t) (name_filter : option string)
    : list ParsedPlan :=
  match docs with
  | [] => []
  | (doc_id, parsed) :: rest =>
      let continue := select_plans lower rest user_id status name_filter in
      match parsed with
      | None => continue
      | Some parsed_plan =>
          let plan := plan_of parsed_plan in
          if String.prefix "_design" doc_id then continue
          else if match user_id with
                  | Some u => negb (bool_decide (u = ""))
                              && negb (bool_decide (Plan.user_id plan = u))
                  | None => false
                  end
          then continue
          else if match status with
                  | Some st => negb (bool_decide (Plan.status plan = st))
                  | None => false
                  end
          then continue
          else if match name_filter with
                  | Some n => negb (bool_decide (n = ""))
                              && negb (contains (lower n)
                                         (lower (Plan.name plan)))
                  | None => false
                  end
          then continue
          else parsed_plan :: continue
      end
  end.

(** What ends [get_plans] with an exception: an error of the database
    when the loop asks it for the document ids, or the exception of the
    sort.  Both happen outside the [try] of the loop body; the outer
    [except] logs the exception and raises it again. *)
Inductive GetPlansError (E : Type) : Type :=
  | ListingError (e : E)
  | SortError (e : TypeError).
Arguments ListingError {E} e.
Arguments SortError {E} e.

(** [get_plans].  [listing] is what [for doc_id in self.db] meets: the
    documents of the database, or the exception of the database. *)
Definition get_plans {E : Type} (lower : string → string)
    (listing : outcome E (list (string * option ParsedPlan)))
    (user_id : option string) (status : option PlanStatus.t)
    (name_filter : option string)
    : outcome (GetPlansError E) (list ParsedPlan) :=
  match listing with
  | Raised e => Raised (ListingError e)
  | Return docs =>
      match sorted_newest_first
              (select_plans lower docs user_id status name_filter) with
      | Raised e => Raised (SortError e)
      | Return plans => Return plans
      end
  end.
End DatabaseConnection.

(** [plan_to_summary] of src/main.py: the three counts of the summary. *)
Record PlanSummaryCounts := mkSummaryCounts {
  summary_total_steps : Z;
  summary_completed_steps : Z;
  summary_pending_steps : Z
}.

Definition plan_to_summary_counts (plan : Plan.t) : PlanSummaryCounts :=
  let progress := Plan.get_progress plan in
  mkSummaryCounts (Plan.total_steps progress) (Plan.completed_steps progress)
    (Plan.pending_steps progress).

(** * Vocabulary of the specification *)

(** The step orders of the plan are, as a multiset, exactly 1..N with N the
    number of steps. *)
Definition orders_contiguous (p : Plan.t) : Prop :=
  Step.order <$> Plan.steps p ≡ₚ seqZ 1 (Z.of_nat (length (Plan.steps p))).

(** The id that the next [uuid4()] call returns is not the id of a step
    already in the plan. *)
Definition next_uuid_fresh (w : World) (p : Plan.t) : Prop :=
  ∀ s, s ∈ Plan.steps p → Step.step_id s ≠ uuid_gen w (uuid_draws w).

(** What the second loop of [add_step] does to the order of a step other
    than the new one. *)
Definition bump (k o : Z) : Z := if bool_decide (o >= k) then o + 1 else o.

(** The step of the plan that an id resolves to: the step with this id
    that comes first in the list of steps.  (Ids are meant to be unique;
    were two steps to share an id, the earlier one is the one found.) *)
Definition first_with_id (p : Plan.t) (id : string) (t : Step.t) : Prop :=
  ∃ i, Plan.steps p !! i = Some t
       ∧ Step.step_id t = id
       ∧ ∀ j u, (j < i)%nat → Plan.steps p !! j = Some u →
                Step.step_id u ≠ id.

(** The dependency id resolves, in the plan, to a step whose status is
    completed. *)
Definition resolves_to_completed (p : Plan.t) (dep_id : string) : Prop :=
  ∃ t, first_with_id p dep_id t ∧ Step.status t = StepStatus.COMPLETED.

(** The step ids of the plan are pairwise different. *)
Definition ids_unique (p : Plan.t) : Prop :=
  NoDup (Step.step_id <$> Plan.steps p).

(** No step of the plan has this id. *)
Definition dangling (p : Plan.t) (dep_id : string) : Prop :=
  ∀ t, t ∈ Plan.steps p → Step.step_id t ≠ dep_id.

(** A pending step all of whose dependencies resolve to completed steps. *)
Definition eligible (p : Plan.t) (s : Step.t) : Prop :=
  Step.status s = StepStatus.PENDING
  ∧ ∀ d, d ∈ Step.depends_on s → resolves_to_completed p d.

(** The status derivation in the words of the specification, on the
    statuses of the steps:
    1. no steps, not_started; 2. else all completed, completed;
    3. else any failed, failed; 4. else any in_progress or completed,
    in_progress; 5. else not_started. *)
Definition derived_status_spec (statuses : list StepStatus.t) : PlanStatus.t :=
  if decide (statuses = []) then PlanStatus.NOT_STARTED
  else if decide (Forall (λ st, st = StepStatus.COMPLETED) statuses)
  then PlanStatus.COMPLETED
  else if decide (StepStatus.FAILED ∈ statuses) then PlanStatus.FAILED
  else if decide (StepStatus.IN_PROGRESS ∈ statuses
                  ∨ StepStatus.COMPLETED ∈ statuses)
  then PlanStatus.IN_PROGRESS
  else PlanStatus.NOT_STARTED.

(** The plan with its last-updated timestamps (the plan's and each step's)
    blanked out; every other field is kept. *)
Definition forget_updated_at (p : Plan.t) : Plan.t :=
  Plan.set_updated_at 0
    (Plan.set_steps (Step.set_updated_at 0 <$> Plan.steps p) p).

(** What [reset_steps] leaves of a step, when the clock reads [now]. *)
Definition reset_step (now : Time) (s : Step.t) : Step.t :=
  Step.set_updated_at now
    (Step.set_completed_at None (Step.set_status StepStatus.PENDING s)).

(** A step's id together with its completed-at timestamp. *)
Definition id_and_completed_at (s : Step.t) : string * option Time :=
  (Step.step_id s, Step.completed_at s).

(** The order that [add_step] gives the new step: the requested one, or
    the number of steps plus one. *)
Definition effective_order (p : Plan.t) (order : option Z) : Z :=
  match order with
  | None => Z.of_nat (length (Plan.steps p)) + 1
  | Some o => o
  end.

(** The step that [add_step] creates in world [w]. *)
Definition added_step (w : World) (p : Plan.t) (description : string)
    (order : option Z) (depends_on : option (list string))
    (notes : option string) : Step.t :=
  Step.mk (uuid_gen w (uuid_draws w)) (effective_order p order) description
    StepStatus.PENDING (default [] depends_on) notes
    (utc_clock w (utc_reads w)) (utc_clock w (S (utc_reads w))) None.

(** The step that [update_step] leaves in place of step [s], in world [w]:
    with a status, the status is set, the last-updated timestamp is the
    first clock reading, the completed-at timestamp is the second reading
    if the status is completed, and the notes are replaced if given; with
    notes only, the notes are replaced and the timestamp refreshed; with
    neither, the step is as it was. *)
Definition updated_step (w : World) (s : Step.t) (status : option StepStatus.t)
    (notes : option string) : Step.t :=
  match status, notes with
  | Some st, _ =>
      Step.mk (Step.step_id s) (Step.order s) (Step.description s) st
        (Step.depends_on s)
        (match notes with Some n => Some n | None => Step.notes s end)
        (Step.created_at s) (utc_clock w (utc_reads w))
        (if bool_decide (st = StepStatus.COMPLETED)
         then Some (utc_clock w (S (utc_reads w)))
         else Step.completed_at s)
  | None, Some n =>
      Step.mk (Step.step_id s) (Step.order s) (Step.description s)
        (Step.status s) (Step.depends_on s) (Some n) (Step.created_at s)
        (utc_clock w (utc_reads w)) (Step.completed_at s)
  | None, None => s
  end.

(** What a step carries besides its id, order and timestamps. *)
Definition step_summary (s : Step.t)
    : string * list string * option string * StepStatus.t * option Time :=
  (Step.description s, Step.depends_on s, Step.notes s, Step.status s,
   Step.completed_at s).

(** The summary of the step that a creation request asks for. *)
Definition request_summary (r : CreateStepRequest.t)
    : string * list string * option string * StepStatus.t * option Time :=
  (CreateStepRequest.description r,
   default [] (CreateStepRequest.depends_on r),
   CreateStepRequest.notes r, StepStatus.PENDING, None).

(** A step as its id, its order and its summary. *)
Definition step_view (s : Step.t)
    : string * Z
      * (string * list string * option string * StepStatus.t * option Time) :=
  (Step.step_id s, Step.order s, step_summary s).

(** The requests ask for the orders 1, 2, ... in sequence, or for none. *)
Definition orders_in_sequence (steps : list CreateStepRequest.t) : Prop :=
  ∀ i r, steps !! i = Some r →
         CreateStepRequest.order r = None
         ∨ CreateStepRequest.order r = Some (Z.of_nat i + 1).

(** The outcome of a service that ends with a gateway call whose value it
    ignores: the given value, or the exception of the gateway. *)
Definition after_gateway_call {E A B : Type} (o : outcome E A) (b : B)
    : outcome E B :=
  match o with
  | Return _ => Return b
  | Raised e => Raised e
  end.

(** A plan passes the filters of [get_plans]: a filter that is absent or
    the empty string lets every plan through; the user and the status
    must be equal to the filter's, the lower-cased name must contain the
    lower-cased name filter. *)
Definition passes_filters (lower : string → string) (user_id : option string)
    (status : option PlanStatus.t) (name_filter : option string)
    (plan : Plan.t) : Prop :=
  match user_id with
  | Some u => u = "" ∨ Plan.user_id plan = u
  | None => True
  end
  ∧ match status with
    | Some st => Plan.status plan = st
    | None => True
    end
  ∧ match name_filter with
    | Some n => n = "" ∨ contains (lower n) (lower (Plan.name plan)) = true
    | None => True
    end.

#[global] Instance passes_filters_dec lower user_id status name_filter plan :
  Decision (passes_filters lower user_id status name_filter plan).
Proof.
  unfold passes_filters. destruct user_id, status, name_filter; apply _.
Defined.

(** The plans of the documents that are read and converted without error
    and are not design documents, in the order of the documents. *)
Definition readable_plans (docs : list (string * option ParsedPlan))
    : list ParsedPlan :=
  omap (λ d, if String.prefix "_design" d.1 then None else d.2) docs.

Definition newer_or_same (a b : ParsedPlan) : Prop :=
  Plan.created_at (plan_of b) ≤ Plan.created_at (plan_of a).

(** The plans that [get_plans] is to return: those of the readable
    documents whose plan passes the filters, in the order of the
    documents. *)
Definition selected_plans (lower : string → string)
    (docs : list (string * option ParsedPlan)) (user_id : option string)
    (status : option PlanStatus.t) (name_filter : option string)
    : list ParsedPlan :=
  filter (λ d, passes_filters lower user_id status name_filter (plan_of d))
    (readable_plans docs).

(** All creation times of the list are naive, or all are aware. *)
Definition same_awareness (l : list ParsedPlan) : Prop :=
  ∀ a b, a ∈ l → b ∈ l → created_at_aware a = created_at_aware b.

(** The percentage is a number between 0.0 and 100.0 (a NaN or an
    infinity fails the comparisons). *)
Definition percentage_in_range (f : spec_float) : bool :=
  SFleb (S754_zero false) f && SFleb f (float_of_int 100).

(** [k] is an integer nearest to [10000 * c / t]: the two differ by at
    most one half. *)
Definition nearest_hundredth (c t k : Z) : Prop :=
  2 * Z.abs (k * t - 10000 * c) ≤ t.

(** The percentage in the words of the specification: 100 times
    completed over total, as an exact quotient, rounded to two decimals
    (ties to even), as a float. *)
Definition completion_percentage_spec (completed total : Z) : spec_float :=
  int_true_divide (round_half_even_div (10000 * completed) total) 100.

(** ** Sample data for the examples *)

Definition w0 : World :=
  mkWorld (λ n, 1000 + Z.of_nat n) 0 (λ n, "uuid-" +:+ pretty n) 0.

Definition sample_step (sid : string) (order : Z) (st : StepStatus.t)
    (deps : list string) : Step.t :=
  Step.mk sid order ("do " +:+ sid) st deps None 10 10 None.

Definition sample_plan (st : PlanStatus.t) (l : list Step.t) : Plan.t :=
  Plan.mk "plan-1" "demo" "a demo plan" st "user-1" 5 10 l.

(** Steps a, b, c with orders 1, 2, 3, all pending (scenario A). *)
Definition plan_abc : Plan.t :=
  sample_plan PlanStatus.NOT_STARTED
    [sample_step "a" 1 StepStatus.PENDING [];
     sample_step "b" 2 StepStatus.PENDING [];
     sample_step "c" 3 StepStatus.PENDING []].

(** Step a completed, step b pending and depending on a (scenario B);
    step c pending and depending on an id that no step has. *)
Definition plan_deps : Plan.t :=
  sample_plan PlanStatus.IN_PROGRESS
    [sample_step "a" 1 StepStatus.COMPLETED [];
     sample_step "c" 3 StepStatus.PENDING ["ghost"];
     sample_step "b" 2 StepStatus.PENDING ["a"]].

(** A plan of 160 steps of which 23 are completed. *)
Definition plan_23_of_160 : Plan.t :=
  sample_plan PlanStatus.IN_PROGRESS
    (replicate 23 (sample_step "done" 1 StepStatus.COMPLETED [])
     ++ replicate 137 (sample_step "todo" 2 StepStatus.PENDING [])).

(** A gateway over a single stored plan, for the examples: reads find the
    plan under its id, updates replace it, nothing raises. *)
Definition store_of_one : Gateway := {|
  DB := option Plan.t;
  Exn := Empty_set;
  db_create_plan := λ plan db, (Return (Plan.plan_id plan), Some plan);
  db_get_plan := λ plan_id db,
    (Return (match db with
             | Some plan =>
                 if bool_decide (Plan.plan_id plan = plan_id)
                 then Some plan else None
             | None => None
             end), db);
  db_update_plan := λ plan db,
    match db with
    | Some old =>
        if bool_decide (Plan.plan_id old = Plan.plan_id plan)
        then (Return true, Some plan) else (Return false, db)
    | None => (Return false, db)
    end;
  db_delete_plan := λ plan_id db,
    match db with
    | Some old =>
        if bool_decide (Plan.plan_id old = plan_id)
        then (Return true, None) else (Return false, db)
    | None => (Return false, db)
    end;
  db_get_plans := λ _ _ _ db,
    (Return (match db with Some plan => [plan] | None => [] end), db)
|}.

Definition sample_requests : list CreateStepRequest.t :=
  [CreateStepRequest.mk "first" None None None;
   CreateStepRequest.mk "second" (Some 2) (Some ["x"]) (Some "note")].

(** * Properties *)

(** ** The stable sort *)

Definition order_le (a b : Step.t) : Prop := Step.order a ≤ Step.order b.

Lemma insert_by_order_perm s l : insert_by_order s l ≡ₚ s :: l.
Proof.
  induction l as [|x l IH]; simpl; [done|].
  case_bool_decide; [done|].
  rewrite IH. apply Permutation_swap.
Qed.

Lemma sorted_by_order_perm l : sorted_by_order l ≡ₚ l.
Proof.
  induction l as [|x l IH]; simpl; [done|].
  by rewrite insert_by_order_perm, IH.
Qed.

Lemma length_sorted_by_order l : length (sorted_by_order l) = length l.
Proof. apply Permutation_length, sorted_by_order_perm. Qed.

Lemma insert_by_order_sorted s l :
  StronglySorted order_le l → StronglySorted order_le (insert_by_order s l).
Proof.
  induction 1 as [|x l Hl IH Hx]; simpl.
  - repeat constructor.
  - case_bool_decide as Hsx.
    + constructor; [by constructor|].
      constructor; [done|].
      eapply Forall_impl; [exact Hx|]. unfold order_le. intros; lia.
    + constructor; [done|].
      rewrite insert_by_order_perm. constructor; [|done].
      unfold order_le. lia.
Qed.

Lemma sorted_by_order_sorted l : StronglySorted order_le (sorted_by_order l).
Proof.
  induction l as [|x l IH]; simpl; [constructor|].
  by apply insert_by_order_sorted.
Qed.

(** Stability: steps of equal order keep their relative position. *)
Lemma insert_by_order_stable k s l :
  StronglySorted order_le l →
  filter (λ x, Step.order x = k) (insert_by_order s l)
  = filter (λ x, Step.order x = k) (s :: l).
Proof.
  induction 1 as [|x l Hl IH Hx]; simpl; [done|].
  case_bool_decide as Hsx; [done|].
  rewrite !filter_cons in *.
  destruct (decide (Step.order x = k)) as [Hxk|Hxk].
  - destruct (decide (Step.order s = k)) as [Hsk|Hsk]; [lia|].
    by rewrite IH.
  - by rewrite IH.
Qed.

Lemma sorted_by_order_stable k l :
  filter (λ x, Step.order x = k) (sorted_by_order l)
  = filter (λ x, Step.order x = k) l.
Proof.
  induction l as [|x l IH]; simpl; [done|].
  rewrite insert_by_order_stable by apply sorted_by_order_sorted.
  by rewrite !filter_cons, IH.
Qed.

(** ** Running the methods *)

Lemma add_step_run self description order depends_on notes w :
  Plan.add_step self description order depends_on notes w =
  let k := match order with
           | None => Z.of_nat (length (Plan.steps self)) + 1
           | Some o => o
           end in
  let step := Step.mk (uuid_gen w (uuid_draws w)) k description
                StepStatus.PENDING (default [] depends_on) notes
                (utc_clock w (utc_reads w)) (utc_clock w (S (utc_reads w)))
                None in
  ((Step.step_id step,
    Plan._update_plan_status
      (Plan.set_updated_at (utc_clock w (S (S (utc_reads w))))
         (Plan.set_steps
            (Plan.reorder_subsequent k step
               (Plan.insert_step k step (Plan.steps self))) self))),
   mkWorld (utc_clock w) (S (S (S (utc_reads w)))) (uuid_gen w)
     (S (uuid_draws w))).
Proof. reflexivity. Qed.

Lemma steps_update_plan_status p :
  Plan.steps (Plan._update_plan_status p) = Plan.steps p.
Proof.
  unfold Plan._update_plan_status.
  destruct (Plan.steps p) eqn:E; [done|].
  repeat case_match; done.
Qed.

Lemma updated_at_update_plan_status p :
  Plan.updated_at (Plan._update_plan_status p) = Plan.updated_at p.
Proof.
  unfold Plan._update_plan_status.
  destruct (Plan.steps p) eqn:E; [done|].
  repeat case_match; done.
Qed.

Lemma delete_step_run_found self step_id w s :
  Plan.get_step self step_id = Some s →
  Plan.delete_step self step_id w =
  ((true,
    Plan._update_plan_status
      (Plan.set_updated_at (utc_clock w (utc_reads w))
         (Plan.set_steps
            (imap (λ i step_item, Step.set_order (Z.of_nat i + 1) step_item)
               (sorted_by_order
                  (filter (λ s, Step.step_id s ≠ step_id) (Plan.steps self))))
            self))),
   mkWorld (utc_clock w) (S (utc_reads w)) (uuid_gen w) (uuid_draws w)).
Proof. intros Hs. unfold Plan.delete_step. rewrite Hs. reflexivity. Qed.

Lemma delete_step_run_missing self step_id w :
  Plan.get_step self step_id = None →
  Plan.delete_step self step_id w = ((false, self), w).
Proof. intros Hs. unfold Plan.delete_step. rewrite Hs. reflexivity. Qed.

Lemma get_step_Some p step_id s :
  Plan.get_step p step_id = Some s →
  s ∈ Plan.steps p ∧ Step.step_id s = step_id.
Proof.
  unfold Plan.get_step, Plan.get_step_ref.
  intros ([i s']&Hf&->)%fmap_Some. simpl.
  apply list_find_Some in Hf as (Hl&Hid&_).
  split; [by eapply list_elem_of_lookup_2|done].
Qed.

Lemma get_step_None p step_id :
  Plan.get_step p step_id = None ↔
  ∀ s, s ∈ Plan.steps p → Step.step_id s ≠ step_id.
Proof.
  unfold Plan.get_step, Plan.get_step_ref.
  rewrite fmap_None, list_find_None, Forall_forall. done.
Qed.

Lemma get_step_first p step_id t :
  Plan.get_step p step_id = Some t ↔ first_with_id p step_id t.
Proof.
  unfold Plan.get_step, Plan.get_step_ref, first_with_id. split.
  - intros ([i s]&Hf&->)%fmap_Some. simpl.
    apply list_find_Some in Hf as (Hl&Hid&Hbefore).
    exists i. split_and!; [done..|].
    intros j u Hj Hu. by apply (Hbefore j).
  - intros (i & Hl & Hid & Hbefore).
    apply fmap_Some. exists (i, t). split; [|done].
    apply list_find_Some. split_and!; [done..|].
    intros j u Hu Hj. by apply (Hbefore j).
Qed.

Lemma first_with_id_unique p t :
  ids_unique p → t ∈ Plan.steps p → first_with_id p (Step.step_id t) t.
Proof.
  intros Hnodup (i & Hi)%list_elem_of_lookup.
  exists i. split_and!; [done..|].
  intros j u Hj Hu Hid.
  assert (j = i); [|lia].
  apply (NoDup_lookup _ j i (Step.step_id t) Hnodup).
  - by rewrite list_lookup_fmap, Hu; simpl; rewrite Hid.
  - by rewrite list_lookup_fmap, Hi.
Qed.

Lemma resolves_to_completed_get_step p d :
  resolves_to_completed p d ↔
  ∃ t, Plan.get_step p d = Some t
       ∧ t ∈ Plan.steps p
       ∧ Step.step_id t = d
       ∧ Step.status t = StepStatus.COMPLETED.
Proof.
  unfold resolves_to_completed. split.
  - intros (t & Hfirst & Hst). apply get_step_first in Hfirst.
    destruct (get_step_Some _ _ _ Hfirst) as [? ?]. by exists t.
  - intros (t & Hget & _ & _ & Hst). exists t.
    split; [by apply get_step_first|done].
Qed.

(** ** Contiguous orders (add_step, delete_step) *)

Lemma insert_step_perm k s l : Plan.insert_step k s l ≡ₚ s :: l.
Proof.
  induction l as [|x l IH]; simpl; [done|].
  case_bool_decide; [done|].
  rewrite IH. apply Permutation_swap.
Qed.

Lemma reorder_subsequent_orders k step l :
  (∀ s, s ∈ l → Step.step_id s ≠ Step.step_id step) →
  Step.order <$> Plan.reorder_subsequent k step l = bump k <$> (Step.order <$> l).
Proof.
  intros Hfresh. unfold Plan.reorder_subsequent.
  rewrite <-!list_fmap_compose. apply list_fmap_ext. intros i s Hs. simpl.
  rewrite (bool_decide_eq_true_2 (Step.step_id s ≠ Step.step_id step))
    by (apply Hfresh; by eapply list_elem_of_lookup_2).
  unfold bump. simpl. by case_bool_decide.
Qed.

Lemma reorder_subsequent_self k step :
  Plan.reorder_subsequent k step [step] = [step].
Proof.
  unfold Plan.reorder_subsequent. simpl.
  by rewrite (bool_decide_eq_false_2 (Step.step_id step ≠ Step.step_id step))
    by (intros H; by apply H).
Qed.

Lemma bump_seqZ k n :
  1 ≤ k ≤ n + 1 →
  k :: (bump k <$> seqZ 1 n) ≡ₚ seqZ 1 (n + 1).
Proof.
  intros Hk.
  replace n with ((k - 1) + (n - k + 1)) at 1 by lia.
  rewrite seqZ_app, fmap_app by lia.
  replace (n + 1) with ((k - 1) + (1 + (n - k + 1))) by lia.
  rewrite (seqZ_app 1 (k - 1)) by lia.
  rewrite (seqZ_app (1 + (k - 1)) 1) by lia.
  replace (1 + (k - 1)) with k by lia.
  rewrite (Permutation_middle _ _ k).
  apply reflexive_eq. f_equal; [|change (seqZ k 1) with [k]; simpl; f_equal].
  - etrans; [|apply list_fmap_id]. apply Forall_fmap_ext, Forall_seqZ.
    intros m Hm. unfold bump. rewrite bool_decide_eq_false_2; [done|lia].
  - replace (k + 1) with (1 + k) by lia. rewrite <-(fmap_add_seqZ 1 k).
    apply Forall_fmap_ext, Forall_seqZ.
    intros m Hm. unfold bump. rewrite bool_decide_eq_true_2; lia.
Qed.

Lemma length_insert_step k s l : length (Plan.insert_step k s l) = S (length l).
Proof. by rewrite insert_step_perm. Qed.

Lemma length_reorder_subsequent k s l :
  length (Plan.reorder_subsequent k s l) = length l.
Proof. apply length_fmap. Qed.

Lemma add_step_orders k step l :
  (∀ s, s ∈ l → Step.step_id s ≠ Step.step_id step) →
  Step.order step = k →
  Step.order <$> Plan.reorder_subsequent k step (Plan.insert_step k step l)
  ≡ₚ k :: (bump k <$> (Step.order <$> l)).
Proof.
  intros Hfresh Hk.
  assert (Plan.reorder_subsequent k step (Plan.insert_step k step l)
          ≡ₚ Plan.reorder_subsequent k step ([step] ++ l)) as ->.
  { unfold Plan.reorder_subsequent. by rewrite insert_step_perm. }
  unfold Plan.reorder_subsequent at 1. rewrite fmap_app.
  fold (Plan.reorder_subsequent k step [step]).
  fold (Plan.reorder_subsequent k step l).
  rewrite reorder_subsequent_self, fmap_app. simpl.
  by rewrite reorder_subsequent_orders, Hk.
Qed.

Lemma renumber_orders (l : list Step.t) :
  Step.order <$>
    imap (λ i step_item, Step.set_order (Z.of_nat i + 1) step_item) l
  = seqZ 1 (Z.of_nat (length l)).
Proof.
  rewrite fmap_imap.
  rewrite (imap_ext _ (λ i _, Z.of_nat i + 1)) by done.
  rewrite imap_seq_0. unfold seqZ. rewrite Nat2Z.id.
  apply list_fmap_ext. intros; lia.
Qed.

(** Scenario D: adding a step with order 2 to the plan with orders 1, 2, 3
    gives the new step order 2 and moves the former 2, 3 to 3, 4.  The new
    step is placed before the first step whose order exceeds 2, that is
    after step b in the list. *)
Example add_step_scenario_D :
  (λ s, (Step.step_id s, Step.order s)) <$>
    Plan.steps (Plan.add_step plan_abc "new" (Some 2) None None w0).1.2
  = [("a", 1); ("b", 3); ("uuid-0", 2); ("c", 4)].
Proof. vm_compute. reflexivity. Qed.

(** Scenario C: deleting the step of order 2 renumbers the rest 1, 2. *)
Example delete_step_scenario_C :
  (λ s, (Step.step_id s, Step.order s)) <$>
    Plan.steps (Plan.delete_step plan_abc "b" w0).1.2
  = [("a", 1); ("c", 2)].
Proof. vm_compute. reflexivity. Qed.

Lemma add_step_steps p description order depends_on notes w :
  Plan.steps (Plan.add_step p description order depends_on notes w).1.2
  = Plan.reorder_subsequent (effective_order p order)
      (added_step w p description order depends_on notes)
      (Plan.insert_step (effective_order p order)
         (added_step w p description order depends_on notes) (Plan.steps p)).
Proof.
  rewrite add_step_run. cbv zeta. simpl.
  by rewrite steps_update_plan_status.
Qed.

Lemma insert_step_append k step l :
  (∀ s, s ∈ l → Step.order s ≤ k) →
  Plan.insert_step k step l = l ++ [step].
Proof.
  induction l as [|x l IH]; intros Hle; simpl; [done|].
  rewrite bool_decide_eq_false_2.
  - f_equal. apply IH. intros s Hs. apply Hle. by right.
  - specialize (Hle x ltac:(by left)). lia.
Qed.

Lemma reorder_subsequent_below k step l :
  (∀ s, s ∈ l → Step.order s < k ∨ Step.step_id s = Step.step_id step) →
  Plan.reorder_subsequent k step l = l.
Proof.
  intros Hlt. unfold Plan.reorder_subsequent.
  etrans; [|apply list_fmap_id]. apply list_fmap_ext. intros i s Hs. simpl.
  destruct (Hlt s) as [Hs'|Hs']; [by eapply list_elem_of_lookup_2|..].
  - rewrite (bool_decide_eq_false_2 (Step.order s >= k)) by lia.
    by rewrite andb_false_r.
  - by rewrite (bool_decide_eq_false_2 (Step.step_id s ≠ Step.step_id step))
      by (intros H; by apply H).
Qed.

(** C1, as stated, fails: a requested order beyond N + 1 is kept as it is,
    and leaves a gap.  Adding a step with order 5 to the plan with orders
    1, 2, 3 yields the orders 1, 2, 3, 5. *)
Lemma add_step_beyond_end_leaves_gap :
  orders_contiguous plan_abc ∧ next_uuid_fresh w0 plan_abc ∧ 5 >= 1 ∧
  Step.order <$>
    Plan.steps (Plan.add_step plan_abc "late" (Some 5) None None w0).1.2
  = [1; 2; 3; 5] ∧
  ¬ orders_contiguous
      (Plan.add_step plan_abc "late" (Some 5) None None w0).1.2.
Proof.
  split_and!.
  - unfold orders_contiguous. vm_compute. reflexivity.
  - intros s Hs. vm_compute in Hs.
    repeat (apply elem_of_cons in Hs as [->|Hs]); [done..|].
    by apply elem_of_nil in Hs.
  - lia.
  - vm_compute. reflexivity.
  - unfold orders_contiguous. intros Hperm.
    assert (5 ∈ seqZ 1 4) as Hin.
    { change (seqZ 1 4) with
        (seqZ 1 (Z.of_nat (length (Plan.steps
           (Plan.add_step plan_abc "late" (Some 5) None None w0).1.2)))).
      rewrite <-Hperm. vm_compute. repeat constructor. }
    apply elem_of_seqZ in Hin. lia.
Qed.

(** C1 (amended): from contiguous orders 1..N, [add_step] with the order
    omitted or with a requested order between 1 and N + 1 (the generated
    id being new to the plan) yields N + 1 steps whose orders are, as a
    multiset, exactly 1..N+1; every successful [delete_step] leaves
    M steps whose orders are exactly 1..M; and [add_step] with a
    requested order greater than N + 1 stores that order as given, after
    the unchanged orders of the other steps, which leaves a gap. *)
Theorem orders_contiguous_add_delete :
  (∀ p description order depends_on notes w,
     orders_contiguous p →
     next_uuid_fresh w p →
     (∀ k, order = Some k → 1 ≤ k ≤ Z.of_nat (length (Plan.steps p)) + 1) →
     let p' := (Plan.add_step p description order depends_on notes w).1.2 in
     length (Plan.steps p') = S (length (Plan.steps p))
     ∧ orders_contiguous p')
  ∧ (∀ p step_id w,
       (Plan.delete_step p step_id w).1.1 = true →
       let p' := (Plan.delete_step p step_id w).1.2 in
       Step.order <$> Plan.steps p' = seqZ 1 (Z.of_nat (length (Plan.steps p')))
       ∧ orders_contiguous p')
  ∧ (∀ p description k depends_on notes w,
       orders_contiguous p →
       Z.of_nat (length (Plan.steps p)) + 1 < k →
       let p' := (Plan.add_step p description (Some k) depends_on
                    notes w).1.2 in
       Step.order <$> Plan.steps p' = (Step.order <$> Plan.steps p) ++ [k]
       ∧ ¬ orders_contiguous p').
Proof.
  split_and!.
  - intros p description order depends_on notes w Hp Hfresh Hk p'.
    subst p'. rewrite add_step_run. cbv zeta. simpl.
    rewrite steps_update_plan_status. simpl.
    set (k := match order with
              | Some o => o
              | None => Z.of_nat (length (Plan.steps p)) + 1
              end).
    assert (1 ≤ k ≤ Z.of_nat (length (Plan.steps p)) + 1) as Hk'.
    { subst k. destruct order as [o|]; [by apply Hk|lia]. }
    split.
    + by rewrite length_reorder_subsequent, length_insert_step.
    + unfold orders_contiguous. rewrite steps_update_plan_status. simpl.
      rewrite length_reorder_subsequent, length_insert_step.
      rewrite add_step_orders; [|exact Hfresh|done].
      unfold orders_contiguous in Hp. rewrite Hp.
      rewrite Nat2Z.inj_succ, <-Z.add_1_r. by apply bump_seqZ.
  - intros p step_id w Hok p'. subst p'.
    destruct (Plan.get_step p step_id) as [s|] eqn:Hs.
    + rewrite (delete_step_run_found _ _ _ _ Hs). simpl.
      assert (∀ q, Step.order <$> Plan.steps q
                   = seqZ 1 (Z.of_nat (length (Plan.steps q))) →
                   orders_contiguous q) as Hc.
      { intros q Hq. unfold orders_contiguous. by rewrite Hq. }
      split; [|apply Hc]; rewrite steps_update_plan_status; simpl;
        by rewrite renumber_orders, length_imap.
    + rewrite (delete_step_run_missing _ _ _ Hs) in Hok. done.
  - intros p description k depends_on notes w Hp Hk p'. subst p'.
    assert (∀ s, s ∈ Plan.steps p → Step.order s < k) as Hbelow.
    { intros s Hs.
      assert (Step.order s ∈ seqZ 1 (Z.of_nat (length (Plan.steps p))))
        as Hin.
      { unfold orders_contiguous in Hp. rewrite <-Hp.
        by apply list_elem_of_fmap_2. }
      apply elem_of_seqZ in Hin. lia. }
    assert (Plan.steps
              (Plan.add_step p description (Some k) depends_on notes w).1.2
            = Plan.steps p
              ++ [added_step w p description (Some k) depends_on notes])
      as Hsteps.
    { rewrite add_step_steps.
      rewrite insert_step_append
        by (intros s Hs; specialize (Hbelow s Hs); simpl; lia).
      apply reorder_subsequent_below.
      intros s [Hs| ->%list_elem_of_singleton]%elem_of_app;
        [left; by apply Hbelow|by right]. }
    split.
    + by rewrite Hsteps, fmap_app.
    + unfold orders_contiguous. rewrite Hsteps. intros Hperm.
      assert (k ∈ seqZ 1 (Z.of_nat (length
                (Plan.steps p
                 ++ [added_step w p description (Some k) depends_on notes]))))
        as Hin.
      { rewrite <-Hperm, fmap_app. apply elem_of_app. right. simpl. left. }
      apply elem_of_seqZ in Hin. rewrite length_app in Hin. simpl in Hin. lia.
Qed.

Lemma orders_contiguous_add_delete_witness :
  orders_contiguous (Plan.add_step plan_abc "new" (Some 2) None None w0).1.2
  ∧ orders_contiguous (Plan.delete_step plan_abc "b" w0).1.2
  ∧ Step.order <$>
      Plan.steps (Plan.add_step plan_abc "far" (Some 9) None None w0).1.2
    = [1; 2; 3; 9].
Proof.
  split_and!.
  - refine (proj2 (proj1 orders_contiguous_add_delete
                     plan_abc "new" (Some 2) None None w0 _ _ _)).
    + unfold orders_contiguous. vm_compute. reflexivity.
    + intros s Hs. vm_compute in Hs.
      repeat (apply elem_of_cons in Hs as [->|Hs]); [done..|].
      by apply elem_of_nil in Hs.
    + intros k [= <-]. simpl. lia.
  - refine (proj2 (proj1 (proj2 orders_contiguous_add_delete)
                     plan_abc "b" w0 _)).
    vm_compute. reflexivity.
  - refine (proj1 (proj2 (proj2 orders_contiguous_add_delete)
                     plan_abc "far" 9 None None w0 _ _)).
    + unfold orders_contiguous. vm_compute. reflexivity.
    + vm_compute. reflexivity.
Defined.

(** ** Next-step selection *)

Lemma dependencies_met_spec p s :
  Plan._dependencies_met p s = true ↔
  ∀ d, d ∈ Step.depends_on s → resolves_to_completed p d.
Proof.
  unfold Plan._dependencies_met.
  assert (forallb (λ dep_id,
            match Plan.get_step p dep_id with
            | Some dep_step =>
                bool_decide (Step.status dep_step = StepStatus.COMPLETED)
            | None => false
            end) (Step.depends_on s) = true
          ↔ ∀ d, d ∈ Step.depends_on s → resolves_to_completed p d) as Hall.
  { rewrite forallb_forall. setoid_rewrite <-list_elem_of_In.
    split; intros H d Hd.
    - specialize (H d Hd).
      destruct (Plan.get_step p d) as [t|] eqn:Ht; [|done].
      apply bool_decide_eq_true in H.
      apply resolves_to_completed_get_step.
      destruct (get_step_Some _ _ _ Ht) as [? ?]. by exists t.
    - destruct (proj1 (resolves_to_completed_get_step _ _) (H d Hd))
        as (t & -> & _ & _ & Hst).
      by apply bool_decide_eq_true. }
  destruct (Step.depends_on s) as [|d ds] eqn:E; [|exact Hall].
  split; [|done]. intros _ d Hd. by apply elem_of_nil in Hd.
Qed.

Lemma candidate_spec p s :
  bool_decide (Step.status s = StepStatus.PENDING)
  && Plan._dependencies_met p s = true ↔ eligible p s.
Proof.
  rewrite andb_true_iff, bool_decide_eq_true, dependencies_met_spec. done.
Qed.

Lemma find_first_sorted {A} (R : relation A) (f : A → bool) l x :
  StronglySorted R l → Reflexive R →
  find f l = Some x →
  x ∈ l ∧ f x = true ∧ ∀ y, y ∈ l → f y = true → R x y.
Proof.
  intros Hsorted Hrefl. induction Hsorted as [|a l Hl IH Ha]; simpl; [done|].
  destruct (f a) eqn:Hfa.
  - intros [= <-]. split_and!; [by left|done|].
    intros y [->|Hy]%elem_of_cons _; [done|].
    by eapply Forall_forall in Ha.
  - intros Hfind. destruct (IH Hfind) as (Hx & Hfx & Hmin).
    split_and!; [by right|done|].
    intros y [->|Hy]%elem_of_cons Hfy; [congruence|by apply Hmin].
Qed.

Lemma find_None_iff {A} (f : A → bool) l :
  find f l = None ↔ ∀ y, y ∈ l → f y = false.
Proof.
  induction l as [|a l IH]; simpl.
  - split; [|done]. intros _ y Hy. by apply elem_of_nil in Hy.
  - destruct (f a) eqn:Hfa.
    + split; [done|]. intros H. rewrite H in Hfa; [done|by left].
    + rewrite IH. split.
      * intros H y [->|Hy]%elem_of_cons; auto.
      * intros H y Hy. apply H. by right.
Qed.

Lemma get_next_step_of_eligible p s :
  s ∈ Plan.steps p → eligible p s →
  ∃ n, Plan.get_next_step p = Some n ∧ Step.order n ≤ Step.order s.
Proof.
  intros Hs He. unfold Plan.get_next_step.
  destruct (find _ (sorted_by_order (Plan.steps p))) as [n|] eqn:Hfind.
  - exists n. split; [done|].
    apply (find_first_sorted order_le) in Hfind as (_ & _ & Hmin);
      [|apply sorted_by_order_sorted|intros x; unfold order_le; lia].
    apply Hmin; [by rewrite sorted_by_order_perm|by apply candidate_spec].
  - exfalso. rewrite find_None_iff in Hfind.
    specialize (Hfind s). rewrite sorted_by_order_perm in Hfind.
    apply candidate_spec in He. rewrite Hfind in He; done.
Qed.

Lemma get_next_step_is_eligible p s :
  Plan.get_next_step p = Some s → s ∈ Plan.steps p ∧ eligible p s.
Proof.
  unfold Plan.get_next_step. intros Hfind.
  apply (find_first_sorted order_le) in Hfind as (Hin & Hf & _);
    [|apply sorted_by_order_sorted|intros x; unfold order_le; lia].
  rewrite sorted_by_order_perm in Hin. by apply candidate_spec in Hf.
Qed.

(** C2: [get_next_step] returns a pending step of the plan all of whose
    dependencies resolve to completed steps, of lowest order among all
    such steps; it returns nothing exactly when there is no such step; a
    pending step without dependencies is eligible; a step with a
    dependency id that no step of the plan carries is not eligible and is
    never returned; and when the step ids are unique, a pending step of
    the plan each of whose dependencies is the id of a completed step of
    the plan makes [get_next_step] return a step, of order no greater
    than its own. *)
Theorem get_next_step_lowest_eligible (p : Plan.t) :
  (∀ s, Plan.get_next_step p = Some s →
        s ∈ Plan.steps p
        ∧ eligible p s
        ∧ ∀ s', s' ∈ Plan.steps p → eligible p s' →
                Step.order s ≤ Step.order s')
  ∧ (Plan.get_next_step p = None ↔
     ∀ s, s ∈ Plan.steps p → ¬ eligible p s)
  ∧ (∀ s, Step.status s = StepStatus.PENDING → Step.depends_on s = [] →
          eligible p s)
  ∧ (∀ s d, d ∈ Step.depends_on s → dangling p d →
            ¬ eligible p s ∧ Plan.get_next_step p ≠ Some s)
  ∧ (ids_unique p →
     ∀ s, s ∈ Plan.steps p →
          Step.status s = StepStatus.PENDING →
          (∀ d, d ∈ Step.depends_on s →
                ∃ t, t ∈ Plan.steps p
                     ∧ Step.step_id t = d
                     ∧ Step.status t = StepStatus.COMPLETED) →
          ∃ n, Plan.get_next_step p = Some n
               ∧ Step.order n ≤ Step.order s).
Proof.
  assert (∀ s, Plan.get_next_step p = Some s →
        s ∈ Plan.steps p
        ∧ eligible p s
        ∧ ∀ s', s' ∈ Plan.steps p → eligible p s' →
                Step.order s ≤ Step.order s') as Hsome.
  { intros s Hs. unfold Plan.get_next_step in Hs.
    apply (find_first_sorted order_le) in Hs as (Hin & Hf & Hmin);
      [|apply sorted_by_order_sorted|intros x; unfold order_le; lia].
    rewrite sorted_by_order_perm in Hin. apply candidate_spec in Hf.
    split_and!; [done..|].
    intros s' Hs' He. apply Hmin.
    - by rewrite sorted_by_order_perm.
    - by apply candidate_spec. }
  assert (∀ s d, d ∈ Step.depends_on s → dangling p d → ¬ eligible p s)
    as Hdangling.
  { intros s d Hd Hdang [_ Hdeps].
    destruct (Hdeps d Hd) as (t & (i & Ht & Hid & _) & _).
    apply (Hdang t); [by eapply list_elem_of_lookup_2|done]. }
  split_and!.
  - exact Hsome.
  - unfold Plan.get_next_step. rewrite find_None_iff.
    setoid_rewrite sorted_by_order_perm.
    split; intros H s Hs.
    + rewrite <-candidate_spec, (H s Hs). done.
    + apply not_true_is_false. rewrite candidate_spec. by apply H.
  - intros s Hst Hdeps. split; [done|].
    intros d Hd. rewrite Hdeps in Hd. by apply elem_of_nil in Hd.
  - intros s d Hd Hdang. split; [by eapply Hdangling|].
    intros Hs. destruct (Hsome s Hs) as (_ & He & _).
    by eapply Hdangling.
  - intros Hunique s Hs Hpending Hdeps.
    apply get_next_step_of_eligible; [done|].
    split; [done|]. intros d Hd.
    destruct (Hdeps d Hd) as (t & Ht & <- & Hst).
    exists t. split; [by apply first_with_id_unique|done].
Qed.

(** Scenario A: three pending steps without dependencies; the step of
    order 1 is next. *)
Example get_next_step_scenario_A :
  Step.step_id <$> Plan.get_next_step plan_abc = Some "a".
Proof. vm_compute. reflexivity. Qed.

(** Scenario B, with a further step whose dependency is dangling: step b
    (order 2) is next; step c is never selected. *)
Example get_next_step_scenario_B :
  Step.step_id <$> Plan.get_next_step plan_deps = Some "b".
Proof. vm_compute. reflexivity. Qed.

Lemma get_next_step_lowest_eligible_witness :
  let b := sample_step "b" 3 StepStatus.PENDING ["a"] in
  let p := sample_plan PlanStatus.IN_PROGRESS
             [sample_step "x" 1 StepStatus.COMPLETED [];
              sample_step "a" 2 StepStatus.COMPLETED [];
              b] in
  (∃ n, Plan.get_next_step p = Some n ∧ Step.order n ≤ 3)
  ∧ (∀ s, Plan.get_next_step p = Some s → s ∈ Plan.steps p ∧ eligible p s).
Proof.
  intros b p. split.
  - refine (proj2 (proj2 (proj2 (proj2 (get_next_step_lowest_eligible p))))
              _ b _ _ _).
    + unfold ids_unique. apply (bool_decide_unpack _). vm_compute. exact I.
    + vm_compute. do 2 right. left.
    + reflexivity.
    + intros d Hd. vm_compute in Hd.
      apply elem_of_cons in Hd as [->|Hd]; [|by apply elem_of_nil in Hd].
      exists (sample_step "a" 2 StepStatus.COMPLETED []).
      split; [vm_compute; right; left|done].
  - intros s Hs.
    destruct (proj1 (get_next_step_lowest_eligible p) s Hs) as (? & ? & _).
    done.
Defined.

(** ** Status derivation *)

Lemma update_step_run_found self step_id status notes w i step :
  Plan.get_step_ref self step_id = Some (i, step) →
  Plan.update_step self step_id status notes w =
  let r := match status with
           | Some st => Step.update_status step st notes w
           | None =>
               match notes with
               | Some n =>
                   (Step.set_updated_at (utc_clock w (utc_reads w))
                      (Step.set_notes (Some n) step),
                    mkWorld (utc_clock w) (S (utc_reads w)) (uuid_gen w)
                      (uuid_draws w))
               | None => (step, w)
               end
           end in
  ((true,
    Plan._update_plan_status
      (Plan.set_updated_at (utc_clock r.2 (utc_reads r.2))
         (Plan.set_steps (<[i := r.1]> (Plan.steps self)) self))),
   mkWorld (utc_clock r.2) (S (utc_reads r.2)) (uuid_gen r.2) (uuid_draws r.2)).
Proof.
  intros Href. unfold Plan.update_step. rewrite Href.
  destruct status as [st|]; [|destruct notes as [n|]]; cbv zeta.
  - unfold mbind, M_bind.
    destruct (Step.update_status step st notes w) as [step' w']. reflexivity.
  - reflexivity.
  - reflexivity.
Qed.

Lemma update_step_run_missing self step_id status notes w :
  Plan.get_step_ref self step_id = None →
  Plan.update_step self step_id status notes w = ((false, self), w).
Proof. intros Href. unfold Plan.update_step. rewrite Href. reflexivity. Qed.

Lemma get_step_ref_is_Some self step_id :
  is_Some (Plan.get_step_ref self step_id) ↔
  is_Some (Plan.get_step self step_id).
Proof. unfold Plan.get_step. by rewrite fmap_is_Some. Qed.

Lemma update_step_success self step_id status notes w :
  (Plan.update_step self step_id status notes w).1.1 = true ↔
  is_Some (Plan.get_step self step_id).
Proof.
  rewrite <-get_step_ref_is_Some.
  destruct (Plan.get_step_ref self step_id) as [[i step]|] eqn:Href.
  - rewrite (update_step_run_found _ _ _ _ _ _ _ Href). simpl.
    split; [by eauto|done].
  - rewrite (update_step_run_missing _ _ _ _ _ Href). simpl.
    split; [done|]. by intros [? ?].
Qed.

Lemma delete_step_success self step_id w :
  (Plan.delete_step self step_id w).1.1 = true ↔
  is_Some (Plan.get_step self step_id).
Proof.
  destruct (Plan.get_step self step_id) as [s|] eqn:Hs.
  - rewrite (delete_step_run_found _ _ _ _ Hs). simpl.
    split; [by eauto|done].
  - rewrite (delete_step_run_missing _ _ _ Hs). simpl.
    split; [done|]. by intros [? ?].
Qed.

Lemma get_step_is_Some p step_id s :
  s ∈ Plan.steps p → Step.step_id s = step_id →
  is_Some (Plan.get_step p step_id).
Proof.
  intros Hs Hid.
  destruct (Plan.get_step p step_id) as [t|] eqn:Hget; [by eauto|].
  pose proof (proj1 (get_step_None _ _) Hget) as Hnone.
  by destruct (Hnone s Hs).
Qed.

Lemma all_completed_decide (l : list StepStatus.t) :
  forallb (λ status, bool_decide (status = StepStatus.COMPLETED)) l
  = bool_decide (Forall (λ st, st = StepStatus.COMPLETED) l).
Proof.
  induction l as [|a l IH]; simpl; [done|].
  rewrite IH, <-bool_decide_and. apply bool_decide_ext.
  by rewrite Forall_cons.
Qed.

Lemma any_status_decide (P : StepStatus.t → Prop) `{!∀ x, Decision (P x)}
    (l : list StepStatus.t) :
  existsb (λ status, bool_decide (P status)) l = bool_decide (Exists P l).
Proof.
  induction l as [|a l IH]; simpl.
  - done.
  - rewrite IH, <-bool_decide_or. apply bool_decide_ext.
    by rewrite Exists_cons.
Qed.

Lemma update_plan_status_spec p :
  Plan.status (Plan._update_plan_status p)
  = derived_status_spec (Step.status <$> Plan.steps p).
Proof.
  unfold Plan._update_plan_status, derived_status_spec.
  destruct (Plan.steps p) as [|s l] eqn:E; [done|].
  rewrite decide_False by done.
  rewrite all_completed_decide.
  rewrite (any_status_decide (λ st, st = StepStatus.FAILED)).
  rewrite (any_status_decide
             (λ st, st ∈ [StepStatus.IN_PROGRESS; StepStatus.COMPLETED])).
  set (sts := Step.status <$> s :: l).
  destruct (decide (Forall (λ st, st = StepStatus.COMPLETED) sts)) as [Hc|Hc].
  { by rewrite bool_decide_eq_true_2. }
  rewrite (bool_decide_eq_false_2 _ Hc).
  destruct (decide (StepStatus.FAILED ∈ sts)) as [Hf|Hf].
  { rewrite bool_decide_eq_true_2; [done|].
    apply Exists_exists. eauto. }
  rewrite bool_decide_eq_false_2.
  2:{ intros (st & Hst & ->)%Exists_exists. done. }
  destruct (decide (StepStatus.IN_PROGRESS ∈ sts ∨ StepStatus.COMPLETED ∈ sts))
    as [Hi|Hi].
  - rewrite bool_decide_eq_true_2; [done|].
    apply Exists_exists.
    destruct Hi as [Hi|Hi]; eexists; (split; [exact Hi|]);
      rewrite !elem_of_cons; auto.
  - rewrite bool_decide_eq_false_2; [done|].
    intros (st & Hst & Hin)%Exists_exists. apply Hi.
    rewrite !elem_of_cons in Hin.
    destruct Hin as [->| [->|Hnil]]; auto. by apply elem_of_nil in Hnil.
Qed.

Lemma derived_status_spec_perm l1 l2 :
  l1 ≡ₚ l2 → derived_status_spec l1 = derived_status_spec l2.
Proof.
  intros Hperm. unfold derived_status_spec.
  assert (l1 = [] ↔ l2 = []) as Hnil.
  { split; intros ->; [symmetry in Hperm|];
      by apply Permutation_nil_r in Hperm. }
  repeat (destruct (decide _) as [?|?]); try done;
    try (exfalso; rewrite ?Hperm in *; tauto);
    try (exfalso; rewrite <-?Hperm in *; tauto).
Qed.

Lemma status_after_recompute q :
  Plan.status (Plan._update_plan_status q)
  = derived_status_spec
      (Step.status <$> Plan.steps (Plan._update_plan_status q)).
Proof. by rewrite update_plan_status_spec, steps_update_plan_status. Qed.

(** Scenario E: three completed steps give a completed plan; marking one
    of them failed gives a failed plan. *)
Example status_scenario_E :
  let p := sample_plan PlanStatus.IN_PROGRESS
             [sample_step "a" 1 StepStatus.COMPLETED [];
              sample_step "b" 2 StepStatus.COMPLETED [];
              sample_step "c" 3 StepStatus.PENDING []] in
  let r1 := Plan.update_step p "c" (Some StepStatus.COMPLETED) None w0 in
  let r2 := Plan.update_step r1.1.2 "b" (Some StepStatus.FAILED) None r1.2 in
  Plan.status r1.1.2 = PlanStatus.COMPLETED
  ∧ Plan.status r2.1.2 = PlanStatus.FAILED.
Proof. vm_compute. done. Qed.

(** C3: the plan status is a function of the multiset of step statuses,
    namely the precedence rule of the specification; [add_step] leaves
    the plan with the status that the rule gives for its steps; and
    whenever a step of the plan has the given id, [update_step] and
    [delete_step] succeed and leave the plan with the status that the
    rule gives for its steps. *)
Theorem plan_status_is_derived :
  (∀ l1 l2, l1 ≡ₚ l2 → derived_status_spec l1 = derived_status_spec l2)
  ∧ (∀ p, Plan.status (Plan._update_plan_status p)
          = derived_status_spec (Step.status <$> Plan.steps p))
  ∧ (∀ p1 p2,
       Step.status <$> Plan.steps p1 ≡ₚ Step.status <$> Plan.steps p2 →
       Plan.status (Plan._update_plan_status p1)
       = Plan.status (Plan._update_plan_status p2))
  ∧ (∀ p description order depends_on notes w,
       let p' := (Plan.add_step p description order depends_on notes w).1.2 in
       Plan.status p' = derived_status_spec (Step.status <$> Plan.steps p'))
  ∧ (∀ p step_id status notes w s,
       s ∈ Plan.steps p → Step.step_id s = step_id →
       let r := Plan.update_step p step_id status notes w in
       r.1.1 = true
       ∧ Plan.status r.1.2
         = derived_status_spec (Step.status <$> Plan.steps r.1.2))
  ∧ (∀ p step_id w s,
       s ∈ Plan.steps p → Step.step_id s = step_id →
       let r := Plan.delete_step p step_id w in
       r.1.1 = true
       ∧ Plan.status r.1.2
         = derived_status_spec (Step.status <$> Plan.steps r.1.2)).
Proof.
  split_and!.
  - exact derived_status_spec_perm.
  - exact update_plan_status_spec.
  - intros p1 p2 Hperm. rewrite !update_plan_status_spec.
    by apply derived_status_spec_perm.
  - intros p description order depends_on notes w p'. subst p'.
    rewrite add_step_run. cbv zeta. simpl. apply status_after_recompute.
  - intros p step_id status notes w s Hs Hid r. subst r.
    pose proof (get_step_is_Some p step_id s Hs Hid) as Hfound.
    apply get_step_ref_is_Some in Hfound as [[i step] Href].
    rewrite (update_step_run_found _ _ _ _ _ _ _ Href). cbv zeta. simpl.
    split; [done|]. apply status_after_recompute.
  - intros p step_id w s Hs Hid r. subst r.
    destruct (get_step_is_Some p step_id s Hs Hid) as [t Ht].
    rewrite (delete_step_run_found _ _ _ _ Ht). simpl.
    split; [done|]. apply status_after_recompute.
Qed.

Lemma plan_status_is_derived_witness :
  let stale := sample_plan PlanStatus.PAUSED
                 [sample_step "a" 1 StepStatus.COMPLETED [];
                  sample_step "b" 2 StepStatus.PENDING []] in
  let updated := Plan.update_step stale "b" (Some StepStatus.FAILED) None w0 in
  let deleted := Plan.delete_step stale "b" w0 in
  derived_status_spec [StepStatus.COMPLETED; StepStatus.PENDING]
  = derived_status_spec [StepStatus.PENDING; StepStatus.COMPLETED]
  ∧ updated.1.1 = true
  ∧ Plan.status updated.1.2 = PlanStatus.FAILED
  ∧ deleted.1.1 = true
  ∧ Plan.status deleted.1.2 = PlanStatus.COMPLETED.
Proof.
  intros stale updated deleted.
  destruct plan_status_is_derived as (Hperm & _ & _ & _ & Hupdate & Hdelete).
  destruct (Hupdate stale "b" (Some StepStatus.FAILED) None w0
              (sample_step "b" 2 StepStatus.PENDING []))
    as [Hflag Hstatus]; [vm_compute; right; left|reflexivity|].
  destruct (Hdelete stale "b" w0 (sample_step "b" 2 StepStatus.PENDING []))
    as [Hflag' Hstatus']; [vm_compute; right; left|reflexivity|].
  split_and!.
  - apply Hperm, Permutation_swap.
  - exact Hflag.
  - subst updated. rewrite Hstatus. vm_compute. reflexivity.
  - exact Hflag'.
  - subst deleted. rewrite Hstatus'. vm_compute. reflexivity.
Defined.

(** ** A step id that the plan does not have *)

(** C5: when no step of the plan has the given id, [update_step] and
    [delete_step] return false and the plan after the call is the plan
    before it, in every field (steps, status and last-updated timestamp
    included); the clock is not even read. *)
Theorem missing_step_no_mutation (p : Plan.t) (step_id : string) :
  (∀ s, s ∈ Plan.steps p → Step.step_id s ≠ step_id) →
  (∀ status notes w,
     Plan.update_step p step_id status notes w = ((false, p), w))
  ∧ (∀ w, Plan.delete_step p step_id w = ((false, p), w)).
Proof.
  intros Hmissing. apply get_step_None in Hmissing. split.
  - intros status notes w. apply update_step_run_missing.
    unfold Plan.get_step in Hmissing. by apply fmap_None in Hmissing.
  - intros w. by apply delete_step_run_missing.
Qed.

Lemma missing_step_no_mutation_witness :
  Plan.update_step plan_abc "zzz" (Some StepStatus.COMPLETED) None w0
  = ((false, plan_abc), w0)
  ∧ Plan.delete_step plan_abc "zzz" w0 = ((false, plan_abc), w0).
Proof.
  assert (∀ s, s ∈ Plan.steps plan_abc → Step.step_id s ≠ "zzz") as Hmissing.
  { intros s Hs. vm_compute in Hs.
    repeat (apply elem_of_cons in Hs as [->|Hs]); [done..|].
    by apply elem_of_nil in Hs. }
  split.
  - apply (proj1 (missing_step_no_mutation plan_abc "zzz" Hmissing)).
  - apply (proj2 (missing_step_no_mutation plan_abc "zzz" Hmissing)).
Defined.

(** ** reset_steps *)

Lemma for_each_clock_run {A B} (body : A → M B) (g : Time → A → B) :
  (∀ x w, body x w
          = (g (utc_clock w (utc_reads w)) x,
             mkWorld (utc_clock w) (S (utc_reads w)) (uuid_gen w)
               (uuid_draws w))) →
  ∀ l w, for_each body l w
         = (imap (λ i, g (utc_clock w (utc_reads w + i)%nat)) l,
            mkWorld (utc_clock w) (utc_reads w + length l)%nat (uuid_gen w)
              (uuid_draws w)).
Proof.
  intros Hbody l. induction l as [|x l IH]; intros w.
  - simpl. rewrite Nat.add_0_r. by destruct w.
  - cbn [for_each]. unfold mbind, M_bind. rewrite Hbody, IH. simpl.
    rewrite Nat.add_0_r. f_equal.
    + f_equal. apply imap_ext. intros i y _. simpl.
      by rewrite Nat.add_succ_r.
    + by rewrite Nat.add_succ_r.
Qed.

Lemma reset_steps_run p w :
  Plan.reset_steps p w =
  (Plan.set_updated_at
     (utc_clock w (utc_reads w + length (Plan.steps p))%nat)
     (Plan.set_status PlanStatus.NOT_STARTED
        (Plan.set_steps
           (imap (λ i, reset_step (utc_clock w (utc_reads w + i)%nat))
              (Plan.steps p)) p)),
   mkWorld (utc_clock w) (S (utc_reads w + length (Plan.steps p)))
     (uuid_gen w) (uuid_draws w)).
Proof.
  unfold Plan.reset_steps, mbind at 1. unfold M_bind at 1.
  rewrite (for_each_clock_run _ reset_step) by done. reflexivity.
Qed.

Lemma reset_steps_lookup p w i :
  Plan.steps (Plan.reset_steps p w).1 !! i
  = reset_step (utc_clock w (utc_reads w + i)%nat) <$> Plan.steps p !! i.
Proof. rewrite reset_steps_run. simpl. by rewrite list_lookup_imap. Qed.

(** C6: after [reset_steps] the plan is not_started and has as many steps
    as before; the step at each position is pending with no completed-at
    timestamp, and has the order, description, dependencies and notes
    (also the id and creation time) of the step that was there. *)
Theorem reset_steps_effect_and_frame (p : Plan.t) (w : World) :
  let p' := (Plan.reset_steps p w).1 in
  Plan.status p' = PlanStatus.NOT_STARTED
  ∧ length (Plan.steps p') = length (Plan.steps p)
  ∧ (∀ i s, Plan.steps p !! i = Some s →
       ∃ s', Plan.steps p' !! i = Some s'
             ∧ Step.status s' = StepStatus.PENDING
             ∧ Step.completed_at s' = None
             ∧ Step.order s' = Step.order s
             ∧ Step.description s' = Step.description s
             ∧ Step.depends_on s' = Step.depends_on s
             ∧ Step.notes s' = Step.notes s
             ∧ Step.step_id s' = Step.step_id s
             ∧ Step.created_at s' = Step.created_at s)
  ∧ (∀ s', s' ∈ Plan.steps p' →
       Step.status s' = StepStatus.PENDING ∧ Step.completed_at s' = None).
Proof.
  intros p'. subst p'. split_and!.
  - by rewrite reset_steps_run.
  - rewrite reset_steps_run. simpl. apply length_imap.
  - intros i s Hs. rewrite reset_steps_lookup, Hs. simpl.
    eexists. split; [reflexivity|]. done.
  - intros s' (i & Hi)%list_elem_of_lookup.
    rewrite reset_steps_lookup in Hi.
    apply fmap_Some in Hi as (s & _ & ->). done.
Qed.

Lemma reset_steps_effect_and_frame_witness :
  ∃ s', Plan.steps (Plan.reset_steps plan_deps w0).1 !! 0%nat = Some s'
        ∧ Step.status s' = StepStatus.PENDING
        ∧ Step.completed_at s' = None
        ∧ Step.order s' = 1.
Proof.
  destruct (proj1 (proj2 (proj2 (reset_steps_effect_and_frame plan_deps w0)))
              0%nat (sample_step "a" 1 StepStatus.COMPLETED []))
    as (s' & Hs' & Hst & Hc & Ho & _).
  - vm_compute. reflexivity.
  - exists s'. simpl in Ho. auto.
Defined.

(** C7, as stated, fails: each call of [reset_steps] stamps the plan and
    every step with the current clock reading, so the state after two
    calls carries later timestamps than the state after one call. *)
Lemma reset_steps_twice_restamps :
  let once := Plan.reset_steps plan_abc w0 in
  let twice := Plan.reset_steps once.1 once.2 in
  Plan.updated_at once.1 = 1003
  ∧ Plan.updated_at twice.1 = 1007
  ∧ twice.1 ≠ once.1.
Proof.
  cbv zeta. split_and!.
  - vm_compute. reflexivity.
  - vm_compute. reflexivity.
  - intros Heq. apply (f_equal Plan.updated_at) in Heq.
    vm_compute in Heq. discriminate Heq.
Qed.

Lemma reset_step_reset_step t1 t2 s :
  reset_step t2 (reset_step t1 s) = reset_step t2 s.
Proof. reflexivity. Qed.

Lemma forget_reset_step t s :
  Step.set_updated_at 0 (reset_step t s)
  = Step.set_updated_at 0
      (Step.set_completed_at None (Step.set_status StepStatus.PENDING s)).
Proof. reflexivity. Qed.

(** C7 (amended): a second [reset_steps] changes nothing but the
    last-updated timestamps of the plan and of its steps.  The state after
    two calls is the state that one call produces when made at the clock
    readings of the second call, and it agrees with the state after the
    first call in every field other than the last-updated timestamps. *)
Theorem reset_steps_idempotent_up_to_timestamps (p : Plan.t) (w : World) :
  let once := Plan.reset_steps p w in
  let twice := Plan.reset_steps once.1 once.2 in
  twice.1 = (Plan.reset_steps p once.2).1
  ∧ forget_updated_at twice.1 = forget_updated_at once.1.
Proof.
  cbv zeta. rewrite !reset_steps_run. simpl. split.
  - rewrite length_imap. unfold Plan.set_updated_at, Plan.set_status,
      Plan.set_steps. simpl. f_equal.
    apply list_eq. intros i. rewrite !list_lookup_imap.
    destruct (Plan.steps p !! i); simpl; [|done].
    by rewrite reset_step_reset_step.
  - unfold forget_updated_at. simpl.
    unfold Plan.set_updated_at, Plan.set_status, Plan.set_steps. simpl.
    f_equal. apply list_eq. intros i.
    rewrite !list_lookup_fmap, !list_lookup_imap.
    destruct (Plan.steps p !! i); simpl; [|done].
    by rewrite !forget_reset_step.
Qed.

(** ** The plan status is never paused by a step operation *)

Lemma update_plan_status_range p :
  Plan.status (Plan._update_plan_status p)
  ∈ [PlanStatus.NOT_STARTED; PlanStatus.COMPLETED; PlanStatus.FAILED;
     PlanStatus.IN_PROGRESS].
Proof.
  unfold Plan._update_plan_status.
  destruct (Plan.steps p) eqn:E; [by left|].
  repeat case_match; simpl; rewrite !elem_of_cons; auto.
Qed.

Lemma update_plan_status_not_paused p :
  Plan.status (Plan._update_plan_status p) ≠ PlanStatus.PAUSED.
Proof.
  pose proof (update_plan_status_range p) as Hr. intros Hp.
  rewrite Hp in Hr. rewrite !elem_of_cons in Hr.
  destruct Hr as [?|[?|[?|[?|Hnil]]]]; try done.
  by apply elem_of_nil in Hnil.
Qed.

(** C8: the status derivation yields not_started, completed, failed or
    in_progress, never paused; [reset_steps] yields not_started; hence a
    plan that is not paused is not paused after [add_step], [update_step],
    [delete_step] or [reset_steps].  The metadata update of the service
    layer, given the status paused, does make the plan paused. *)
Theorem step_operations_never_pause :
  (∀ p, Plan.status (Plan._update_plan_status p)
        ∈ [PlanStatus.NOT_STARTED; PlanStatus.COMPLETED; PlanStatus.FAILED;
           PlanStatus.IN_PROGRESS])
  ∧ (∀ p w, Plan.status (Plan.reset_steps p w).1 = PlanStatus.NOT_STARTED)
  ∧ (∀ p description order depends_on notes w,
       Plan.status p ≠ PlanStatus.PAUSED →
       Plan.status (Plan.add_step p description order depends_on notes w).1.2
       ≠ PlanStatus.PAUSED)
  ∧ (∀ p step_id status notes w,
       Plan.status p ≠ PlanStatus.PAUSED →
       Plan.status (Plan.update_step p step_id status notes w).1.2
       ≠ PlanStatus.PAUSED)
  ∧ (∀ p step_id w,
       Plan.status p ≠ PlanStatus.PAUSED →
       Plan.status (Plan.delete_step p step_id w).1.2 ≠ PlanStatus.PAUSED)
  ∧ (∀ p w,
       Plan.status p ≠ PlanStatus.PAUSED →
       Plan.status (Plan.reset_steps p w).1 ≠ PlanStatus.PAUSED)
  ∧ (∀ p name description w,
       Plan.status
         (ManagementService.update_plan_metadata p name description
            (Some PlanStatus.PAUSED) w).1
       = PlanStatus.PAUSED).
Proof.
  split_and!.
  - exact update_plan_status_range.
  - intros p w. by rewrite reset_steps_run.
  - intros p description order depends_on notes w _.
    rewrite add_step_run. cbv zeta. simpl.
    apply update_plan_status_not_paused.
  - intros p step_id status notes w Hp.
    destruct (Plan.get_step_ref p step_id) as [[i step]|] eqn:Href.
    + rewrite (update_step_run_found _ _ _ _ _ _ _ Href). cbv zeta. simpl.
      apply update_plan_status_not_paused.
    + by rewrite (update_step_run_missing _ _ _ _ _ Href).
  - intros p step_id w Hp.
    destruct (Plan.get_step p step_id) as [s|] eqn:Hs.
    + rewrite (delete_step_run_found _ _ _ _ Hs). simpl.
      apply update_plan_status_not_paused.
    + by rewrite (delete_step_run_missing _ _ _ Hs).
  - intros p w _. by rewrite reset_steps_run.
  - intros p name description w.
    by destruct name, description.
Qed.

Lemma step_operations_never_pause_witness :
  Plan.status (Plan.add_step plan_abc "new" None None None w0).1.2
  ≠ PlanStatus.PAUSED
  ∧ Plan.status (Plan.delete_step plan_abc "b" w0).1.2 ≠ PlanStatus.PAUSED.
Proof.
  assert (Plan.status plan_abc ≠ PlanStatus.PAUSED) as Hp
    by (vm_compute; discriminate).
  split.
  - exact (proj1 (proj2 (proj2 step_operations_never_pause))
             plan_abc "new" None None None w0 Hp).
  - exact (proj1 (proj2 (proj2 (proj2 (proj2 step_operations_never_pause))))
             plan_abc "b" w0 Hp).
Defined.

(** ** completed_at under update_step *)

Lemma update_status_run s st notes w :
  Step.update_status s st notes w =
  let c := if bool_decide (st = StepStatus.COMPLETED)
           then Some (utc_clock w (S (utc_reads w)))
           else Step.completed_at s in
  let n := match notes with Some n => Some n | None => Step.notes s end in
  (Step.mk (Step.step_id s) (Step.order s) (Step.description s) st
     (Step.depends_on s) n (Step.created_at s) (utc_clock w (utc_reads w)) c,
   mkWorld (utc_clock w)
     (if bool_decide (st = StepStatus.COMPLETED)
      then S (S (utc_reads w)) else S (utc_reads w))
     (uuid_gen w) (uuid_draws w)).
Proof.
  unfold Step.update_status, mbind, M_bind. simpl.
  case_bool_decide; destruct notes; reflexivity.
Qed.

Lemma update_step_steps p step_id status notes w i step :
  Plan.get_step_ref p step_id = Some (i, step) →
  ∃ step',
    Plan.steps (Plan.update_step p step_id status notes w).1.2
    = <[i := step']> (Plan.steps p)
    ∧ Step.step_id step' = Step.step_id step
    ∧ (status ≠ Some StepStatus.COMPLETED →
       Step.completed_at step' = Step.completed_at step)
    ∧ (is_Some (Step.completed_at step) → is_Some (Step.completed_at step')).
Proof.
  intros Href. rewrite (update_step_run_found _ _ _ _ _ _ _ Href).
  cbv zeta. simpl. rewrite steps_update_plan_status. simpl.
  eexists. split; [reflexivity|].
  destruct status as [st|]; [|destruct notes as [n|]]; simpl.
  - rewrite update_status_run. cbv zeta. simpl.
    case_bool_decide as Hst; naive_solver.
  - done.
  - done.
Qed.

Lemma filter_all_true {A} (P : A → Prop) `{!∀ x, Decision (P x)} (l : list A) :
  (∀ x, x ∈ l → P x) → filter P l = l.
Proof.
  induction l as [|a l IH]; intros Hall; [done|].
  rewrite filter_cons_True by (apply Hall; by left).
  f_equal. apply IH. intros x Hx. apply Hall. by right.
Qed.

Lemma reorder_subsequent_keeps k step l :
  id_and_completed_at <$> Plan.reorder_subsequent k step l
  = id_and_completed_at <$> l.
Proof.
  unfold Plan.reorder_subsequent. rewrite <-list_fmap_compose.
  apply list_fmap_ext. intros i s _. simpl. by case_match.
Qed.

Lemma renumber_keeps (l : list Step.t) :
  id_and_completed_at <$>
    imap (λ i step_item, Step.set_order (Z.of_nat i + 1) step_item) l
  = id_and_completed_at <$> l.
Proof.
  rewrite fmap_imap, <-(imap_const id_and_completed_at).
  by apply imap_ext.
Qed.

(** C9: [update_step] leaves a step at every position where there was
    one, with the same id; when the status passed is not completed, that
    step has the completed-at timestamp it had, and in every case a
    completed-at timestamp that was set is still set.  [reset_steps]
    clears the timestamp of every step.  [add_step] and [delete_step] do
    not touch the timestamps of the steps they keep. *)
Theorem update_step_keeps_completed_at :
  (∀ p step_id status notes w i s,
     Plan.steps p !! i = Some s →
     ∃ s', Plan.steps (Plan.update_step p step_id status notes w).1.2 !! i
           = Some s'
           ∧ Step.step_id s' = Step.step_id s
           ∧ (status ≠ Some StepStatus.COMPLETED →
              Step.completed_at s' = Step.completed_at s)
           ∧ (is_Some (Step.completed_at s) →
              is_Some (Step.completed_at s')))
  ∧ (∀ p w s', s' ∈ Plan.steps (Plan.reset_steps p w).1 →
               Step.completed_at s' = None)
  ∧ (∀ p description order depends_on notes w,
       id_and_completed_at <$>
         Plan.steps (Plan.add_step p description order depends_on notes w).1.2
       ≡ₚ (uuid_gen w (uuid_draws w), None)
          :: (id_and_completed_at <$> Plan.steps p))
  ∧ (∀ p step_id w,
       id_and_completed_at <$> Plan.steps (Plan.delete_step p step_id w).1.2
       ≡ₚ id_and_completed_at <$>
            filter (λ s, Step.step_id s ≠ step_id) (Plan.steps p)).
Proof.
  split_and!.
  - intros p step_id status notes w i s Hs.
    destruct (Plan.get_step_ref p step_id) as [[j step]|] eqn:Href.
    + destruct (update_step_steps p step_id status notes w j step Href)
        as (step' & -> & Hid & Hkeep & Hset).
      apply list_find_Some in Href as (Hj & _ & _).
      destruct (decide (j = i)) as [->|Hne].
      * exists step'. rewrite list_lookup_insert_eq
          by (by eapply lookup_lt_Some).
        rewrite Hs in Hj. injection Hj as ->. done.
      * exists s. by rewrite list_lookup_insert_ne.
    + rewrite (update_step_run_missing _ _ _ _ _ Href). simpl.
      exists s. done.
  - intros p w s' (i & Hi)%list_elem_of_lookup.
    rewrite reset_steps_lookup in Hi.
    apply fmap_Some in Hi as (s & _ & ->). done.
  - intros p description order depends_on notes w.
    rewrite add_step_run. cbv zeta. simpl.
    rewrite steps_update_plan_status. simpl.
    by rewrite reorder_subsequent_keeps, insert_step_perm.
  - intros p step_id w.
    destruct (Plan.get_step p step_id) as [s|] eqn:Hs.
    + rewrite (delete_step_run_found _ _ _ _ Hs). simpl.
      rewrite steps_update_plan_status. simpl.
      by rewrite renumber_keeps, sorted_by_order_perm.
    + rewrite (delete_step_run_missing _ _ _ Hs). simpl.
      pose proof (proj1 (get_step_None _ _) Hs) as Hnone.
      by rewrite filter_all_true.
Qed.

(** A completed step, stamped at time 7, is set back to pending: the
    timestamp stays; [reset_steps] removes it. *)
Example completed_at_survives_update :
  let done_a := Step.set_completed_at (Some 7)
                  (sample_step "a" 1 StepStatus.COMPLETED []) in
  let p := sample_plan PlanStatus.COMPLETED [done_a] in
  let r := Plan.update_step p "a" (Some StepStatus.PENDING) None w0 in
  (λ s, (Step.status s, Step.completed_at s)) <$> Plan.steps r.1.2
  = [(StepStatus.PENDING, Some 7)]
  ∧ Step.completed_at <$> Plan.steps (Plan.reset_steps p w0).1 = [None].
Proof. vm_compute. done. Qed.

Lemma update_step_keeps_completed_at_witness :
  let done_a := Step.set_completed_at (Some 7)
                  (sample_step "a" 1 StepStatus.COMPLETED []) in
  let p := sample_plan PlanStatus.COMPLETED [done_a] in
  ∃ s', Plan.steps
          (Plan.update_step p "a" (Some StepStatus.FAILED) None w0).1.2
          !! 0%nat = Some s'
        ∧ Step.completed_at s' = Some 7.
Proof.
  intros done_a p.
  destruct (proj1 update_step_keeps_completed_at
              p "a" (Some StepStatus.FAILED) None w0 0%nat done_a)
    as (s' & Hs' & _ & Hkeep & _).
  - vm_compute. reflexivity.
  - exists s'. split; [exact Hs'|].
    rewrite Hkeep; [reflexivity|discriminate].
Defined.

(** ** update_step without status and notes *)

(** A paused plan whose steps are all pending: the update that changes no
    step still recomputes the status and the timestamp of the plan. *)
Example update_step_nothing_recomputes :
  let p := sample_plan PlanStatus.PAUSED
             [sample_step "a" 1 StepStatus.PENDING []] in
  let r := Plan.update_step p "a" None None w0 in
  r.1.1 = true
  ∧ Plan.steps r.1.2 = Plan.steps p
  ∧ Plan.status r.1.2 = PlanStatus.NOT_STARTED
  ∧ Plan.updated_at p = 10 ∧ Plan.updated_at r.1.2 = 1000.
Proof. vm_compute. done. Qed.

(** C10: for the id of a step of the plan, [update_step] with neither
    status nor notes returns true and leaves every step as it was (the
    list of steps is unchanged), sets the plan's last-updated timestamp
    to the current clock reading and recomputes the plan status from the
    steps; nothing else in the plan changes. *)
Theorem update_step_without_changes (p : Plan.t) (step_id : string)
    (w : World) (s : Step.t) :
  Plan.get_step p step_id = Some s →
  let r := Plan.update_step p step_id None None w in
  r.1.1 = true
  ∧ Plan.steps r.1.2 = Plan.steps p
  ∧ Plan.updated_at r.1.2 = utc_clock w (utc_reads w)
  ∧ Plan.status r.1.2 = derived_status_spec (Step.status <$> Plan.steps p)
  ∧ r.1.2 = Plan._update_plan_status
              (Plan.set_updated_at (utc_clock w (utc_reads w)) p)
  ∧ utc_reads r.2 = S (utc_reads w).
Proof.
  intros Hs r. subst r.
  unfold Plan.get_step in Hs.
  apply fmap_Some in Hs as ([i step] & Href & _).
  rewrite (update_step_run_found _ _ _ _ _ _ _ Href). cbv zeta. simpl.
  apply list_find_Some in Href as (Hi & _ & _).
  rewrite (list_insert_id _ _ _ Hi).
  assert (Plan.set_steps (Plan.steps p) p = p) as -> by by destruct p.
  split_and!; try done.
  - by rewrite steps_update_plan_status.
  - by rewrite updated_at_update_plan_status.
  - by rewrite update_plan_status_spec.
Qed.

Lemma update_step_without_changes_witness :
  let r := Plan.update_step plan_abc "b" None None w0 in
  r.1.1 = true
  ∧ Plan.steps r.1.2 = Plan.steps plan_abc
  ∧ Plan.updated_at r.1.2 = 1000.
Proof.
  destruct (update_step_without_changes plan_abc "b" w0
              (sample_step "b" 2 StepStatus.PENDING []))
    as (Hok & Hsteps & Hupd & _).
  - vm_compute. reflexivity.
  - cbv zeta. split_and!; [exact Hok|exact Hsteps|exact Hupd].
Defined.

(** * Further properties of the aggregate *)

(** ** get_progress: the counts *)

Lemma count_status_filter p st :
  Plan.count_status p st
  = Z.of_nat (length (filter (λ s, Step.status s = st) (Plan.steps p))).
Proof.
  unfold Plan.count_status.
  induction (Plan.steps p) as [|s l IH]; [done|]. simpl.
  rewrite filter_cons. case_bool_decide; destruct (decide _); try done.
  simpl length. lia.
Qed.

Lemma count_status_total p :
  Plan.count_status p StepStatus.COMPLETED
  + Plan.count_status p StepStatus.IN_PROGRESS
  + Plan.count_status p StepStatus.PENDING
  + Plan.count_status p StepStatus.FAILED
  + Plan.count_status p StepStatus.SKIPPED
  = Z.of_nat (length (Plan.steps p)).
Proof.
  unfold Plan.count_status.
  induction (Plan.steps p) as [|s l IH]; [done|].
  cbn [foldr length]. destruct (Step.status s);
    repeat case_bool_decide; try done; lia.
Qed.

Lemma count_status_range p st :
  0 ≤ Plan.count_status p st ≤ Z.of_nat (length (Plan.steps p)).
Proof.
  rewrite count_status_filter.
  pose proof (length_filter (λ s, Step.status s = st) (Plan.steps p)). lia.
Qed.

Lemma get_progress_nonempty p :
  Plan.steps p ≠ [] →
  Plan.get_progress p
  = Plan.mkProgress (Z.of_nat (length (Plan.steps p)))
      (Plan.count_status p StepStatus.COMPLETED)
      (Plan.count_status p StepStatus.IN_PROGRESS)
      (Plan.count_status p StepStatus.PENDING)
      (Plan.count_status p StepStatus.FAILED)
      (Plan.count_status p StepStatus.SKIPPED)
      (float_round
         (float_mul
            (int_true_divide (Plan.count_status p StepStatus.COMPLETED)
               (Z.of_nat (length (Plan.steps p))))
            (float_of_int 100)) 2).
Proof.
  intros Hne. unfold Plan.get_progress.
  assert (0 < Z.of_nat (length (Plan.steps p))).
  { destruct (Plan.steps p); [done|]. simpl length. lia. }
  rewrite bool_decide_eq_false_2 by lia.
  by rewrite bool_decide_eq_true_2 by lia.
Qed.

Lemma get_progress_empty p :
  Plan.steps p = [] →
  Plan.get_progress p = Plan.mkProgress 0 0 0 0 0 0 (S754_zero false).
Proof. intros Hnil. unfold Plan.get_progress. by rewrite Hnil. Qed.

(** X1: [get_progress] reports the number of steps as total, for each of
    the five statuses the number of steps that have it, and these five
    counts add up to the total; for a plan without steps every count is 0
    and the percentage is +0.0. *)
Theorem get_progress_counts (p : Plan.t) :
  let g := Plan.get_progress p in
  let count st :=
    Z.of_nat (length (filter (λ s, Step.status s = st) (Plan.steps p))) in
  Plan.total_steps g = Z.of_nat (length (Plan.steps p))
  ∧ Plan.completed_steps g = count StepStatus.COMPLETED
  ∧ Plan.in_progress_steps g = count StepStatus.IN_PROGRESS
  ∧ Plan.pending_steps g = count StepStatus.PENDING
  ∧ Plan.failed_steps g = count StepStatus.FAILED
  ∧ Plan.skipped_steps g = count StepStatus.SKIPPED
  ∧ Plan.completed_steps g + Plan.in_progress_steps g + Plan.pending_steps g
    + Plan.failed_steps g + Plan.skipped_steps g = Plan.total_steps g
  ∧ (Plan.steps p = [] →
     g = Plan.mkProgress 0 0 0 0 0 0 (S754_zero false)).
Proof.
  intros g count. subst g count.
  destruct (decide (Plan.steps p = [])) as [Hnil|Hne].
  - rewrite (get_progress_empty p Hnil), Hnil. simpl. done.
  - rewrite (get_progress_nonempty p Hne). simpl.
    rewrite <-!count_status_filter.
    split_and!; try done. apply count_status_total.
Qed.

Lemma get_progress_counts_witness :
  Plan.get_progress (sample_plan PlanStatus.NOT_STARTED [])
  = Plan.mkProgress 0 0 0 0 0 0 (S754_zero false).
Proof.
  apply (get_progress_counts (sample_plan PlanStatus.NOT_STARTED [])).
  reflexivity.
Defined.

(** ** add_step: the new step and the old ones *)

Lemma add_step_returns_id p description order depends_on notes w :
  (Plan.add_step p description order depends_on notes w).1.1
  = uuid_gen w (uuid_draws w).
Proof. by rewrite add_step_run. Qed.

Lemma reorder_subsequent_elem k step l x :
  x ∈ Plan.reorder_subsequent k step l →
  ∃ y, y ∈ l ∧ Step.step_id x = Step.step_id y
       ∧ (Step.step_id y = Step.step_id step → x = y).
Proof.
  unfold Plan.reorder_subsequent. intros (y & -> & Hy)%list_elem_of_fmap.
  exists y. split; [done|].
  case_bool_decide as Hid; simpl; [|done].
  destruct (bool_decide (Step.order y >= k)); simpl; done.
Qed.

Lemma reorder_subsequent_new_elem k step l :
  step ∈ l → step ∈ Plan.reorder_subsequent k step l.
Proof.
  intros Hin. unfold Plan.reorder_subsequent.
  apply list_elem_of_fmap. exists step. split; [|done].
  by rewrite (bool_decide_eq_false_2 (Step.step_id step ≠ Step.step_id step))
    by (intros H; by apply H).
Qed.

Lemma step_set_order_same s : Step.set_order (Step.order s) s = s.
Proof. by destruct s. Qed.

Lemma reorder_subsequent_fresh k step l :
  (∀ s, s ∈ l → Step.step_id s ≠ Step.step_id step) →
  Plan.reorder_subsequent k step l
  = (λ s, Step.set_order (bump k (Step.order s)) s) <$> l.
Proof.
  intros Hfresh. unfold Plan.reorder_subsequent.
  apply list_fmap_ext. intros i s Hs.
  rewrite (bool_decide_eq_true_2 (Step.step_id s ≠ Step.step_id step))
    by (apply Hfresh; by eapply list_elem_of_lookup_2).
  unfold bump. simpl. case_bool_decide; [done|].
  by rewrite step_set_order_same.
Qed.

Lemma filter_others_insert_step k step l :
  (∀ s, s ∈ l → Step.step_id s ≠ Step.step_id step) →
  filter (λ s, Step.step_id s ≠ Step.step_id step) (Plan.insert_step k step l)
  = l.
Proof.
  intros Hfresh.
  assert (filter (λ s, Step.step_id s ≠ Step.step_id step) l = l) as Hl
    by by apply filter_all_true.
  induction l as [|x l IH]; simpl.
  - rewrite filter_cons_False; [done|]. intros H; by apply H.
  - case_bool_decide.
    + rewrite filter_cons_False by (intros H'; by apply H'). exact Hl.
    + rewrite filter_cons_True by (apply Hfresh; by left).
      f_equal. apply IH.
      * intros s Hs. apply Hfresh. by right.
      * apply filter_all_true. intros s Hs. apply Hfresh. by right.
Qed.

Lemma filter_reorder_subsequent k step l :
  filter (λ s, Step.step_id s ≠ Step.step_id step)
    (Plan.reorder_subsequent k step l)
  = Plan.reorder_subsequent k step
      (filter (λ s, Step.step_id s ≠ Step.step_id step) l).
Proof.
  unfold Plan.reorder_subsequent.
  induction l as [|x l IH]; [done|].
  rewrite fmap_cons, !filter_cons.
  destruct (decide (Step.step_id x ≠ Step.step_id step)) as [Hx|Hx].
  - rewrite fmap_cons, (bool_decide_eq_true_2 _ Hx). simpl.
    destruct (bool_decide (Step.order x >= k)); simpl;
      rewrite decide_True by done; by rewrite IH.
  - rewrite (bool_decide_eq_false_2 _ Hx). simpl.
    by rewrite decide_False by done.
Qed.

(** X2: when the generated id is new to the plan, [add_step] returns that
    id and a lookup of it in the resulting plan finds the new step: with
    the description, dependencies and notes given, the requested order
    (or, none being requested, the number of steps plus one), status
    pending and no completed-at timestamp. *)
Theorem add_step_then_get_step (p : Plan.t) (description : string)
    (order : option Z) (depends_on : option (list string))
    (notes : option string) (w : World) :
  next_uuid_fresh w p →
  let r := Plan.add_step p description order depends_on notes w in
  r.1.1 = uuid_gen w (uuid_draws w)
  ∧ Plan.get_step r.1.2 r.1.1
    = Some (Step.mk r.1.1 (effective_order p order) description
              StepStatus.PENDING (default [] depends_on) notes
              (utc_clock w (utc_reads w)) (utc_clock w (S (utc_reads w)))
              None).
Proof.
  intros Hfresh r. subst r. rewrite add_step_returns_id. split; [done|].
  set (new := added_step w p description order depends_on notes).
  change (Plan.get_step
            (Plan.add_step p description order depends_on notes w).1.2
            (Step.step_id new) = Some new).
  unfold Plan.get_step, Plan.get_step_ref. rewrite add_step_steps. fold new.
  set (k := effective_order p order).
  assert (new ∈ Plan.reorder_subsequent k new
                    (Plan.insert_step k new (Plan.steps p))) as Hin.
  { apply reorder_subsequent_new_elem. rewrite insert_step_perm. by left. }
  destruct (list_find_elem_of (λ step, Step.step_id step = Step.step_id new)
              _ new Hin eq_refl) as [[i x] Hfind].
  rewrite Hfind. simpl. f_equal.
  apply list_find_Some in Hfind as (Hx%list_elem_of_lookup_2 & Hid & _).
  apply reorder_subsequent_elem in Hx as (y & Hy & Hxy & Heq).
  rewrite insert_step_perm in Hy.
  apply elem_of_cons in Hy as [->|Hy].
  - by apply Heq.
  - exfalso. apply (Hfresh y Hy). by rewrite <-Hxy, Hid.
Qed.

Lemma add_step_then_get_step_witness :
  Step.description <$>
    Plan.get_step (Plan.add_step plan_abc "new" (Some 2) None None w0).1.2
      "uuid-0"
  = Some "new".
Proof.
  destruct (add_step_then_get_step plan_abc "new" (Some 2) None None w0)
    as [Hid Hget].
  - intros s Hs. vm_compute in Hs.
    repeat (apply elem_of_cons in Hs as [->|Hs]); [done..|].
    by apply elem_of_nil in Hs.
  - rewrite Hid in Hget. change (uuid_gen w0 (uuid_draws w0)) with "uuid-0" in Hget.
    rewrite Hget. reflexivity.
Defined.

(** X3: when the generated id is new to the plan, [add_step] keeps every
    step that was there, in the same relative position and with every
    field but the order untouched: removing the new step from the result
    gives the old list with each order at or above the requested one
    raised by one. *)
Theorem add_step_keeps_old_steps (p : Plan.t) (description : string)
    (order : option Z) (depends_on : option (list string))
    (notes : option string) (w : World) :
  next_uuid_fresh w p →
  let r := Plan.add_step p description order depends_on notes w in
  filter (λ s, Step.step_id s ≠ r.1.1) (Plan.steps r.1.2)
  = (λ s, Step.set_order (bump (effective_order p order) (Step.order s)) s)
      <$> Plan.steps p.
Proof.
  intros Hfresh r. subst r.
  rewrite add_step_returns_id, add_step_steps.
  set (new := added_step w p description order depends_on notes).
  change (uuid_gen w (uuid_draws w)) with (Step.step_id new).
  rewrite filter_reorder_subsequent, filter_others_insert_step by done.
  by apply reorder_subsequent_fresh.
Qed.

Lemma add_step_keeps_old_steps_witness :
  (λ s, (Step.step_id s, Step.order s)) <$>
    filter (λ s, Step.step_id s ≠ "uuid-0")
      (Plan.steps (Plan.add_step plan_abc "new" (Some 2) None None w0).1.2)
  = [("a", 1); ("b", 3); ("c", 4)].
Proof.
  pose proof (add_step_keeps_old_steps plan_abc "new" (Some 2) None None w0)
    as Hkeep.
  cbv zeta in Hkeep. rewrite add_step_returns_id in Hkeep.
  change (uuid_gen w0 (uuid_draws w0)) with "uuid-0" in Hkeep.
  rewrite Hkeep.
  - vm_compute. reflexivity.
  - intros s Hs. vm_compute in Hs.
    repeat (apply elem_of_cons in Hs as [->|Hs]); [done..|].
    by apply elem_of_nil in Hs.
Defined.

(** X4: when the order given to the new step (requested, or by default
    the number of steps plus one) is above the order of every step of the
    plan, [add_step] appends: the resulting list is the old list, with no
    step changed, followed by the new step. *)
Theorem add_step_appends (p : Plan.t) (description : string)
    (order : option Z) (depends_on : option (list string))
    (notes : option string) (w : World) :
  (∀ s, s ∈ Plan.steps p → Step.order s < effective_order p order) →
  Plan.steps (Plan.add_step p description order depends_on notes w).1.2
  = Plan.steps p ++ [added_step w p description order depends_on notes].
Proof.
  intros Hbelow. rewrite add_step_steps.
  rewrite insert_step_append
    by (intros s Hs; specialize (Hbelow s Hs); lia).
  apply reorder_subsequent_below.
  intros s [Hs| ->%list_elem_of_singleton]%elem_of_app; [left|right]; auto.
Qed.

Lemma add_step_appends_witness :
  Step.step_id <$>
    Plan.steps (Plan.add_step plan_abc "new" None None None w0).1.2
  = ["a"; "b"; "c"; "uuid-0"].
Proof.
  rewrite (add_step_appends plan_abc "new" None None None w0).
  - vm_compute. reflexivity.
  - intros s Hs. vm_compute in Hs.
    repeat (apply elem_of_cons in Hs as [->|Hs]); [vm_compute; done..|].
    by apply elem_of_nil in Hs.
Defined.

(** ** delete_step: what goes and what stays *)

Lemma delete_step_steps p step_id w s :
  Plan.get_step p step_id = Some s →
  Plan.steps (Plan.delete_step p step_id w).1.2
  = imap (λ i step_item, Step.set_order (Z.of_nat i + 1) step_item)
      (sorted_by_order
         (filter (λ s, Step.step_id s ≠ step_id) (Plan.steps p))).
Proof.
  intros Hs. rewrite (delete_step_run_found _ _ _ _ Hs). simpl.
  by rewrite steps_update_plan_status.
Qed.

Lemma renumber_forget_order (l : list Step.t) :
  Step.set_order 0 <$>
    imap (λ i step_item, Step.set_order (Z.of_nat i + 1) step_item) l
  = Step.set_order 0 <$> l.
Proof.
  rewrite fmap_imap, <-(imap_const (Step.set_order 0)).
  by apply imap_ext.
Qed.

Lemma renumber_step_ids (l : list Step.t) :
  Step.step_id <$>
    imap (λ i step_item, Step.set_order (Z.of_nat i + 1) step_item) l
  = Step.step_id <$> l.
Proof.
  rewrite fmap_imap, <-(imap_const Step.step_id).
  by apply imap_ext.
Qed.

Lemma get_step_after_delete p step_id w s :
  Plan.get_step p step_id = Some s →
  Plan.get_step (Plan.delete_step p step_id w).1.2 step_id = None.
Proof.
  intros Hs. apply get_step_None. intros x Hx.
  rewrite (delete_step_steps _ _ _ _ Hs) in Hx.
  assert (Step.step_id x ∈ Step.step_id <$>
            filter (λ s, Step.step_id s ≠ step_id) (Plan.steps p)) as Hin.
  { rewrite <-(sorted_by_order_perm (filter _ _)), <-renumber_step_ids.
    by apply list_elem_of_fmap_2. }
  apply list_elem_of_fmap in Hin as (y & -> & Hy).
  by apply list_elem_of_filter in Hy as [? _].
Qed.

(** X5: after a successful [delete_step] a lookup of the deleted id finds
    nothing (every step carrying the id is gone), and the steps that
    remain are exactly the steps with another id, each with all its
    fields but the order as before. *)
Theorem delete_step_removes_id (p : Plan.t) (step_id : string) (w : World) :
  (Plan.delete_step p step_id w).1.1 = true →
  let p' := (Plan.delete_step p step_id w).1.2 in
  Plan.get_step p' step_id = None
  ∧ Step.set_order 0 <$> Plan.steps p'
    ≡ₚ Step.set_order 0 <$>
         filter (λ s, Step.step_id s ≠ step_id) (Plan.steps p).
Proof.
  intros Hok p'. subst p'.
  apply delete_step_success in Hok as [s Hs].
  split.
  - by eapply get_step_after_delete.
  - rewrite (delete_step_steps _ _ _ _ Hs).
    by rewrite renumber_forget_order, sorted_by_order_perm.
Qed.

Lemma delete_step_removes_id_witness :
  Plan.get_step (Plan.delete_step plan_abc "b" w0).1.2 "b" = None.
Proof.
  apply (delete_step_removes_id plan_abc "b" w0).
  vm_compute. reflexivity.
Defined.

Lemma sorted_by_order_id l :
  StronglySorted order_le l → sorted_by_order l = l.
Proof.
  induction 1 as [|x l Hl IH Hx]; simpl; [done|].
  rewrite IH. destruct l as [|y l']; simpl; [done|].
  rewrite bool_decide_eq_true_2; [done|].
  apply Forall_cons in Hx as [Hxy _]. exact Hxy.
Qed.

Lemma orders_seqZ_sorted (l : list Step.t) m :
  Step.order <$> l = seqZ m (Z.of_nat (length l)) →
  StronglySorted order_le l.
Proof.
  revert m. induction l as [|x l IH]; intros m Hl; [constructor|].
  simpl length in Hl. rewrite Nat2Z.inj_succ, seqZ_cons in Hl by lia.
  rewrite Z.pred_succ, fmap_cons in Hl. injection Hl as Hx Hl.
  constructor; [by eapply IH|].
  apply Forall_forall. intros y Hy.
  assert (Step.order y ∈ seqZ (Z.succ m) (Z.of_nat (length l))) as Hin
    by (rewrite <-Hl; by apply list_elem_of_fmap_2).
  apply elem_of_seqZ in Hin. unfold order_le. lia.
Qed.

Lemma StronglySorted_filter {A} (R : relation A) (P : A → Prop)
    `{!∀ x, Decision (P x)} l :
  StronglySorted R l → StronglySorted R (filter P l).
Proof.
  induction 1 as [|x l Hl IH Hx]; [constructor|].
  rewrite filter_cons. destruct (decide (P x)); [|done].
  constructor; [done|].
  apply Forall_forall. intros y [_ Hy]%list_elem_of_filter.
  by eapply Forall_forall in Hx.
Qed.

(** X6: in a plan whose steps are listed with the orders 1, 2, ..., N and
    have pairwise different ids, deleting a step keeps the list order of
    the others, leaves the orders below the deleted step's as they are
    and lowers each order above it by one. *)
Theorem delete_step_shifts_down (p : Plan.t) (step_id : string) (w : World)
    (d : Step.t) :
  Step.order <$> Plan.steps p = seqZ 1 (Z.of_nat (length (Plan.steps p))) →
  NoDup (Step.step_id <$> Plan.steps p) →
  Plan.get_step p step_id = Some d →
  Plan.steps (Plan.delete_step p step_id w).1.2
  = (λ s, Step.set_order
            (if bool_decide (Step.order s < Step.order d)
             then Step.order s else Step.order s - 1) s)
      <$> filter (λ s, Step.step_id s ≠ step_id) (Plan.steps p).
Proof.
  intros Horders Hnodup Hd.
  rewrite (delete_step_steps _ _ _ _ Hd).
  rewrite sorted_by_order_id
    by (apply StronglySorted_filter; by eapply orders_seqZ_sorted).
  unfold Plan.get_step, Plan.get_step_ref in Hd.
  apply fmap_Some in Hd as ([i d'] & Hfind & ->). simpl in *.
  apply list_find_Some in Hfind as (Hi & Hid & _).
  pose proof (take_drop_middle _ _ _ Hi) as Hsplit.
  set (l1 := take i (Plan.steps p)) in *.
  set (l2 := drop (S i) (Plan.steps p)) in *.
  assert (length l1 = i) as Hlen1.
  { subst l1. rewrite length_take. apply lookup_lt_Some in Hi. lia. }
  rewrite <-Hsplit in Horders, Hnodup |- *.
  rewrite fmap_app, fmap_cons in Hnodup.
  apply NoDup_app in Hnodup as (_ & Hl1 & Hl2%NoDup_cons).
  destruct Hl2 as [Hl2 _].
  assert (∀ s, s ∈ l1 → Step.step_id s ≠ step_id) as Hne1.
  { intros s Hs Heq. apply (Hl1 (Step.step_id s)).
    - by apply list_elem_of_fmap_2.
    - rewrite Heq, <-Hid. by left. }
  assert (∀ s, s ∈ l2 → Step.step_id s ≠ step_id) as Hne2.
  { intros s Hs Heq. apply Hl2. rewrite Hid, <-Heq.
    by apply list_elem_of_fmap_2. }
  rewrite filter_app, filter_cons_False by (intros H; by apply H).
  rewrite !filter_all_true by done.
  rewrite length_app in Horders. simpl length in Horders.
  rewrite fmap_app, fmap_cons in Horders.
  replace (Z.of_nat (length l1 + S (length l2)))
    with (Z.of_nat (length l1) + (1 + Z.of_nat (length l2))) in Horders by lia.
  rewrite seqZ_app, (seqZ_cons (1 + _)) in Horders by lia.
  apply app_inj_1 in Horders as [Ho1 Ho2];
    [|by rewrite length_fmap, length_seqZ, Nat2Z.id].
  injection Ho2 as Hod Ho2.
  replace (Z.pred (1 + Z.of_nat (length l2))) with (Z.of_nat (length l2))
    in Ho2 by lia.
  apply list_eq. intros j.
  rewrite list_lookup_imap, list_lookup_fmap.
  destruct ((l1 ++ l2) !! j) as [s|] eqn:Hj; simpl; [|done].
  f_equal. f_equal.
  apply lookup_app_Some in Hj as [Hj|[Hge Hj]].
  - assert (Step.order s = 1 + Z.of_nat j) as Hos.
    { assert ((Step.order <$> l1) !! j = Some (Step.order s)) as Hl
        by by rewrite list_lookup_fmap, Hj.
      rewrite Ho1 in Hl. apply lookup_seqZ in Hl. lia. }
    apply lookup_lt_Some in Hj.
    rewrite bool_decide_eq_true_2; lia.
  - assert (Step.order s
            = Z.succ (1 + Z.of_nat (length l1)) + Z.of_nat (j - length l1))
      as Hos.
    { assert ((Step.order <$> l2) !! (j - length l1)%nat
              = Some (Step.order s)) as Hl
        by by rewrite list_lookup_fmap, Hj.
      rewrite Ho2 in Hl. apply lookup_seqZ in Hl. lia. }
    rewrite bool_decide_eq_false_2; lia.
Qed.

Lemma delete_step_shifts_down_witness :
  (λ s, (Step.step_id s, Step.order s)) <$>
    Plan.steps (Plan.delete_step plan_abc "a" w0).1.2
  = [("b", 1); ("c", 2)].
Proof.
  rewrite (delete_step_shifts_down plan_abc "a" w0
             (sample_step "a" 1 StepStatus.PENDING [])).
  - vm_compute. reflexivity.
  - vm_compute. reflexivity.
  - vm_compute. repeat constructor; rewrite ?elem_of_cons, ?elem_of_nil;
      intros H; repeat destruct H as [H|H]; done.
  - vm_compute. reflexivity.
Defined.

(** ** update_step: the updated step and the others *)

Lemma list_find_insert_found {A} (P : A → Prop) `{!∀ x, Decision (P x)}
    (l : list A) i z x :
  list_find P l = Some (i, z) → P x →
  list_find P (<[i := x]> l) = Some (i, x).
Proof.
  intros (Hi & _ & Hleast)%list_find_Some Hx.
  apply list_find_Some. split_and!; [|done|].
  - apply list_lookup_insert_eq. by eapply lookup_lt_Some.
  - intros j y Hj Hlt. rewrite list_lookup_insert_ne in Hj by lia.
    by eapply Hleast.
Qed.

Lemma list_find_insert_other {A} (P : A → Prop) `{!∀ x, Decision (P x)}
    (l : list A) i z x :
  l !! i = Some z → ¬ P z → ¬ P x →
  list_find P (<[i := x]> l) = list_find P l.
Proof.
  intros Hi Hz Hx.
  destruct (list_find P l) as [[j y]|] eqn:Hfind.
  - apply list_find_Some in Hfind as (Hj & Hy & Hleast).
    assert (j ≠ i) by (intros ->; congruence).
    apply list_find_Some. split_and!; [|done|].
    + by rewrite list_lookup_insert_ne.
    + intros k y' Hk Hlt. destruct (decide (k = i)) as [->|Hne].
      * rewrite list_lookup_insert_eq in Hk by (by eapply lookup_lt_Some).
        by injection Hk as <-.
      * rewrite list_lookup_insert_ne in Hk by done. by eapply Hleast.
  - apply list_find_None in Hfind. apply list_find_None.
    by apply Forall_insert.
Qed.

Lemma update_step_result p step_id status notes w i s :
  Plan.get_step_ref p step_id = Some (i, s) →
  (Plan.update_step p step_id status notes w).1.1 = true
  ∧ Plan.steps (Plan.update_step p step_id status notes w).1.2
    = <[i := updated_step w s status notes]> (Plan.steps p).
Proof.
  intros Href. rewrite (update_step_run_found _ _ _ _ _ _ _ Href).
  cbv zeta. simpl. rewrite steps_update_plan_status. simpl.
  split; [done|]. f_equal.
  destruct status as [st|]; [|by destruct notes].
  rewrite update_status_run. by destruct notes.
Qed.

Lemma updated_step_id w s status notes :
  Step.step_id (updated_step w s status notes) = Step.step_id s.
Proof. by destruct status, notes. Qed.

(** X7: a successful [update_step] returns true, and a lookup of the id
    in the resulting plan finds the step with the status set (when one is
    given), the notes replaced (when given), the last-updated timestamp
    refreshed (when either is given) and the completed-at timestamp set
    to the clock exactly when the status given is completed; id, order,
    description, dependencies and creation time are as before, the list
    has the same length, and the step at every other position is
    untouched. *)
Theorem update_step_then_get_step (p : Plan.t) (step_id : string)
    (status : option StepStatus.t) (notes : option string) (w : World)
    (i : nat) (s : Step.t) :
  Plan.get_step_ref p step_id = Some (i, s) →
  let r := Plan.update_step p step_id status notes w in
  r.1.1 = true
  ∧ Plan.get_step r.1.2 step_id = Some (updated_step w s status notes)
  ∧ length (Plan.steps r.1.2) = length (Plan.steps p)
  ∧ ∀ j, j ≠ i → Plan.steps r.1.2 !! j = Plan.steps p !! j.
Proof.
  intros Href r. subst r.
  destruct (update_step_result p step_id status notes w i s Href)
    as [Hok Hsteps].
  split_and!; [done|..].
  - unfold Plan.get_step, Plan.get_step_ref. rewrite Hsteps.
    erewrite list_find_insert_found; [done|exact Href|].
    rewrite updated_step_id.
    by apply list_find_Some in Href as (_ & ? & _).
  - by rewrite Hsteps, length_insert.
  - intros j Hne. by rewrite Hsteps, list_lookup_insert_ne.
Qed.

Lemma update_step_then_get_step_witness :
  let r := Plan.update_step plan_abc "b" (Some StepStatus.COMPLETED)
             (Some "done") w0 in
  (λ s, (Step.status s, Step.notes s, Step.completed_at s)) <$>
    Plan.get_step r.1.2 "b"
  = Some (StepStatus.COMPLETED, Some "done", Some 1001).
Proof.
  destruct (update_step_then_get_step plan_abc "b"
              (Some StepStatus.COMPLETED) (Some "done") w0 1%nat
              (sample_step "b" 2 StepStatus.PENDING []))
    as (_ & Hget & _).
  - vm_compute. reflexivity.
  - cbv zeta. rewrite Hget. vm_compute. reflexivity.
Defined.

(** ** How the operations act on the next-step selection *)

Lemma get_step_after_update_other p step_id status notes w i s d :
  Plan.get_step_ref p step_id = Some (i, s) → d ≠ step_id →
  Plan.get_step (Plan.update_step p step_id status notes w).1.2 d
  = Plan.get_step p d.
Proof.
  intros Href Hd.
  destruct (update_step_result p step_id status notes w i s Href)
    as [_ Hsteps].
  unfold Plan.get_step, Plan.get_step_ref. rewrite Hsteps.
  apply list_find_Some in Href as (Hi & Hid & _).
  erewrite list_find_insert_other; [done|exact Hi|..].
  - congruence.
  - rewrite updated_step_id. congruence.
Qed.

(** X8: completing a step unlocks its dependents.  After a successful
    [update_step] with status completed, every pending step with another
    id whose dependencies each either name the completed step or already
    resolved to a completed step is eligible, and [get_next_step] returns
    a step, of order no greater than that step's. *)
Theorem completing_a_step_unlocks (p : Plan.t) (step_id : string)
    (notes : option string) (w : World) (i : nat) (a s : Step.t) :
  Plan.get_step_ref p step_id = Some (i, a) →
  s ∈ Plan.steps p →
  Step.step_id s ≠ step_id →
  Step.status s = StepStatus.PENDING →
  (∀ d, d ∈ Step.depends_on s → d = step_id ∨ resolves_to_completed p d) →
  let p' := (Plan.update_step p step_id (Some StepStatus.COMPLETED)
               notes w).1.2 in
  s ∈ Plan.steps p'
  ∧ eligible p' s
  ∧ ∃ n, Plan.get_next_step p' = Some n ∧ Step.order n ≤ Step.order s.
Proof.
  intros Href Hs Hne Hpending Hdeps p'. subst p'.
  set (st := Some StepStatus.COMPLETED).
  destruct (update_step_result p step_id st notes w i a Href) as [_ Hsteps].
  assert (s ∈ Plan.steps (Plan.update_step p step_id st notes w).1.2) as Hin.
  { apply list_elem_of_lookup in Hs as [j Hj].
    apply list_elem_of_lookup. exists j.
    rewrite Hsteps, list_lookup_insert_ne; [done|].
    intros ->. apply list_find_Some in Href as (Hi & Hid & _). congruence. }
  assert (eligible (Plan.update_step p step_id st notes w).1.2 s) as He.
  { split; [done|]. intros d Hd.
    destruct (decide (d = step_id)) as [->|Hd'].
    - apply resolves_to_completed_get_step.
      exists (updated_step w a st notes).
      assert (Plan.get_step (Plan.update_step p step_id st notes w).1.2
                step_id = Some (updated_step w a st notes)) as Hget.
      { unfold Plan.get_step, Plan.get_step_ref. rewrite Hsteps.
        erewrite list_find_insert_found; [done|exact Href|].
        rewrite updated_step_id.
        by apply list_find_Some in Href as (_ & ? & _). }
      destruct (get_step_Some _ _ _ Hget) as [? ?]. done.
    - destruct (Hdeps d Hd) as [->|Hres]; [done|].
      destruct (proj1 (resolves_to_completed_get_step _ _) Hres)
        as (t & Ht & _ & Hid & Hst).
      apply resolves_to_completed_get_step. exists t.
      assert (Plan.get_step (Plan.update_step p step_id st notes w).1.2 d
              = Some t) as Hget
        by by rewrite (get_step_after_update_other _ _ _ _ _ _ _ _ Href).
      destruct (get_step_Some _ _ _ Hget) as [? ?]. done. }
  split_and!; [done..|]. by apply get_next_step_of_eligible.
Qed.

Lemma completing_a_step_unlocks_witness :
  let p := sample_plan PlanStatus.NOT_STARTED
             [sample_step "a" 1 StepStatus.PENDING ["z"];
              sample_step "z" 2 StepStatus.IN_PROGRESS []] in
  ∃ n, Plan.get_next_step
         (Plan.update_step p "z" (Some StepStatus.COMPLETED) None w0).1.2
       = Some n
       ∧ Step.order n ≤ 1.
Proof.
  intros p.
  refine (proj2 (proj2 (completing_a_step_unlocks p "z" None w0 1%nat
            (sample_step "z" 2 StepStatus.IN_PROGRESS [])
            (sample_step "a" 1 StepStatus.PENDING ["z"]) _ _ _ _ _))).
  - vm_compute. reflexivity.
  - left.
  - vm_compute. discriminate.
  - reflexivity.
  - intros d Hd. left. vm_compute in Hd.
    apply elem_of_cons in Hd as [->|Hd]; [done|]. by apply elem_of_nil in Hd.
Defined.

(** X9: deleting a step blocks its dependents.  After a successful
    [delete_step], no step whose dependencies include the deleted id is
    eligible, and [get_next_step] never returns such a step. *)
Theorem deleting_a_step_blocks_dependents (p : Plan.t) (step_id : string)
    (w : World) :
  (Plan.delete_step p step_id w).1.1 = true →
  let p' := (Plan.delete_step p step_id w).1.2 in
  ∀ s, step_id ∈ Step.depends_on s →
       ¬ eligible p' s ∧ Plan.get_next_step p' ≠ Some s.
Proof.
  intros Hok p' s Hdep. subst p'.
  apply delete_step_success in Hok as [d Hd].
  pose proof (get_step_after_delete p step_id w d Hd) as Hnone.
  assert (¬ eligible (Plan.delete_step p step_id w).1.2 s) as Hne.
  { intros [_ Hdeps].
    destruct (proj1 (resolves_to_completed_get_step _ _) (Hdeps _ Hdep))
      as (t & Ht & _).
    congruence. }
  split; [done|]. intros Hnext.
  by apply get_next_step_is_eligible in Hnext as [_ ?].
Qed.

Lemma deleting_a_step_blocks_dependents_witness :
  let p := sample_plan PlanStatus.IN_PROGRESS
             [sample_step "a" 1 StepStatus.COMPLETED [];
              sample_step "b" 2 StepStatus.PENDING ["a"]] in
  Plan.get_next_step (Plan.delete_step p "a" w0).1.2 = None.
Proof.
  intros p.
  destruct (Plan.get_next_step (Plan.delete_step p "a" w0).1.2)
    as [n|] eqn:Hnext; [exfalso|reflexivity].
  assert (n ∈ Plan.steps (Plan.delete_step p "a" w0).1.2) as Hin
    by (by apply get_next_step_is_eligible in Hnext as [? _]).
  refine (proj2 (deleting_a_step_blocks_dependents p "a" w0 _ n _) Hnext).
  - vm_compute. reflexivity.
  - vm_compute in Hin. clear Hnext.
    apply elem_of_cons in Hin as [->|Hin].
    + vm_compute. left.
    + by apply elem_of_nil in Hin.
Defined.

Lemma reset_steps_elem p w s' :
  s' ∈ Plan.steps (Plan.reset_steps p w).1 →
  ∃ s, s ∈ Plan.steps p
       ∧ Step.status s' = StepStatus.PENDING
       ∧ Step.depends_on s' = Step.depends_on s
       ∧ Step.order s' = Step.order s
       ∧ Step.step_id s' = Step.step_id s.
Proof.
  intros (i & Hi)%list_elem_of_lookup.
  rewrite reset_steps_lookup in Hi.
  apply fmap_Some in Hi as (s & Hs & ->).
  exists s. split; [by eapply list_elem_of_lookup_2|done].
Qed.

Lemma eligible_after_reset p w s' :
  s' ∈ Plan.steps (Plan.reset_steps p w).1 →
  eligible (Plan.reset_steps p w).1 s' ↔ Step.depends_on s' = [].
Proof.
  intros Hs'. split.
  - intros [_ Hdeps]. destruct (Step.depends_on s') as [|d ds]; [done|].
    destruct (proj1 (resolves_to_completed_get_step _ _)
                (Hdeps d ltac:(by left))) as (t & _ & Ht & _ & Hst).
    apply reset_steps_elem in Ht as (_ & _ & Hpending & _). congruence.
  - intros Hnil. split.
    + by apply reset_steps_elem in Hs' as (_ & _ & ? & _).
    + intros d Hd. rewrite Hnil in Hd. by apply elem_of_nil in Hd.
Qed.

(** X10: right after [reset_steps] the next step is the lowest-order step
    without dependencies: whatever [get_next_step] returns has an empty
    dependency list and no step without dependencies has a lower order;
    it returns nothing exactly when every step has a dependency, so a
    reset plan in which each step depends on something has no next step. *)
Theorem next_step_after_reset (p : Plan.t) (w : World) :
  let p' := (Plan.reset_steps p w).1 in
  (∀ s, Plan.get_next_step p' = Some s →
        s ∈ Plan.steps p'
        ∧ Step.depends_on s = []
        ∧ ∀ s', s' ∈ Plan.steps p' → Step.depends_on s' = [] →
                Step.order s ≤ Step.order s')
  ∧ (Plan.get_next_step p' = None ↔
     ∀ s, s ∈ Plan.steps p → Step.depends_on s ≠ []).
Proof.
  intros p'. subst p'. split.
  - intros s Hnext.
    destruct (get_next_step_is_eligible _ _ Hnext) as [Hin He].
    split_and!; [done|by apply (eligible_after_reset p w s Hin)|].
    intros s' Hs' Hnil.
    destruct (get_next_step_of_eligible _ s' Hs') as (n & Hn & Hle).
    { by apply eligible_after_reset. }
    congruence.
  - split.
    + intros Hnone s Hs Hnil.
      apply list_elem_of_lookup in Hs as [i Hi].
      assert (reset_step (utc_clock w (utc_reads w + i)%nat) s
              ∈ Plan.steps (Plan.reset_steps p w).1) as Hin.
      { apply list_elem_of_lookup. exists i.
        by rewrite reset_steps_lookup, Hi. }
      destruct (get_next_step_of_eligible _ _ Hin) as (n & Hn & _).
      { by apply eligible_after_reset. }
      congruence.
    + intros Hall.
      destruct (Plan.get_next_step (Plan.reset_steps p w).1) as [n|] eqn:Hn;
        [exfalso|done].
      destruct (get_next_step_is_eligible _ _ Hn) as [Hin He].
      apply eligible_after_reset in He; [|done].
      apply reset_steps_elem in Hin as (s & Hs & _ & Hdeps & _).
      apply (Hall s Hs). congruence.
Qed.

Lemma next_step_after_reset_witness :
  Step.step_id <$> Plan.get_next_step (Plan.reset_steps plan_deps w0).1
  = Some "a".
Proof.
  destruct (Plan.get_next_step (Plan.reset_steps plan_deps w0).1)
    as [n|] eqn:Hnext.
  - destruct (proj1 (next_step_after_reset plan_deps w0) n Hnext)
      as (Hin & Hdeps & _).
    vm_compute in Hin.
    repeat (apply elem_of_cons in Hin as [->|Hin]); try done.
    by apply elem_of_nil in Hin.
  - exfalso.
    apply (proj1 (proj2 (next_step_after_reset plan_deps w0)) Hnext
             (sample_step "a" 1 StepStatus.COMPLETED [])).
    + left.
    + reflexivity.
Defined.

(** ** What the derived status means *)

Lemma derived_status_spec_meaning (sts : list StepStatus.t) :
  (derived_status_spec sts = PlanStatus.COMPLETED ↔
   sts ≠ [] ∧ Forall (λ x, x = StepStatus.COMPLETED) sts)
  ∧ (derived_status_spec sts = PlanStatus.FAILED ↔ StepStatus.FAILED ∈ sts)
  ∧ (derived_status_spec sts = PlanStatus.NOT_STARTED ↔
     Forall (λ x, x = StepStatus.PENDING ∨ x = StepStatus.SKIPPED) sts)
  ∧ (derived_status_spec sts = PlanStatus.IN_PROGRESS ↔
     (StepStatus.IN_PROGRESS ∈ sts ∨ StepStatus.COMPLETED ∈ sts)
     ∧ ¬ Forall (λ x, x = StepStatus.COMPLETED) sts
     ∧ StepStatus.FAILED ∉ sts).
Proof.
  unfold derived_status_spec.
  destruct (decide (sts = [])) as [->|Hne].
  { split_and!; (split; [intros H|intros H]); try done.
    - by destruct H as [? _].
    - by apply elem_of_nil in H.
    - destruct H as ([H|H] & _); by apply elem_of_nil in H. }
  destruct (decide (Forall (λ x, x = StepStatus.COMPLETED) sts)) as [Hc|Hc].
  { split_and!; (split; [intros H|intros H]); try done.
    - exfalso. by eapply Forall_forall in Hc; [|exact H].
    - exfalso. destruct sts as [|x sts]; [done|].
      apply Forall_cons in Hc as [-> _]. apply Forall_cons in H as [[?|?] _];
        done.
    - exfalso. by destruct H as (_ & ? & _). }
  destruct (decide (StepStatus.FAILED ∈ sts)) as [Hf|Hf].
  { split_and!; (split; [intros H|intros H]); try done.
    - exfalso. by destruct H as [_ ?].
    - exfalso. eapply Forall_forall in H; [|exact Hf]. by destruct H.
    - exfalso. by destruct H as (_ & _ & ?). }
  destruct (decide (StepStatus.IN_PROGRESS ∈ sts ∨ StepStatus.COMPLETED ∈ sts))
    as [Hi|Hi].
  { split_and!; (split; [intros H|intros H]); try done.
    - exfalso. by destruct H as [_ ?].
    - exfalso. destruct Hi as [Hi|Hi];
        (eapply Forall_forall in H; [|exact Hi]); by destruct H. }
  split_and!; (split; [intros H|intros H]); try done.
  - exfalso. by destruct H as [_ ?].
  - apply Forall_forall. intros x Hx.
    destruct x; auto; exfalso; auto.
  - exfalso. by destruct H as (? & _).
Qed.

(** X11: the status that [_update_plan_status] assigns is completed
    exactly when the plan has steps and all are completed, failed exactly
    when some step is failed (and not every step is completed, which a
    failed step excludes), not_started exactly when every step is pending
    or skipped (in particular when there is none), and in_progress in the
    remaining case; so a single skipped or pending step keeps a plan from
    being completed, and a plan of skipped steps only is not_started. *)
Theorem derived_status_meaning (p : Plan.t) :
  let st := Plan.status (Plan._update_plan_status p) in
  (st = PlanStatus.COMPLETED ↔
   Plan.steps p ≠ []
   ∧ ∀ s, s ∈ Plan.steps p → Step.status s = StepStatus.COMPLETED)
  ∧ (st = PlanStatus.FAILED ↔
     ∃ s, s ∈ Plan.steps p ∧ Step.status s = StepStatus.FAILED)
  ∧ (st = PlanStatus.NOT_STARTED ↔
     ∀ s, s ∈ Plan.steps p →
          Step.status s = StepStatus.PENDING
          ∨ Step.status s = StepStatus.SKIPPED)
  ∧ (st = PlanStatus.IN_PROGRESS ↔
     (∃ s, s ∈ Plan.steps p
           ∧ (Step.status s = StepStatus.IN_PROGRESS
              ∨ Step.status s = StepStatus.COMPLETED))
     ∧ (∃ s, s ∈ Plan.steps p ∧ Step.status s ≠ StepStatus.COMPLETED)
     ∧ ∀ s, s ∈ Plan.steps p → Step.status s ≠ StepStatus.FAILED).
Proof.
  intros st. subst st. rewrite update_plan_status_spec.
  set (l := Plan.steps p).
  destruct (derived_status_spec_meaning (Step.status <$> l))
    as (Hc & Hf & Hn & Hi).
  assert (∀ x, x ∈ Step.status <$> l ↔ ∃ s, s ∈ l ∧ Step.status s = x)
    as Hmem.
  { intros x. rewrite list_elem_of_fmap. split.
    - intros (s & -> & Hs). eauto.
    - intros (s & Hs & <-). eauto. }
  assert (Forall (λ x, x = StepStatus.COMPLETED) (Step.status <$> l)
          ↔ ∀ s, s ∈ l → Step.status s = StepStatus.COMPLETED) as Hall.
  { by rewrite Forall_fmap, Forall_forall. }
  assert (Step.status <$> l ≠ [] ↔ l ≠ []) as Hnil.
  { split; intros H Heq; apply H; [by rewrite Heq|by eapply fmap_nil_inv]. }
  split_and!.
  - by rewrite Hc, Hnil, Hall.
  - by rewrite Hf, Hmem.
  - by rewrite Hn, Forall_fmap, Forall_forall.
  - rewrite Hi, !Hmem, Hall. split.
    + intros (Hex & Hnot & Hnf). split_and!.
      * destruct Hex as [(s & ? & ?)|(s & ? & ?)]; exists s; auto.
      * rewrite <-Hall in Hnot.
        apply not_Forall_Exists in Hnot; [|apply _].
        apply Exists_exists in Hnot as (x & (s & -> & Hs)%list_elem_of_fmap & Hx).
        by exists s.
      * intros s Hs Hst. apply Hnf. eauto.
    + intros ((s & Hs & Hst) & (s' & Hs' & Hne) & Hnf). split_and!.
      * destruct Hst; [left|right]; eauto.
      * intros Hforall. by apply Hne, Hforall.
      * intros (s'' & Hs'' & Hf''). by eapply Hnf.
Qed.

Lemma derived_status_meaning_witness :
  Plan.status (Plan._update_plan_status
                 (sample_plan PlanStatus.COMPLETED
                    [sample_step "a" 1 StepStatus.SKIPPED []]))
  = PlanStatus.NOT_STARTED.
Proof.
  apply (derived_status_meaning
           (sample_plan PlanStatus.COMPLETED
              [sample_step "a" 1 StepStatus.SKIPPED []])).
  intros s Hs. apply elem_of_cons in Hs as [->|Hs].
  - right. reflexivity.
  - by apply elem_of_nil in Hs.
Defined.

(** * The services *)

(** ** The loop that adds the requested steps *)

Lemma reorder_subsequent_summary k step l :
  step_summary <$> Plan.reorder_subsequent k step l = step_summary <$> l.
Proof.
  unfold Plan.reorder_subsequent. rewrite <-list_fmap_compose.
  apply list_fmap_ext. intros i s _. simpl. by case_match.
Qed.

Lemma add_step_summary p description order depends_on notes w :
  step_summary <$>
    Plan.steps (Plan.add_step p description order depends_on notes w).1.2
  ≡ₚ (step_summary <$> Plan.steps p)
     ++ [(description, default [] depends_on, notes, StepStatus.PENDING,
          None)].
Proof.
  rewrite add_step_steps, reorder_subsequent_summary, insert_step_perm.
  rewrite fmap_cons. unfold step_summary at 1. simpl.
  by rewrite Permutation_cons_append.
Qed.

Lemma add_step_plan_fields p description order depends_on notes w :
  let p' := (Plan.add_step p description order depends_on notes w).1.2 in
  Plan.plan_id p' = Plan.plan_id p
  ∧ Plan.name p' = Plan.name p
  ∧ Plan.description p' = Plan.description p
  ∧ Plan.user_id p' = Plan.user_id p
  ∧ Plan.created_at p' = Plan.created_at p.
Proof.
  rewrite add_step_run. cbv zeta. simpl.
  unfold Plan._update_plan_status. simpl.
  repeat case_match; done.
Qed.

Lemma add_step_world p description order depends_on notes w :
  let w' := (Plan.add_step p description order depends_on notes w).2 in
  utc_clock w' = utc_clock w ∧ uuid_gen w' = uuid_gen w
  ∧ utc_reads w' = (utc_reads w + 3)%nat
  ∧ uuid_draws w' = (uuid_draws w + 1)%nat.
Proof. rewrite add_step_run. cbv zeta. simpl. split_and!; [done..|lia|lia]. Qed.

Lemma add_step_status p description order depends_on notes w :
  Plan.status (Plan.add_step p description order depends_on notes w).1.2
  = derived_status_spec
      (Step.status <$>
         Plan.steps (Plan.add_step p description order depends_on notes w).1.2).
Proof. rewrite add_step_run. cbv zeta. simpl. apply status_after_recompute. Qed.

Lemma add_request_steps_cons i step_request rest plan w :
  add_request_steps i (step_request :: rest) plan w
  = add_request_steps (S i) rest
      (Plan.add_step plan (CreateStepRequest.description step_request)
         (Some (default (Z.of_nat i + 1)
                  (CreateStepRequest.order step_request)))
         (CreateStepRequest.depends_on step_request)
         (CreateStepRequest.notes step_request) w).1.2
      (Plan.add_step plan (CreateStepRequest.description step_request)
         (Some (default (Z.of_nat i + 1)
                  (CreateStepRequest.order step_request)))
         (CreateStepRequest.depends_on step_request)
         (CreateStepRequest.notes step_request) w).2.
Proof.
  cbn [add_request_steps]. unfold mbind, M_bind.
  replace (match CreateStepRequest.order step_request with
           | Some o => o
           | None => Z.of_nat i + 1
           end)
    with (default (Z.of_nat i + 1) (CreateStepRequest.order step_request))
    by (by destruct (CreateStepRequest.order step_request)).
  by destruct (Plan.add_step plan _ _ _ _ w) as [[? ?] ?].
Qed.

Lemma add_request_steps_summary steps : ∀ i plan w,
  step_summary <$> Plan.steps (add_request_steps i steps plan w).1
  ≡ₚ (step_summary <$> Plan.steps plan) ++ (request_summary <$> steps).
Proof.
  induction steps as [|r rest IH]; intros i plan w.
  - simpl. by rewrite app_nil_r.
  - rewrite add_request_steps_cons, IH, add_step_summary.
    by rewrite <-app_assoc.
Qed.

Lemma add_request_steps_plan_fields steps : ∀ i plan w,
  let p' := (add_request_steps i steps plan w).1 in
  Plan.plan_id p' = Plan.plan_id plan
  ∧ Plan.name p' = Plan.name plan
  ∧ Plan.description p' = Plan.description plan
  ∧ Plan.user_id p' = Plan.user_id plan
  ∧ Plan.created_at p' = Plan.created_at plan.
Proof.
  induction steps as [|r rest IH]; intros i plan w; [done|].
  cbv zeta. rewrite add_request_steps_cons.
  destruct (IH (S i)
              (Plan.add_step plan (CreateStepRequest.description r)
                 (Some (default (Z.of_nat i + 1) (CreateStepRequest.order r)))
                 (CreateStepRequest.depends_on r)
                 (CreateStepRequest.notes r) w).1.2
              (Plan.add_step plan (CreateStepRequest.description r)
                 (Some (default (Z.of_nat i + 1) (CreateStepRequest.order r)))
                 (CreateStepRequest.depends_on r)
                 (CreateStepRequest.notes r) w).2)
    as (-> & -> & -> & -> & ->).
  apply add_step_plan_fields.
Qed.

Lemma add_request_steps_status steps : ∀ i plan w,
  steps ≠ [] →
  Plan.status (add_request_steps i steps plan w).1
  = derived_status_spec
      (Step.status <$> Plan.steps (add_request_steps i steps plan w).1).
Proof.
  induction steps as [|r rest IH]; intros i plan w Hne; [done|].
  rewrite add_request_steps_cons.
  destruct rest as [|r' rest']; [|by apply IH].
  cbn [add_request_steps]. unfold mret, M_ret. cbn [fst snd].
  apply add_step_status.
Qed.

Lemma summary_all_pending (l : list Step.t) (reqs : list CreateStepRequest.t) :
  step_summary <$> l ≡ₚ request_summary <$> reqs →
  length l = length reqs
  ∧ ∀ s, s ∈ l → Step.status s = StepStatus.PENDING
                 ∧ Step.completed_at s = None.
Proof.
  intros Hperm. split.
  - apply Permutation_length in Hperm. by rewrite !length_fmap in Hperm.
  - intros s Hs.
    assert (step_summary s ∈ request_summary <$> reqs) as Hin
      by (rewrite <-Hperm; by apply list_elem_of_fmap_2).
    apply list_elem_of_fmap in Hin as (r & Heq & _).
    unfold step_summary, request_summary in Heq. by simplify_eq.
Qed.

Lemma derived_status_all_pending (l : list Step.t) :
  (∀ s, s ∈ l → Step.status s = StepStatus.PENDING) →
  derived_status_spec (Step.status <$> l) = PlanStatus.NOT_STARTED.
Proof.
  intros Hall. apply derived_status_spec_meaning.
  rewrite Forall_fmap. apply Forall_forall. intros s Hs. left.
  by apply Hall.
Qed.

Lemma add_step_steps_append p description order depends_on notes w :
  (∀ s, s ∈ Plan.steps p → Step.order s < effective_order p order) →
  Plan.steps (Plan.add_step p description order depends_on notes w).1.2
  = Plan.steps p ++ [added_step w p description order depends_on notes].
Proof.
  intros Hbelow. rewrite add_step_steps, insert_step_append.
  - apply reorder_subsequent_below.
    intros s [Hs| ->%list_elem_of_singleton]%elem_of_app; auto.
  - intros s Hs. specialize (Hbelow s Hs). lia.
Qed.

Lemma add_request_steps_in_sequence steps : ∀ i plan w,
  (∀ s, s ∈ Plan.steps plan → Step.order s ≤ Z.of_nat i) →
  (∀ j r, steps !! j = Some r →
          CreateStepRequest.order r = None
          ∨ CreateStepRequest.order r = Some (Z.of_nat (i + j) + 1)) →
  step_view <$> Plan.steps (add_request_steps i steps plan w).1
  = (step_view <$> Plan.steps plan)
    ++ imap (λ j r, (uuid_gen w (uuid_draws w + j)%nat,
                     Z.of_nat (i + j) + 1, request_summary r)) steps.
Proof.
  induction steps as [|r rest IH]; intros i plan w Hle Hseq.
  - simpl. by rewrite app_nil_r.
  - rewrite add_request_steps_cons.
    assert (default (Z.of_nat i + 1) (CreateStepRequest.order r)
            = Z.of_nat i + 1) as ->.
    { destruct (Hseq 0%nat r eq_refl) as [->| ->]; simpl; [done|].
      by rewrite Nat.add_0_r. }
    set (res := Plan.add_step plan (CreateStepRequest.description r)
                  (Some (Z.of_nat i + 1)) (CreateStepRequest.depends_on r)
                  (CreateStepRequest.notes r) w).
    assert (Plan.steps res.1.2
            = Plan.steps plan
              ++ [added_step w plan (CreateStepRequest.description r)
                    (Some (Z.of_nat i + 1)) (CreateStepRequest.depends_on r)
                    (CreateStepRequest.notes r)]) as Hsteps.
    { apply add_step_steps_append. intros s Hs. simpl.
      specialize (Hle s Hs). lia. }
    destruct (add_step_world plan (CreateStepRequest.description r)
                (Some (Z.of_nat i + 1)) (CreateStepRequest.depends_on r)
                (CreateStepRequest.notes r) w) as (_ & Hgen & _ & Hdraws).
    fold res in Hgen, Hdraws.
    rewrite IH.
    + rewrite Hsteps, fmap_app, <-app_assoc. f_equal. simpl.
      rewrite !Nat.add_0_r. f_equal.
      apply imap_ext. intros j x _. simpl.
      by rewrite !Nat.add_succ_r.
    + rewrite Hsteps. intros s [Hs| ->%list_elem_of_singleton]%elem_of_app.
      * specialize (Hle s Hs). lia.
      * simpl. lia.
    + intros j x Hj. destruct (Hseq (S j) x Hj) as [?|Hx]; [by left|right].
      rewrite Hx. f_equal. lia.
Qed.

(** ** create_plan_with_steps *)

Lemma create_plan_with_steps_run `{Gateway} name description user_id steps
    db w :
  PlanningService.create_plan_with_steps name description user_id steps db w
  = let built := add_request_steps 0 steps
                   (Plan.new name description user_id w).1
                   (Plan.new name description user_id w).2 in
    (after_gateway_call (db_create_plan built.1 db).1 built.1,
     (db_create_plan built.1 db).2, built.2).
Proof.
  unfold PlanningService.create_plan_with_steps, mbind, Svc_bind, aggregate,
    gateway, mret, Svc_ret. simpl.
  by destruct (db_create_plan _ db) as [[?|?] ?].
Qed.

(** X12: [create_plan_with_steps] builds a plan with the given name,
    description and user, a generated id, one step per request carrying
    the request's description, dependencies (none if omitted) and notes,
    every step pending and without completed-at timestamp, and status
    not_started; it hands exactly this plan to the gateway's create and
    returns it, unless the gateway raises, in which case the exception
    goes through. *)
Theorem create_plan_one_step_per_request `{Gateway}
    (name description user_id : string) (steps : list CreateStepRequest.t)
    (db : DB) (w : World) :
  ∃ plan w',
    PlanningService.create_plan_with_steps name description user_id steps db w
    = (after_gateway_call (db_create_plan plan db).1 plan,
       (db_create_plan plan db).2, w')
    ∧ Plan.plan_id plan = uuid_gen w (uuid_draws w)
    ∧ Plan.name plan = name
    ∧ Plan.description plan = description
    ∧ Plan.user_id plan = user_id
    ∧ Plan.status plan = PlanStatus.NOT_STARTED
    ∧ length (Plan.steps plan) = length steps
    ∧ step_summary <$> Plan.steps plan ≡ₚ request_summary <$> steps.
Proof.
  rewrite create_plan_with_steps_run. cbv zeta.
  set (p0 := (Plan.new name description user_id w).1).
  set (w1 := (Plan.new name description user_id w).2).
  exists (add_request_steps 0 steps p0 w1).1, (add_request_steps 0 steps p0 w1).2.
  destruct (add_request_steps_plan_fields steps 0 p0 w1)
    as (Hid & Hname & Hdesc & Huser & _).
  pose proof (add_request_steps_summary steps 0 p0 w1) as Hsum.
  change (Plan.steps p0) with (@nil Step.t) in Hsum. simpl in Hsum.
  destruct (summary_all_pending _ _ Hsum) as [Hlen Hpending].
  split_and!; try done.
  destruct (decide (steps = [])) as [->|Hne]; [done|].
  rewrite add_request_steps_status by done.
  apply derived_status_all_pending. intros s Hs. by apply Hpending.
Qed.

(** X13: when each request asks for no order or for the order of its
    position (1 for the first, 2 for the second, ...),
    [create_plan_with_steps] builds the steps in the order of the
    requests with the orders 1, 2, ..., N and the ids generated in
    sequence after the plan's id. *)
Theorem create_plan_in_request_order `{Gateway}
    (name description user_id : string) (steps : list CreateStepRequest.t)
    (db : DB) (w : World) :
  orders_in_sequence steps →
  ∃ plan w',
    PlanningService.create_plan_with_steps name description user_id steps db w
    = (after_gateway_call (db_create_plan plan db).1 plan,
       (db_create_plan plan db).2, w')
    ∧ step_view <$> Plan.steps plan
      = imap (λ i r, (uuid_gen w (uuid_draws w + 1 + i)%nat,
                      Z.of_nat i + 1, request_summary r)) steps.
Proof.
  intros Hseq. rewrite create_plan_with_steps_run. cbv zeta.
  set (p0 := (Plan.new name description user_id w).1).
  set (w1 := (Plan.new name description user_id w).2).
  exists (add_request_steps 0 steps p0 w1).1, (add_request_steps 0 steps p0 w1).2.
  split; [done|].
  rewrite add_request_steps_in_sequence.
  - simpl. apply imap_ext. intros i r _. simpl.
    do 3 f_equal. lia.
  - intros s Hs. by apply elem_of_nil in Hs.
  - intros j r Hj. apply (Hseq j r Hj).
Qed.

Lemma create_plan_in_request_order_witness :
  ∃ plan w',
    PlanningService.create_plan_with_steps (H := store_of_one)
      "trip" "plan a trip" "user-1" sample_requests None w0
    = (after_gateway_call
         (db_create_plan (Gateway := store_of_one) plan None).1 plan,
       (db_create_plan (Gateway := store_of_one) plan None).2, w')
    ∧ step_view <$> Plan.steps plan
      = imap (λ i r, (uuid_gen w0 (uuid_draws w0 + 1 + i)%nat,
                      Z.of_nat i + 1, request_summary r)) sample_requests.
Proof.
  apply (create_plan_in_request_order (H := store_of_one)).
  intros i r Hi. destruct i as [|[|i]]; simpl in Hi; simplify_eq; auto.
Defined.

(** ** regenerate_plan *)

Lemma regenerate_plan_run `{Gateway} plan_id new_description new_steps db w :
  PlanningService.regenerate_plan plan_id new_description new_steps db w
  = match (db_get_plan plan_id db).1 with
    | Raised e => (Raised e, (db_get_plan plan_id db).2, w)
    | Return None => (Return None, (db_get_plan plan_id db).2, w)
    | Return (Some old) =>
        let built :=
          add_request_steps 0 new_steps
            (Plan.set_steps []
               (Plan.set_updated_at (utc_clock w (utc_reads w))
                  (match new_description with
                   | Some d => Plan.set_description d old
                   | None => old
                   end)))
            (mkWorld (utc_clock w) (S (utc_reads w)) (uuid_gen w)
               (uuid_draws w)) in
        let plan := Plan.set_status PlanStatus.NOT_STARTED built.1 in
        (after_gateway_call
           (db_update_plan plan (db_get_plan plan_id db).2).1 (Some plan),
         (db_update_plan plan (db_get_plan plan_id db).2).2, built.2)
    end.
Proof.
  unfold PlanningService.regenerate_plan, mbind, Svc_bind, aggregate,
    gateway, mret, Svc_ret.
  destruct (db_get_plan plan_id db) as [[[old|]|e] db1]; simpl; try done.
  by destruct (db_update_plan _ db1) as [[?|?] ?].
Qed.

(** X14: [regenerate_plan] returns None, without any further gateway
    call, when the gateway finds no plan.  For a plan that is found it
    discards the old steps and builds one pending step per request,
    keeps the plan's id, name, user and creation time, replaces the
    description only if one is given, and forces the status to
    not_started whatever it was; it hands this plan to the gateway's
    update and returns it whatever the update returns (an exception of
    the gateway goes through). *)
Theorem regenerate_plan_replaces_steps `{Gateway} (plan_id : string)
    (new_description : option string) (new_steps : list CreateStepRequest.t)
    (db : DB) (w : World) :
  match (db_get_plan plan_id db).1 with
  | Raised e =>
      PlanningService.regenerate_plan plan_id new_description new_steps db w
      = (Raised e, (db_get_plan plan_id db).2, w)
  | Return None =>
      PlanningService.regenerate_plan plan_id new_description new_steps db w
      = (Return None, (db_get_plan plan_id db).2, w)
  | Return (Some old) =>
      ∃ plan w',
        PlanningService.regenerate_plan plan_id new_description new_steps db w
        = (after_gateway_call
             (db_update_plan plan (db_get_plan plan_id db).2).1 (Some plan),
           (db_update_plan plan (db_get_plan plan_id db).2).2, w')
        ∧ Plan.plan_id plan = Plan.plan_id old
        ∧ Plan.name plan = Plan.name old
        ∧ Plan.user_id plan = Plan.user_id old
        ∧ Plan.created_at plan = Plan.created_at old
        ∧ Plan.description plan = default (Plan.description old) new_description
        ∧ Plan.status plan = PlanStatus.NOT_STARTED
        ∧ length (Plan.steps plan) = length new_steps
        ∧ step_summary <$> Plan.steps plan ≡ₚ request_summary <$> new_steps
  end.
Proof.
  rewrite regenerate_plan_run.
  destruct (db_get_plan plan_id db) as [[[old|]|e] db1]; simpl; try done.
  set (base := Plan.set_steps [] _).
  set (w1 := mkWorld _ _ _ _).
  exists (Plan.set_status PlanStatus.NOT_STARTED
            (add_request_steps 0 new_steps base w1).1),
    (add_request_steps 0 new_steps base w1).2.
  destruct (add_request_steps_plan_fields new_steps 0 base w1)
    as (Hid & Hname & Hdesc & Huser & Hcreated).
  pose proof (add_request_steps_summary new_steps 0 base w1) as Hsum.
  change (Plan.steps base) with (@nil Step.t) in Hsum. simpl in Hsum.
  destruct (summary_all_pending _ _ Hsum) as [Hlen _].
  simpl. split_and!; try done.
  - rewrite Hid. by destruct new_description.
  - rewrite Hname. by destruct new_description.
  - rewrite Huser. by destruct new_description.
  - rewrite Hcreated. by destruct new_description.
  - rewrite Hdesc. by destruct new_description.
Qed.

(** ** The step services *)

Lemma update_step_status_run `{Gateway} plan_id step_id status notes db w :
  ExecutionService.update_step_status plan_id step_id status notes db w
  = match (db_get_plan plan_id db).1 with
    | Raised e => (Raised e, (db_get_plan plan_id db).2, w)
    | Return None => (Return false, (db_get_plan plan_id db).2, w)
    | Return (Some plan) =>
        let r := Plan.update_step plan step_id status notes w in
        if r.1.1
        then (after_gateway_call
                (db_update_plan r.1.2 (db_get_plan plan_id db).2).1 true,
              (db_update_plan r.1.2 (db_get_plan plan_id db).2).2, r.2)
        else (Return false, (db_get_plan plan_id db).2, r.2)
    end.
Proof.
  unfold ExecutionService.update_step_status, mbind, Svc_bind, aggregate,
    gateway, mret, Svc_ret.
  destruct (db_get_plan plan_id db) as [[[plan|]|e] db1]; simpl; try done.
  destruct (Plan.update_step plan step_id status notes w) as [[[|] p'] w'];
    simpl; [|done].
  by destruct (db_update_plan p' db1) as [[?|?] ?].
Qed.

Lemma delete_step_from_plan_run `{Gateway} plan_id step_id db w :
  ManagementServiceCalls.delete_step_from_plan plan_id step_id db w
  = match (db_get_plan plan_id db).1 with
    | Raised e => (Raised e, (db_get_plan plan_id db).2, w)
    | Return None => (Return false, (db_get_plan plan_id db).2, w)
    | Return (Some plan) =>
        let r := Plan.delete_step plan step_id w in
        if r.1.1
        then (after_gateway_call
                (db_update_plan r.1.2 (db_get_plan plan_id db).2).1 true,
              (db_update_plan r.1.2 (db_get_plan plan_id db).2).2, r.2)
        else (Return false, (db_get_plan plan_id db).2, r.2)
    end.
Proof.
  unfold ManagementServiceCalls.delete_step_from_plan, mbind, Svc_bind,
    aggregate, gateway, mret, Svc_ret.
  destruct (db_get_plan plan_id db) as [[[plan|]|e] db1]; simpl; try done.
  destruct (Plan.delete_step plan step_id w) as [[[|] p'] w'];
    simpl; [|done].
  by destruct (db_update_plan p' db1) as [[?|?] ?].
Qed.

(** X15: [update_step_status] and [delete_step_from_plan] call the
    gateway's update only when the step operation succeeded.  When the
    gateway finds no plan, or finds a plan that has no step with the
    given id, they return False having made no gateway call but the
    read, and without reading the clock; when the step exists they hand
    the changed plan to the gateway's update and return True whatever
    the update returns. *)
Theorem step_services_write_only_on_success `{Gateway}
    (plan_id step_id : string) (status : option StepStatus.t)
    (notes : option string) (db : DB) (w : World) :
  let got := db_get_plan plan_id db in
  (got.1 = Return None →
   ExecutionService.update_step_status plan_id step_id status notes db w
   = (Return false, got.2, w)
   ∧ ManagementServiceCalls.delete_step_from_plan plan_id step_id db w
     = (Return false, got.2, w))
  ∧ (∀ plan, got.1 = Return (Some plan) →
       Plan.get_step plan step_id = None →
       ExecutionService.update_step_status plan_id step_id status notes db w
       = (Return false, got.2, w)
       ∧ ManagementServiceCalls.delete_step_from_plan plan_id step_id db w
         = (Return false, got.2, w))
  ∧ (∀ plan s, got.1 = Return (Some plan) →
       Plan.get_step plan step_id = Some s →
       let u := Plan.update_step plan step_id status notes w in
       let d := Plan.delete_step plan step_id w in
       ExecutionService.update_step_status plan_id step_id status notes db w
       = (after_gateway_call (db_update_plan u.1.2 got.2).1 true,
          (db_update_plan u.1.2 got.2).2, u.2)
       ∧ ManagementServiceCalls.delete_step_from_plan plan_id step_id db w
         = (after_gateway_call (db_update_plan d.1.2 got.2).1 true,
            (db_update_plan d.1.2 got.2).2, d.2)).
Proof.
  intros got. subst got.
  rewrite update_step_status_run, delete_step_from_plan_run.
  split_and!.
  - intros ->. done.
  - intros plan -> Hnone. cbv zeta.
    rewrite (delete_step_run_missing _ _ _ Hnone).
    rewrite update_step_run_missing; [done|].
    unfold Plan.get_step in Hnone. by apply fmap_None in Hnone.
  - intros plan s -> Hs. cbv zeta.
    rewrite (proj2 (update_step_success plan step_id status notes w))
      by by eexists.
    by rewrite (proj2 (delete_step_success plan step_id w)) by by eexists.
Qed.

Lemma step_services_write_only_on_success_witness :
  ExecutionService.update_step_status (H := store_of_one)
    "plan-1" "zzz" (Some StepStatus.COMPLETED) None (Some plan_abc) w0
  = (Return false, Some plan_abc, w0).
Proof.
  refine (proj1 (proj1 (proj2 (step_services_write_only_on_success
            (H := store_of_one) "plan-1" "zzz" (Some StepStatus.COMPLETED)
            None (Some plan_abc) w0)) plan_abc _ _)).
  - vm_compute. reflexivity.
  - vm_compute. reflexivity.
Defined.

Lemma skip_step_run `{Gateway} plan_id step_id db w :
  ExecutionService.skip_step plan_id step_id db w
  = ExecutionService.update_step_status plan_id step_id
      (Some StepStatus.SKIPPED) None db w.
Proof. reflexivity. Qed.

Lemma get_step_after_update p step_id status notes w i s :
  Plan.get_step_ref p step_id = Some (i, s) →
  Plan.get_step (Plan.update_step p step_id status notes w).1.2 step_id
  = Some (updated_step w s status notes).
Proof.
  intros Href.
  destruct (update_step_result p step_id status notes w i s Href)
    as [_ Hsteps].
  unfold Plan.get_step, Plan.get_step_ref. rewrite Hsteps.
  erewrite list_find_insert_found; [done|exact Href|].
  rewrite updated_step_id. by apply list_find_Some in Href as (_ & ? & _).
Qed.

Lemma update_step_status_derived p step_id status notes w i s :
  Plan.get_step_ref p step_id = Some (i, s) →
  Plan.status (Plan.update_step p step_id status notes w).1.2
  = derived_status_spec
      (Step.status <$>
         Plan.steps (Plan.update_step p step_id status notes w).1.2).
Proof.
  intros Href. rewrite (update_step_run_found _ _ _ _ _ _ _ Href).
  cbv zeta. simpl. apply status_after_recompute.
Qed.

(** X16: [skip_step], for a plan that the gateway finds and a step that
    the plan has, hands to the gateway's update a plan in which that step
    has status skipped, a refreshed last-updated timestamp and everything
    else, completed-at included, as before.  That plan is not completed
    (a skipped step counts as not done), and the skipped step is not its
    next step. *)
Theorem skip_step_marks_skipped `{Gateway} (plan_id step_id : string)
    (db : DB) (w : World) (plan : Plan.t) (i : nat) (s : Step.t) :
  (db_get_plan plan_id db).1 = Return (Some plan) →
  Plan.get_step_ref plan step_id = Some (i, s) →
  let skipped :=
    Step.mk (Step.step_id s) (Step.order s) (Step.description s)
      StepStatus.SKIPPED (Step.depends_on s) (Step.notes s)
      (Step.created_at s) (utc_clock w (utc_reads w)) (Step.completed_at s) in
  ∃ p' w',
    ExecutionService.skip_step plan_id step_id db w
    = (after_gateway_call
         (db_update_plan p' (db_get_plan plan_id db).2).1 true,
       (db_update_plan p' (db_get_plan plan_id db).2).2, w')
    ∧ Plan.get_step p' step_id = Some skipped
    ∧ Plan.status p' ≠ PlanStatus.COMPLETED
    ∧ Plan.get_next_step p' ≠ Some skipped.
Proof.
  intros Hgot Href skipped.
  set (st := Some StepStatus.SKIPPED).
  exists (Plan.update_step plan step_id st None w).1.2,
    (Plan.update_step plan step_id st None w).2.
  pose proof (get_step_after_update plan step_id st None w i s Href) as Hget.
  change (updated_step w s st None) with skipped in Hget.
  split_and!.
  - rewrite skip_step_run, update_step_status_run, Hgot. cbv zeta.
    fold st.
    by rewrite (proj1 (update_step_result plan step_id st None w i s Href)).
  - exact Hget.
  - rewrite (update_step_status_derived _ _ _ _ _ _ _ Href).
    intros [_ Hall]%derived_status_spec_meaning.
    apply get_step_Some in Hget as [Hin _].
    rewrite Forall_fmap, Forall_forall in Hall.
    by specialize (Hall skipped Hin).
  - intros [_ [Hpending _]]%get_next_step_is_eligible. done.
Qed.

Lemma skip_step_marks_skipped_witness :
  ∃ p' w',
    ExecutionService.skip_step (H := store_of_one) "plan-1" "b"
      (Some plan_abc) w0
    = (after_gateway_call
         (db_update_plan (Gateway := store_of_one) p' (Some plan_abc)).1 true,
       (db_update_plan (Gateway := store_of_one) p' (Some plan_abc)).2, w')
    ∧ Step.status <$> Plan.get_step p' "b" = Some StepStatus.SKIPPED
    ∧ Plan.status p' ≠ PlanStatus.COMPLETED.
Proof.
  destruct (skip_step_marks_skipped (H := store_of_one) "plan-1" "b"
              (Some plan_abc) w0 plan_abc 1%nat
              (sample_step "b" 2 StepStatus.PENDING []))
    as (p' & w' & Hrun & Hget & Hst & _).
  - vm_compute. reflexivity.
  - vm_compute. reflexivity.
  - exists p', w'. split_and!; [exact Hrun| |exact Hst].
    rewrite Hget. reflexivity.
Defined.

(** ** A status set by hand does not last *)

Lemma update_plan_status_ignores_status st p :
  Plan.status (Plan._update_plan_status (Plan.set_status st p))
  = Plan.status (Plan._update_plan_status p).
Proof. by rewrite !update_plan_status_spec. Qed.

(** X17: the status a plan has before a step operation has no influence
    on the status it has after it: [add_step], a successful [update_step]
    and a successful [delete_step] give the same resulting status
    whatever status the plan carried.  A status stored by
    [update_plan_metadata], which stores the given status as it is and
    leaves the steps alone, is therefore replaced at the next such
    operation. *)
Theorem manual_status_does_not_last (p : Plan.t) (st : PlanStatus.t) :
  (∀ name description w,
     let m := (ManagementService.update_plan_metadata p name description
                 (Some st) w).1 in
     Plan.status m = st ∧ Plan.steps m = Plan.steps p)
  ∧ (∀ description order depends_on notes w,
       Plan.status
         (Plan.add_step (Plan.set_status st p) description order depends_on
            notes w).1.2
       = Plan.status (Plan.add_step p description order depends_on notes w).1.2)
  ∧ (∀ step_id status notes w,
       (Plan.update_step p step_id status notes w).1.1 = true →
       Plan.status
         (Plan.update_step (Plan.set_status st p) step_id status notes w).1.2
       = Plan.status (Plan.update_step p step_id status notes w).1.2)
  ∧ (∀ step_id w,
       (Plan.delete_step p step_id w).1.1 = true →
       Plan.status (Plan.delete_step (Plan.set_status st p) step_id w).1.2
       = Plan.status (Plan.delete_step p step_id w).1.2).
Proof.
  split_and!.
  - intros name description w. by destruct name, description.
  - intros description order depends_on notes w.
    rewrite !add_step_run. cbv zeta. simpl.
    by rewrite !update_plan_status_spec.
  - intros step_id status notes w Hok.
    apply update_step_success, get_step_ref_is_Some in Hok as [[i s] Href].
    assert (Plan.get_step_ref (Plan.set_status st p) step_id = Some (i, s))
      as Href' by done.
    rewrite (update_step_run_found _ _ _ _ _ _ _ Href).
    rewrite (update_step_run_found _ _ _ _ _ _ _ Href').
    cbv zeta. simpl. by rewrite !update_plan_status_spec.
  - intros step_id w Hok.
    apply delete_step_success in Hok as [s Hs].
    assert (Plan.get_step (Plan.set_status st p) step_id = Some s)
      as Hs' by done.
    rewrite (delete_step_run_found _ _ _ _ Hs).
    rewrite (delete_step_run_found _ _ _ _ Hs').
    simpl. by rewrite !update_plan_status_spec.
Qed.

Lemma manual_status_does_not_last_witness :
  Plan.status
    (Plan.update_step (Plan.set_status PlanStatus.PAUSED plan_abc) "a"
       (Some StepStatus.IN_PROGRESS) None w0).1.2
  = Plan.status
      (Plan.update_step plan_abc "a" (Some StepStatus.IN_PROGRESS) None w0).1.2.
Proof.
  apply (proj1 (proj2 (proj2
           (manual_status_does_not_last plan_abc PlanStatus.PAUSED)))).
  vm_compute. reflexivity.
Defined.

(** * Listing plans *)

Lemma contains_iff a b :
  contains a b = true ↔ ∃ pre post, b = (pre +:+ a +:+ post)%string.
Proof.
  assert (∀ a b, String.prefix a b = true ↔ ∃ post, b = (a +:+ post)%string)
    as Hprefix.
  { clear. induction a as [|c a IH]; intros [|d b]; simpl.
    - split; [by exists ""|done].
    - split; [by eexists|done].
    - split; [done|]. intros [post Hpost]. done.
    - destruct (Ascii.ascii_dec c d) as [->|Hne].
      + rewrite IH. split; intros [post Hpost]; exists post; simpl in *;
          [by rewrite Hpost|by injection Hpost].
      + split; [done|]. intros [post Hpost]. simpl in Hpost.
        injection Hpost as Hcd _. by destruct Hne. }
  revert a. induction b as [|d b IH]; intros a; cbn [contains].
  - rewrite orb_false_r, Hprefix. split.
    + intros [post Hpost]. by exists "", post.
    + intros (pre & post & Hb). destruct pre; [|done]. by exists post.
  - rewrite orb_true_iff, Hprefix, IH. split.
    + intros [[post Hpost]|(pre & post & Hb)].
      * by exists "", post.
      * exists (String d pre), post. simpl. by rewrite Hb.
    + intros (pre & post & Hb). destruct pre as [|c pre].
      * left. by exists post.
      * right. simpl in Hb. injection Hb as -> Hb. by exists pre, post.
Qed.

Lemma select_plans_filter lower docs user_id status name_filter :
  DatabaseConnection.select_plans lower docs user_id status name_filter
  = selected_plans lower docs user_id status name_filter.
Proof.
  unfold selected_plans, readable_plans.
  induction docs as [|[doc_id parsed] rest IH]; [done|].
  cbn -[String.prefix].
  destruct parsed as [[plan aware]|];
    [|by destruct (String.prefix "_design" doc_id)].
  destruct (String.prefix "_design" doc_id); [done|].
  rewrite filter_cons, <-IH. cbn [plan_of].
  destruct (decide (passes_filters lower user_id status name_filter plan))
    as [Hp|Hp].
  - destruct Hp as (Hu & Hs & Hn).
    destruct user_id as [u|], status as [st|], name_filter as [n|];
      repeat match goal with
        | H : _ ∨ _ |- _ => destruct H
        | H : True |- _ => clear H
        end; subst;
      repeat (rewrite ?bool_decide_eq_true_2 by done; simpl;
              rewrite ?andb_false_r; simpl);
      try done;
      repeat match goal with
        | H : contains _ _ = true |- _ => rewrite H; clear H
        end;
      rewrite ?andb_false_r; simpl; try done;
      repeat (case_bool_decide; simpl; try done).
  - unfold passes_filters in Hp.
    destruct user_id as [u|], status as [st|], name_filter as [n|];
      repeat (case_bool_decide; simpl; try done);
      try (destruct (contains _ _) eqn:?; simpl; try done);
      exfalso; apply Hp; subst; auto.
Qed.

Lemma same_awareness_perm l1 l2 :
  l1 ≡ₚ l2 → same_awareness l1 → same_awareness l2.
Proof.
  intros Hperm Hsame a b Ha Hb. apply Hsame; by rewrite Hperm.
Qed.

Lemma same_awareness_cons p l :
  same_awareness (p :: l) ↔
  same_awareness l
  ∧ Forall (λ x, created_at_aware x = created_at_aware p) l.
Proof.
  split.
  - intros Hsame. split.
    + intros a b Ha Hb. apply Hsame; by right.
    + apply Forall_forall. intros x Hx. apply Hsame; [by right|by left].
  - intros [Hsame Hp] a b Ha Hb. rewrite Forall_forall in Hp.
    apply elem_of_cons in Ha as [->|Ha], Hb as [->|Hb].
    + done.
    + symmetry. by apply Hp.
    + by apply Hp.
    + by apply Hsame.
Qed.

(** Inserting into a sorted list of plans of the same kind. *)
Lemma insert_newest_first_Return p l :
  StronglySorted newer_or_same l →
  Forall (λ x, created_at_aware x = created_at_aware p) l →
  ∃ r, insert_newest_first p l = Return r
       ∧ r ≡ₚ p :: l
       ∧ StronglySorted newer_or_same r
       ∧ ∀ t, filter (λ x, Plan.created_at (plan_of x) = t) r
              = filter (λ x, Plan.created_at (plan_of x) = t) (p :: l).
Proof.
  induction 1 as [|x l Hl IH Hx]; intros Hkind.
  - exists [p]. split_and!; [done|done|repeat constructor|done].
  - apply Forall_cons in Hkind as [Hxp Hkind].
    cbn [insert_newest_first]. unfold created_at_lt.
    rewrite bool_decide_eq_true_2 by done.
    case_bool_decide as Hpx.
    + destruct (IH Hkind) as (r & -> & Hperm & Hsorted & Hstable).
      exists (x :: r). split_and!.
      * done.
      * rewrite Hperm. apply Permutation_swap.
      * constructor; [done|]. rewrite Hperm. constructor; [|done].
        unfold newer_or_same. lia.
      * intros t. rewrite !filter_cons, Hstable, !filter_cons.
        destruct (decide (Plan.created_at (plan_of x) = t)) as [Hxt|Hxt];
          [|done].
        destruct (decide (Plan.created_at (plan_of p) = t)) as [Hpt|Hpt];
          [lia|done].
    + exists (p :: x :: l). split_and!; [done|done| |done].
      constructor; [by constructor|].
      constructor; [unfold newer_or_same; lia|].
      eapply Forall_impl; [exact Hx|]. unfold newer_or_same. intros; lia.
Qed.

(** Inserting a plan of the other kind: the first comparison raises. *)
Lemma insert_newest_first_Raised p l :
  same_awareness l →
  ¬ Forall (λ x, created_at_aware x = created_at_aware p) l →
  insert_newest_first p l = Raised NaiveAwareComparison.
Proof.
  intros Hsame Hkind. destruct l as [|x l].
  { by destruct Hkind. }
  cbn [insert_newest_first]. unfold created_at_lt.
  rewrite bool_decide_eq_false_2; [done|].
  intros Hpx. apply Hkind, Forall_forall. intros y Hy.
  rewrite Hpx. apply Hsame; [done|by left].
Qed.

Lemma sorted_newest_first_spec l :
  (sorted_newest_first l = Raised NaiveAwareComparison
   ∧ ¬ same_awareness l)
  ∨ ∃ r, sorted_newest_first l = Return r
         ∧ same_awareness l
         ∧ r ≡ₚ l
         ∧ StronglySorted newer_or_same r
         ∧ ∀ t, filter (λ x, Plan.created_at (plan_of x) = t) r
                = filter (λ x, Plan.created_at (plan_of x) = t) l.
Proof.
  induction l as [|p l IH].
  - right. exists []. split_and!; [done| |done|constructor|done].
    intros a b Ha. by apply elem_of_nil in Ha.
  - cbn [sorted_newest_first].
    destruct IH as [[-> Hmixed]|(r & -> & Hsame & Hperm & Hsorted & Hstable)].
    + left. split; [done|]. intros Hsame. apply Hmixed.
      by apply same_awareness_cons in Hsame as [? _].
    + destruct (decide (Forall (λ x, created_at_aware x = created_at_aware p)
                          l)) as [Hkind|Hkind].
      * right.
        destruct (insert_newest_first_Return p r Hsorted)
          as (r' & -> & Hperm' & Hsorted' & Hstable').
        { by rewrite Hperm. }
        exists r'. split_and!; [done| | |done|].
        -- by apply same_awareness_cons.
        -- by rewrite Hperm', Hperm.
        -- intros t. rewrite Hstable', !filter_cons, Hstable. done.
      * left. split.
        -- apply insert_newest_first_Raised.
           ++ by apply (same_awareness_perm l r).
           ++ by rewrite Hperm.
        -- intros Hall. by apply same_awareness_cons in Hall as [_ ?].
Qed.

(** X18: [get_plans] selects the plans of the readable, non-design
    documents that pass the three filters (a filter that is None or the
    empty string lets every plan through; without filters every readable
    plan is selected).  When the creation times of the selected plans are
    all naive or all timezone-aware it returns exactly these plans, each
    as often as it is stored, sorted by creation time with the newest
    first, plans created at the same time keeping the order in which the
    database lists them.  When naive and aware creation times are mixed,
    the sort raises TypeError and [get_plans] raises it; when the
    database fails to list its documents, [get_plans] raises the
    exception of the database. *)
Theorem get_plans_filters_and_sorts {E : Type} (lower : string → string)
    (listing : outcome E (list (string * option ParsedPlan)))
    (user_id : option string) (status : option PlanStatus.t)
    (name_filter : option string) :
  match listing with
  | Raised e =>
      DatabaseConnection.get_plans lower listing user_id status name_filter
      = Raised (DatabaseConnection.ListingError e)
  | Return docs =>
      let selected := selected_plans lower docs user_id status name_filter in
      match DatabaseConnection.get_plans lower listing user_id status
              name_filter with
      | Raised err =>
          err = DatabaseConnection.SortError NaiveAwareComparison
          ∧ ¬ same_awareness selected
      | Return result =>
          same_awareness selected
          ∧ result ≡ₚ selected
          ∧ StronglySorted newer_or_same result
          ∧ ∀ t, filter (λ p, Plan.created_at (plan_of p) = t) result
                 = filter (λ p, Plan.created_at (plan_of p) = t) selected
      end
      ∧ selected_plans lower docs None None None = readable_plans docs
  end.
Proof.
  destruct listing as [docs|e]; [|done].
  intros selected. subst selected. split.
  - unfold DatabaseConnection.get_plans. rewrite select_plans_filter.
    destruct (sorted_newest_first_spec
                (selected_plans lower docs user_id status name_filter))
      as [[-> Hmixed]|(r & -> & Hsame & Hperm & Hsorted & Hstable)]; done.
  - unfold selected_plans. by apply filter_all_true.
Qed.

(** Two plans of one user and a design document: the name filter is
    matched without regard to case, the newer plan comes first. *)
Example get_plans_example :
  let older := Plan.mk "p1" "Trip to Rome" "d" PlanStatus.NOT_STARTED "u" 5 5 [] in
  let newer := Plan.mk "p2" "trip home" "d" PlanStatus.NOT_STARTED "u" 9 9 [] in
  let other := Plan.mk "p3" "Taxes" "d" PlanStatus.NOT_STARTED "u" 7 7 [] in
  let lower := λ s, if bool_decide (s = "Trip to Rome") then "trip to rome"
                    else if bool_decide (s = "TRIP") then "trip" else s in
  match
    DatabaseConnection.get_plans (E := Empty_set) lower
      (Return [("p1", Some (mkParsedPlan older false));
               ("_design/x", Some (mkParsedPlan other true));
               ("p3", Some (mkParsedPlan other true));
               ("broken", None);
               ("p2", Some (mkParsedPlan newer false))])
      (Some "u") None (Some "TRIP")
  with
  | Return result => Plan.plan_id ∘ plan_of <$> result = ["p2"; "p1"]
  | Raised _ => False
  end.
Proof. vm_compute. reflexivity. Qed.

(** The same database listed without the name filter: the plan whose
    stored creation time carries an offset is selected beside the two
    whose creation times are naive, and the sort raises. *)
Example get_plans_mixed_creation_times :
  let older := Plan.mk "p1" "Trip to Rome" "d" PlanStatus.NOT_STARTED "u" 5 5 [] in
  let newer := Plan.mk "p2" "trip home" "d" PlanStatus.NOT_STARTED "u" 9 9 [] in
  let other := Plan.mk "p3" "Taxes" "d" PlanStatus.NOT_STARTED "u" 7 7 [] in
  DatabaseConnection.get_plans (E := Empty_set) (λ s, s)
    (Return [("p1", Some (mkParsedPlan older false));
             ("p3", Some (mkParsedPlan other true));
             ("p2", Some (mkParsedPlan newer false))])
    (Some "u") None None
  = Raised (DatabaseConnection.SortError NaiveAwareComparison).
Proof. vm_compute. reflexivity. Qed.

(** * Summaries *)

Lemma count_status_zero p st :
  Plan.count_status p st = 0 ↔
  ∀ s, s ∈ Plan.steps p → Step.status s ≠ st.
Proof.
  rewrite count_status_filter.
  assert (∀ l : list Step.t,
            length (filter (λ s, Step.status s = st) l) = 0%nat
            ↔ ∀ s, s ∈ l → Step.status s ≠ st) as Hzero.
  { intros l. rewrite length_zero_iff_nil. split.
    - intros Hnil s Hs Hst.
      by eapply (filter_nil_not_elem_of (λ s, Step.status s = st)).
    - intros Hall. induction l as [|x l IH]; [done|].
      rewrite filter_cons_False by (apply Hall; by left).
      apply IH. intros s Hs. apply Hall. by right. }
  rewrite <-Hzero. lia.
Qed.

(** X19: the summary of a plan reports the number of steps as total and
    the numbers of completed and of pending steps; the two together never
    exceed the total, and they reach it exactly when every step is
    completed or pending. *)
Theorem plan_to_summary_counts_bounds (p : Plan.t) :
  let c := plan_to_summary_counts p in
  summary_total_steps c = Z.of_nat (length (Plan.steps p))
  ∧ summary_completed_steps c
    = Z.of_nat (length (filter (λ s, Step.status s = StepStatus.COMPLETED)
                          (Plan.steps p)))
  ∧ summary_pending_steps c
    = Z.of_nat (length (filter (λ s, Step.status s = StepStatus.PENDING)
                          (Plan.steps p)))
  ∧ summary_completed_steps c + summary_pending_steps c
    ≤ summary_total_steps c
  ∧ (summary_completed_steps c + summary_pending_steps c
     = summary_total_steps c
     ↔ ∀ s, s ∈ Plan.steps p →
            Step.status s = StepStatus.COMPLETED
            ∨ Step.status s = StepStatus.PENDING).
Proof.
  intros c. subst c. unfold plan_to_summary_counts.
  destruct (decide (Plan.steps p = [])) as [Hnil|Hne].
  { rewrite (get_progress_empty p Hnil), Hnil. simpl.
    split_and!; try done. split; [|done].
    intros _ s Hs. by apply elem_of_nil in Hs. }
  rewrite (get_progress_nonempty p Hne). simpl.
  rewrite <-!count_status_filter.
  pose proof (count_status_total p) as Htotal.
  pose proof (count_status_range p StepStatus.IN_PROGRESS) as [Hi _].
  pose proof (count_status_range p StepStatus.FAILED) as [Hf _].
  pose proof (count_status_range p StepStatus.SKIPPED) as [Hs _].
  split_and!; [done..|lia|].
  split.
  - intros Heq s Hin.
    assert (Plan.count_status p StepStatus.IN_PROGRESS = 0) as Hi0 by lia.
    assert (Plan.count_status p StepStatus.FAILED = 0) as Hf0 by lia.
    assert (Plan.count_status p StepStatus.SKIPPED = 0) as Hs0 by lia.
    rewrite count_status_zero in Hi0, Hf0, Hs0.
    specialize (Hi0 s Hin). specialize (Hf0 s Hin). specialize (Hs0 s Hin).
    destruct (Step.status s); auto; done.
  - intros Hall.
    assert (Plan.count_status p StepStatus.IN_PROGRESS = 0) as Hi0.
    { apply count_status_zero. intros s Hin Hst.
      destruct (Hall s Hin) as [H|H]; rewrite Hst in H; done. }
    assert (Plan.count_status p StepStatus.FAILED = 0) as Hf0.
    { apply count_status_zero. intros s Hin Hst.
      destruct (Hall s Hin) as [H|H]; rewrite Hst in H; done. }
    assert (Plan.count_status p StepStatus.SKIPPED = 0) as Hs0.
    { apply count_status_zero. intros s Hin Hst.
      destruct (Hall s Hin) as [H|H]; rewrite Hst in H; done. }
    lia.
Qed.

Lemma plan_to_summary_counts_bounds_witness :
  summary_completed_steps (plan_to_summary_counts plan_abc)
  + summary_pending_steps (plan_to_summary_counts plan_abc)
  = summary_total_steps (plan_to_summary_counts plan_abc).
Proof.
  apply (plan_to_summary_counts_bounds plan_abc).
  intros s Hs. vm_compute in Hs.
  repeat (apply elem_of_cons in Hs as [->|Hs]); [by right..|].
  by apply elem_of_nil in Hs.
Defined.

(** * The completion percentage *)

(** ** Binary digits and right shifts of the float operations *)

Lemma digits2_pos_size p : digits2_pos p = Pos.size p.
Proof. induction p as [p IH|p IH|]; simpl; by rewrite ?IH. Qed.

Lemma Zdigits2_bounds a :
  0 < a → 2 ^ (Zdigits2 a - 1) ≤ a < 2 ^ Zdigits2 a.
Proof.
  destruct a as [|p|p]; try lia. intros _. simpl.
  rewrite digits2_pos_size.
  pose proof (Pos.size_gt p) as Hgt. pose proof (Pos.size_le p) as Hle.
  apply Pos2Z.pos_lt_pos in Hgt. apply Pos2Z.pos_le_pos in Hle.
  rewrite Pos2Z.inj_pow in Hgt, Hle.
  change (Z.pos p~0) with (2 * Z.pos p) in Hle.
  split; [|exact Hgt].
  assert (2 ^ Z.pos (Pos.size p) = 2 * 2 ^ (Z.pos (Pos.size p) - 1)) as Heq.
  { rewrite <-Z.pow_succ_r by lia. f_equal. lia. }
  lia.
Qed.

Lemma Zdigits2_nonneg a : 0 ≤ Zdigits2 a.
Proof. destruct a; simpl; lia. Qed.

Lemma Zdigits2_le a d : 0 ≤ d → 0 ≤ a < 2 ^ d → Zdigits2 a ≤ d.
Proof.
  intros Hd [Ha Hlt].
  destruct (decide (a = 0)) as [->|Hne]; [done|].
  pose proof (Zdigits2_bounds a ltac:(lia)) as [Hlo _].
  destruct (decide (Zdigits2 a ≤ d)) as [|Hgt]; [done|]. exfalso.
  assert (2 ^ d ≤ 2 ^ (Zdigits2 a - 1)) by (apply Z.pow_le_mono_r; lia).
  lia.
Qed.

Lemma Zdigits2_mono a b : 0 ≤ a ≤ b → Zdigits2 a ≤ Zdigits2 b.
Proof.
  intros [Ha Hab].
  destruct (decide (b = 0)) as [->|Hb].
  { by replace a with 0 by lia. }
  apply Zdigits2_le; [apply Zdigits2_nonneg|].
  pose proof (Zdigits2_bounds b ltac:(lia)). lia.
Qed.

Lemma Zdigits2_shift a k d :
  0 < a → 0 ≤ k → a * 2 ^ k < 2 ^ d → Zdigits2 a + k ≤ d.
Proof.
  intros Ha Hk Hlt.
  pose proof (Zdigits2_bounds a Ha) as [Hlo _].
  pose proof (Zdigits2_nonneg a).
  assert (0 < Zdigits2 a).
  { destruct a; simpl in *; lia. }
  destruct (decide (Zdigits2 a + k ≤ d)) as [|Hgt]; [done|]. exfalso.
  assert (0 ≤ d ∨ d < 0) as [Hd|Hd] by lia.
  - assert (2 ^ d ≤ 2 ^ (Zdigits2 a - 1 + k)) by (apply Z.pow_le_mono_r; lia).
    rewrite Z.pow_add_r in * by lia.
    assert (0 < 2 ^ k) by (apply Z.pow_pos_nonneg; lia).
    nia.
  - rewrite (Z.pow_neg_r 2 d) in Hlt by lia.
    assert (0 < 2 ^ k) by (apply Z.pow_pos_nonneg; lia). nia.
Qed.

Lemma iter_pos_Pos_iter {A} (f : A → A) p x :
  SpecFloat.iter_pos f p x = Pos.iter f x p.
Proof.
  revert x. induction p as [p IH|p IH|]; intros x; simpl.
  - by rewrite !IH, <-!Pos.iter_swap.
  - by rewrite !IH.
  - done.
Qed.

Lemma half_of_double q b :
  0 ≤ b < 2 → (2 * q + b) / 2 = q ∧ (2 * q + b) mod 2 = b.
Proof.
  intros Hb. split.
  - symmetry. apply (Z.div_unique _ _ _ b); lia.
  - symmetry. apply (Z.mod_unique _ _ q); lia.
Qed.

Lemma shr_1_spec m r s :
  0 ≤ m →
  shr_m (shr_1 (Build_shr_record m r s)) = m / 2
  ∧ 0 ≤ shr_m (shr_1 (Build_shr_record m r s))
  ∧ (shr_r (shr_1 (Build_shr_record m r s))
     || shr_s (shr_1 (Build_shr_record m r s)) = false
     ↔ m mod 2 = 0 ∧ r || s = false).
Proof.
  intros Hm. destruct m as [|[p|p|]|p]; [| | | |lia];
    cbn [shr_1 shr_m shr_r shr_s].
  - change (0 / 2) with 0. change (0 mod 2) with 0.
    split_and!; [done..|]. rewrite orb_false_l. naive_solver.
  - rewrite Pos2Z.inj_xI. replace (2 * Z.pos p + 1) with (2 * Z.pos p + 1) by done.
    destruct (half_of_double (Z.pos p) 1 ltac:(lia)) as [-> ->].
    split_and!; [done|lia|]. rewrite orb_true_l. split; [done|]. lia.
  - rewrite Pos2Z.inj_xO. replace (2 * Z.pos p) with (2 * Z.pos p + 0) by lia.
    destruct (half_of_double (Z.pos p) 0 ltac:(lia)) as [-> ->].
    split_and!; [done|lia|]. rewrite orb_false_l. naive_solver.
  - change (1 / 2) with 0. change (1 mod 2) with 1.
    split_and!; [done..|]. rewrite orb_true_l. split; [done|]. lia.
Qed.

Lemma iter_shr_1_spec p m r s :
  0 ≤ m →
  let mrs := Pos.iter shr_1 (Build_shr_record m r s) p in
  shr_m mrs = m / 2 ^ Z.pos p
  ∧ 0 ≤ shr_m mrs
  ∧ (shr_r mrs || shr_s mrs = false ↔ m mod 2 ^ Z.pos p = 0 ∧ r || s = false).
Proof.
  intros Hm. induction p as [|p IH] using Pos.peano_ind.
  - simpl Pos.iter. change (2 ^ 1) with 2. by apply shr_1_spec.
  - cbv zeta in *. rewrite Pos.iter_succ.
    destruct (Pos.iter shr_1 (Build_shr_record m r s) p) as [m' r' s'].
    simpl in IH. destruct IH as (Hm' & Hpos & Hloc).
    destruct (shr_1_spec m' r' s' Hpos) as (H1 & H2 & H3).
    rewrite Pos2Z.inj_succ, Z.pow_succ_r by lia.
    assert (0 < 2 ^ Z.pos p) as Hpow by (apply Z.pow_pos_nonneg; lia).
    split_and!; [|done|].
    + rewrite H1, Hm', Z.div_div by lia. f_equal. lia.
    + rewrite H3, Hloc, Hm'.
      rewrite (Z.mul_comm 2), Z.rem_mul_r by lia.
      pose proof (Z.mod_pos_bound m (2 ^ Z.pos p) Hpow).
      pose proof (Z.mod_pos_bound (m / 2 ^ Z.pos p) 2 ltac:(lia)).
      split; [intros (? & ? & ?)|intros (? & ?)]; split_and!; try done; nia.
Qed.

Section Rounding.
Variables prc emx : Z.
Hypothesis Hprc : 0 < prc.
Hypothesis Hemx : prc < emx.

Lemma fexp_mono x y : x ≤ y → fexp prc emx x ≤ fexp prc emx y.
Proof. unfold fexp, emin. lia. Qed.

Lemma fexp_emx : fexp prc emx emx = emx - prc.
Proof. unfold fexp, emin. lia. Qed.

Lemma shr_spec m r s e n :
  0 ≤ m →
  (shr (Build_shr_record m r s) e n).2 = e + Z.max 0 n
  ∧ shr_m (shr (Build_shr_record m r s) e n).1 = m / 2 ^ Z.max 0 n
  ∧ 0 ≤ shr_m (shr (Build_shr_record m r s) e n).1
  ∧ (shr_r (shr (Build_shr_record m r s) e n).1
     || shr_s (shr (Build_shr_record m r s) e n).1 = false
     ↔ m mod 2 ^ Z.max 0 n = 0 ∧ r || s = false).
Proof.
  intros Hm. destruct n as [|p|p]; cbn [shr fst snd shr_m shr_r shr_s].
  - change (Z.max 0 0) with 0. rewrite Z.pow_0_r, Z.div_1_r, Z.mod_1_r.
    split_and!; [lia|done|done|naive_solver].
  - rewrite iter_pos_Pos_iter.
    replace (Z.max 0 (Z.pos p)) with (Z.pos p) by lia.
    split; [done|]. by apply iter_shr_1_spec.
  - replace (Z.max 0 (Z.neg p)) with 0 by lia.
    rewrite Z.pow_0_r, Z.div_1_r, Z.mod_1_r.
    split_and!; [lia|done|done|naive_solver].
Qed.

Lemma loc_of_shr_record_exact mrs :
  loc_of_shr_record mrs = loc_Exact ↔ shr_r mrs || shr_s mrs = false.
Proof. destruct mrs as [m [|] [|]]; simpl; naive_solver. Qed.

Lemma shr_fexp_spec m e l :
  0 ≤ m →
  let n := Z.max 0 (fexp prc emx (Zdigits2 m + e) - e) in
  (shr_fexp prc emx m e l).2 = e + n
  ∧ shr_m (shr_fexp prc emx m e l).1 = m / 2 ^ n
  ∧ 0 ≤ shr_m (shr_fexp prc emx m e l).1
  ∧ (loc_of_shr_record (shr_fexp prc emx m e l).1 = loc_Exact
     ↔ m mod 2 ^ n = 0 ∧ l = loc_Exact).
Proof.
  intros Hm n. unfold shr_fexp. rewrite loc_of_shr_record_exact.
  destruct l as [|[| |]]; cbn [shr_record_of_loc];
    destruct (shr_spec m false false e (fexp prc emx (Zdigits2 m + e) - e) Hm)
      as (H1 & H2 & H3 & H4);
    destruct (shr_spec m false true e (fexp prc emx (Zdigits2 m + e) - e) Hm)
      as (H1' & H2' & H3' & H4');
    destruct (shr_spec m true false e (fexp prc emx (Zdigits2 m + e) - e) Hm)
      as (H1'' & H2'' & H3'' & H4'');
    destruct (shr_spec m true true e (fexp prc emx (Zdigits2 m + e) - e) Hm)
      as (H1''' & H2''' & H3''' & H4''');
    fold n in H1, H2, H4, H1', H2', H4', H1'', H2'', H4'', H1''', H2''', H4''';
    (split_and!; [done..|]).
  - rewrite H4. naive_solver.
  - rewrite H4''. naive_solver.
  - rewrite H4'. naive_solver.
  - rewrite H4'''. naive_solver.
Qed.

Lemma round_nearest_even_spec m l :
  m ≤ round_nearest_even m l ≤ m + 1
  ∧ (l = loc_Exact → round_nearest_even m l = m).
Proof.
  destruct l as [|[| |]]; simpl; try (destruct (Z.even m)); split; try lia; done.
Qed.

Lemma binary_round_aux_le sx mx ex lx B :
  0 ≤ mx →
  mx + match lx with loc_Exact => 0 | _ => 1 end ≤ B →
  (2 ^ Z.max 0 (fexp prc emx (Zdigits2 mx + ex) - ex) | B) →
  ex ≤ emx - prc →
  Zdigits2 B + ex ≤ emx →
  binary_round_aux prc emx sx mx ex lx = S754_zero sx
  ∨ ∃ p e, binary_round_aux prc emx sx mx ex lx = S754_finite sx p e
           ∧ ex ≤ e ∧ Z.pos p * 2 ^ (e - ex) ≤ B.
Proof.
  intros Hmx HB [K HK] Hex Hdig.
  assert (mx ≤ B) as HmxB by (destruct lx; lia).
  unfold binary_round_aux.
  set (n := Z.max 0 (fexp prc emx (Zdigits2 mx + ex) - ex)) in *.
  destruct (shr_fexp_spec mx ex lx Hmx) as (He' & Hm' & Hm'pos & Hloc).
  fold n in He', Hm', Hloc.
  destruct (shr_fexp prc emx mx ex lx) as [mrs' e']. cbn [fst snd] in *.
  set (m' := shr_m mrs') in *.
  destruct (round_nearest_even_spec m' (loc_of_shr_record mrs'))
    as [[Hlo Hhi] Hexact].
  set (m'' := round_nearest_even m' (loc_of_shr_record mrs')) in *.
  assert (0 ≤ m'') as Hm''pos by lia.
  destruct (shr_fexp_spec m'' e' loc_Exact Hm''pos) as (He'' & Hm3 & Hm3pos & _).
  set (n2 := Z.max 0 (fexp prc emx (Zdigits2 m'' + e') - e')) in *.
  destruct (shr_fexp prc emx m'' e' loc_Exact) as [mrs'' e'']. cbn [fst snd] in *.
  assert (0 ≤ n) as Hn by (subst n; lia).
  assert (0 ≤ n2) as Hn2 by (subst n2; lia).
  assert (0 < 2 ^ n) as Hpn by (apply Z.pow_pos_nonneg; lia).
  assert (0 < 2 ^ n2) as Hpn2 by (apply Z.pow_pos_nonneg; lia).
  (* the rounded mantissa stays below K *)
  assert (m'' ≤ K) as Hm''K.
  { assert (m' ≤ K) as Hm'K.
    { rewrite Hm'. apply Z.div_le_upper_bound; [lia|].
      destruct lx; nia. }
    destruct (decide (m' = K)) as [HeqK|HneK]; [|lia].
    rewrite Hexact; [lia|]. apply Hloc.
    assert (mx = K * 2 ^ n) as Hmxeq.
    { pose proof (Z.mul_div_le mx (2 ^ n) Hpn) as Hle.
      rewrite <-Hm', HeqK in Hle. destruct lx; nia. }
    split.
    - rewrite Hmxeq. apply Z.mod_mul. lia.
    - destruct lx; [done|lia]. }
  set (m3 := shr_m mrs'') in *.
  assert (m3 * 2 ^ n2 ≤ m'') as Hm3le.
  { rewrite Hm3. rewrite Z.mul_comm. apply Z.mul_div_le. lia. }
  destruct m3 as [|p|p] eqn:Hm3eq; [by left| |lia].
  right. 
  assert (0 < m'') as Hm''gt by nia.
  assert (0 < K) as HKpos by lia.
  assert (0 < B) as HBpos by nia.
  assert (e'' ≤ emx - prc) as Hfin.
  { rewrite He''. subst n2.
    assert (e' ≤ emx - prc) as He'le.
    { rewrite He'. subst n.
      destruct (Z.max_spec 0 (fexp prc emx (Zdigits2 mx + ex) - ex))
        as [[_ ->]|[_ ->]]; [|lia].
      replace (ex + (fexp prc emx (Zdigits2 mx + ex) - ex))
        with (fexp prc emx (Zdigits2 mx + ex)) by lia.
      rewrite <-fexp_emx. apply fexp_mono.
      pose proof (Zdigits2_mono mx B ltac:(lia)). lia. }
    destruct (Z.max_spec 0 (fexp prc emx (Zdigits2 m'' + e') - e'))
      as [[_ ->]|[_ ->]]; [|lia].
    replace (e' + (fexp prc emx (Zdigits2 m'' + e') - e'))
      with (fexp prc emx (Zdigits2 m'' + e')) by lia.
    rewrite <-fexp_emx. apply fexp_mono.
    pose proof (Zdigits2_mono m'' K ltac:(lia)) as HdK.
    pose proof (Zdigits2_bounds B HBpos) as [_ HBhi].
    pose proof (Zdigits2_shift K n (Zdigits2 B) HKpos Hn ltac:(lia)) as Hsh.
    lia. }
  rewrite (proj2 (Z.leb_le _ _) Hfin).
  exists p, e''. split; [done|]. split; [lia|].
  replace (e'' - ex) with (n2 + n) by lia.
  rewrite Z.pow_add_r by lia. nia.
Qed.

End Rounding.


(** * The three float operations of get_progress *)

Lemma prec_emax_ok : 0 < prec ∧ prec < emax.
Proof. unfold prec, emax. lia. Qed.

Lemma new_location_exact nb_steps k :
  match new_location nb_steps k with loc_Exact => 0 | _ => 1 end
  = if bool_decide (k = 0) then 0 else 1.
Proof.
  unfold new_location, new_location_even, new_location_odd.
  case_bool_decide as Hk.
  - subst k. by destruct (Z.even nb_steps).
  - apply Z.eqb_neq in Hk. destruct (IntDef.Z.even nb_steps);
      cbv beta; change (IntDef.Z.eqb k 0) with (k =? 0); by rewrite Hk.
Qed.

Lemma fexp_small x : x ≤ 1 → fexp prec emax x ≤ 0.
Proof. unfold fexp, emin, prec, emax. lia. Qed.

Lemma int_true_divide_le_one c t :
  0 ≤ c ≤ t → 0 < t →
  int_true_divide c t = S754_zero false
  ∨ ∃ p e, int_true_divide c t = S754_finite false p e
           ∧ e ≤ 0 ∧ Z.pos p ≤ 2 ^ (- e).
Proof.
  intros [Hc Hct] Ht. unfold int_true_divide.
  destruct t as [|pt|pt]; try lia.
  destruct c as [|pc|pc]; try lia; [by left|].
  cbn [int_operand SFdiv xorb].
  unfold SFdiv_core_binary.
  set (ez := Z.min (fexp prec emax (Zdigits2 (Z.pos pc) + 0
                                     - (Zdigits2 (Z.pos pt) + 0))) (0 - 0)).
  assert (ez ≤ 0) as Hez by (subst ez; lia).
  replace (0 - 0 - ez) with (- ez) by lia.
  set (m' := match - ez with
             | 0 => Z.pos pc
             | Z.pos _ => Z.shiftl (Z.pos pc) (- ez)
             | Z.neg _ => 0
             end).
  assert (m' = Z.pos pc * 2 ^ (- ez)) as Hm'.
  { subst m'. destruct (- ez) as [|s|s] eqn:Hs; [simpl; lia| |lia].
    rewrite Z.shiftl_mul_pow2 by lia. done. }
  pose proof (Z_div_mod m' (Z.pos pt) ltac:(lia)) as Hdm.
  destruct (Z.div_eucl m' (Z.pos pt)) as [q r]. destruct Hdm as [Hqr Hr].
  assert (0 < 2 ^ (- ez)) as Hpow by (apply Z.pow_pos_nonneg; lia).
  assert (0 ≤ q) as Hq by nia.
  assert (q + (if bool_decide (r = 0) then 0 else 1) ≤ 2 ^ (- ez)) as Hle.
  { case_bool_decide; nia. }
  assert (Zdigits2 q ≤ - ez + 1) as Hdq.
  { apply Zdigits2_le; [lia|]. split; [done|].
    rewrite Z.pow_add_r, Z.pow_1_r by lia. case_bool_decide; lia. }
  assert (Zdigits2 (2 ^ (- ez)) ≤ - ez + 1) as HdB.
  { apply Zdigits2_le; [lia|]. split; [lia|].
    rewrite Z.pow_add_r, Z.pow_1_r by lia. lia. }
  destruct prec_emax_ok as [Hp He].
  destruct (binary_round_aux_le prec emax Hp He false q ez
              (new_location (Z.pos pt) r) (2 ^ (- ez)))
    as [Hzero|(p & e & Hfin & Hee & Hval)].
  - done.
  - by rewrite new_location_exact.
  - set (n := Z.max 0 (fexp prec emax (Zdigits2 q + ez) - ez)).
    assert (0 ≤ n ≤ - ez) as Hn.
    { subst n. pose proof (fexp_small (Zdigits2 q + ez) ltac:(lia)). lia. }
    exists (2 ^ (- ez - n)). rewrite <-Z.pow_add_r by lia. f_equal. lia.
  - unfold prec, emax. lia.
  - unfold emax. lia.
  - by left.
  - right. exists p, e. split; [done|].
    assert (0 < 2 ^ (e - ez)) as Hpe by (apply Z.pow_pos_nonneg; lia).
    assert (e ≤ 0) as He0.
    { destruct (decide (e ≤ 0)) as [|Hgt]; [done|]. exfalso.
      assert (2 ^ (- ez) < 2 ^ (e - ez)) by (apply Z.pow_lt_mono_r; lia).
      nia. }
    split; [done|].
    assert (2 ^ (- ez) = 2 ^ (- e) * 2 ^ (e - ez)) as Hsplit.
    { rewrite <-Z.pow_add_r by lia. f_equal. lia. }
    nia.
Qed.

(** ** Multiplying by 100 and rounding to two decimals *)

Lemma float_of_int_100 :
  float_of_int 100 = S754_finite false 7036874417766400 (-46).
Proof. vm_compute. reflexivity. Qed.

Lemma fexp_le_7 x : x ≤ 7 → fexp prec emax x ≤ -46.
Proof. unfold fexp, emin, prec, emax. lia. Qed.

Lemma float_mul_100_le y :
  (y = S754_zero false
   ∨ ∃ p e, y = S754_finite false p e ∧ e ≤ 0 ∧ Z.pos p ≤ 2 ^ (- e)) →
  float_mul y (float_of_int 100) = S754_zero false
  ∨ ∃ p e, float_mul y (float_of_int 100) = S754_finite false p e
           ∧ (0 ≤ e → Z.pos p * 2 ^ e ≤ 100)
           ∧ (e < 0 → Z.pos p ≤ 100 * 2 ^ (- e)).
Proof.
  rewrite float_of_int_100.
  intros [->|(p & e & -> & He & Hp)]; [by left|].
  unfold float_mul. cbn [SFmul xorb].
  set (m100 := 7036874417766400%positive).
  assert (Z.pos m100 = 25 * 2 ^ 48) as Hm100 by done.
  assert (0 < 2 ^ (- e)) as Hpow by (apply Z.pow_pos_nonneg; lia).
  set (B := Z.pos m100 * 2 ^ (- e)).
  assert (Z.pos (p * m100) ≤ B) as HmxB.
  { subst B. rewrite Pos2Z.inj_mul. nia. }
  assert (B < 2 ^ (53 - e)) as HB53.
  { subst B. replace (53 - e) with (53 + - e) by lia.
    rewrite Z.pow_add_r by lia.
    assert (Z.pos m100 < 2 ^ 53) by done. nia. }
  assert (Zdigits2 B ≤ 53 - e) as HdB.
  { apply Zdigits2_le; [lia|]. split; [lia|done]. }
  assert (Zdigits2 (Z.pos (p * m100)) ≤ 53 - e) as Hdmx.
  { apply Zdigits2_le; [lia|]. lia. }
  destruct prec_emax_ok as [Hprec Hemax].
  destruct (binary_round_aux_le prec emax Hprec Hemax false
              (Z.pos (p * m100)) (e + -46) loc_Exact B)
    as [Hzero|(p' & e' & Hfin & Hee & Hval)].
  - lia.
  - lia.
  - set (n := Z.max 0 (fexp prec emax (Zdigits2 (Z.pos (p * m100)) + (e + -46))
                       - (e + -46))).
    assert (0 ≤ n ≤ 48 - e) as Hn.
    { subst n.
      pose proof (fexp_le_7 (Zdigits2 (Z.pos (p * m100)) + (e + -46))
                    ltac:(lia)). lia. }
    exists (25 * 2 ^ (48 - e - n)). subst B. rewrite Hm100.
    replace (2 ^ (- e)) with (2 ^ (- e)) by done.
    rewrite <-!Z.mul_assoc. f_equal.
    rewrite <-!Z.pow_add_r by lia. f_equal. lia.
  - unfold prec, emax. lia.
  - unfold emax. lia.
  - by left.
  - right. exists p', e'. split; [done|].
    assert (0 < 2 ^ (e' - (e + -46))) as HX by (apply Z.pow_pos_nonneg; lia).
    subst B. rewrite Hm100 in Hval.
    split.
    + intros He'.
      assert (2 ^ (e' - (e + -46)) = 2 ^ e' * (2 ^ 46 * 2 ^ (- e))) as Hsplit.
      { rewrite <-!Z.pow_add_r by lia. f_equal. lia. }
      rewrite Hsplit in Hval.
      change (2 ^ 48) with 281474976710656 in Hval.
      change (2 ^ 46) with 70368744177664 in Hval.
      nia.
    + intros He'.
      assert (2 ^ (- e') * 2 ^ (e' - (e + -46)) = 2 ^ 46 * 2 ^ (- e)) as Hsplit.
      { rewrite <-!Z.pow_add_r by lia. f_equal. lia. }
      assert (0 < 2 ^ (- e')) by (apply Z.pow_pos_nonneg; lia).
      change (2 ^ 48) with 281474976710656 in Hval.
      change (2 ^ 46) with 70368744177664 in Hsplit.
      nia.
Qed.

Lemma round_half_even_div_bounds num den K :
  0 ≤ num → 0 < den → num ≤ K * den →
  0 ≤ round_half_even_div num den ≤ K.
Proof.
  intros Hnum Hden Hle. unfold round_half_even_div.
  pose proof (Z.div_mod num den ltac:(lia)) as Hdm.
  pose proof (Z.mod_pos_bound num den Hden) as Hr.
  set (q := num / den) in *. set (r := num mod den) in *.
  assert (0 ≤ q) as Hq by nia.
  assert (q ≤ K) as HqK by nia.
  destruct (Z.compare_spec (2 * r) den) as [Heq|Hlt|Hgt].
  - destruct (Z.even q); [lia|]. nia.
  - lia.
  - nia.
Qed.

Lemma two_decimals_table k :
  1 ≤ k ≤ 10000 →
  percentage_in_range
    (SFdiv prec emax (S754_finite false (Z.to_pos k) 0)
       (S754_finite false 100 0)) = true.
Proof.
  intros Hk.
  assert (forallb (λ k, percentage_in_range
                          (SFdiv prec emax (S754_finite false (Z.to_pos k) 0)
                             (S754_finite false 100 0)))
            (seqZ 1 10000) = true) as Hall by (vm_compute; reflexivity).
  rewrite forallb_forall in Hall. apply Hall.
  apply list_elem_of_In, elem_of_seqZ. lia.
Qed.

Lemma float_round_2_in_range x :
  (x = S754_zero false
   ∨ ∃ p e, x = S754_finite false p e
            ∧ (0 ≤ e → Z.pos p * 2 ^ e ≤ 100)
            ∧ (e < 0 → Z.pos p ≤ 100 * 2 ^ (- e))) →
  percentage_in_range (float_round x 2) = true
  ∧ ∃ k, 0 ≤ k ≤ 10000 ∧ float_round x 2 = int_true_divide k 100.
Proof.
  intros [->|(p & e & -> & Hpos & Hneg)].
  { split; [done|]. exists 0. split; [lia|done]. }
  unfold float_round. change (10 ^ 2) with 100.
  set (k := if bool_decide (0 ≤ e) then Z.pos p * 2 ^ e * 100
            else round_half_even_div (Z.pos p * 100) (2 ^ (- e))).
  assert (0 ≤ k ≤ 10000) as Hk.
  { subst k. case_bool_decide as He.
    - specialize (Hpos He).
      assert (0 < 2 ^ e) by (apply Z.pow_pos_nonneg; lia). nia.
    - assert (0 < 2 ^ (- e)) by (apply Z.pow_pos_nonneg; lia).
      apply round_half_even_div_bounds; [lia|lia|].
      specialize (Hneg ltac:(lia)). nia. }
  case_bool_decide as Hk0.
  { split; [done|]. exists 0. split; [lia|done]. }
  change (Z.to_pos 100) with 100%positive.
  split.
  - apply two_decimals_table. lia.
  - exists k. split; [done|]. unfold int_true_divide.
    destruct k as [|pk|pk]; [done| |lia]. done.
Qed.

(** X20: the completion percentage that [get_progress] reports is a
    float between 0.0 and 100.0, whatever the plan, and it is the double
    nearest to [k / 100] for an integer [k] from 0 to 10000: the division,
    the multiplication by 100 and the rounding to two decimals never
    leave that range and never produce a NaN or an infinity. *)
Theorem completion_percentage_range p :
  percentage_in_range (Plan.completion_percentage (Plan.get_progress p))
  = true
  ∧ ∃ k, 0 ≤ k ≤ 10000
         ∧ Plan.completion_percentage (Plan.get_progress p)
           = int_true_divide k 100.
Proof.
  destruct (decide (Plan.steps p = [])) as [Hnil|Hne].
  { rewrite (get_progress_empty p Hnil). cbn [Plan.completion_percentage].
    split; [done|]. exists 0. split; [lia|done]. }
  rewrite (get_progress_nonempty p Hne). cbn [Plan.completion_percentage].
  apply float_round_2_in_range, float_mul_100_le, int_true_divide_le_one.
  - apply count_status_range.
  - destruct (Plan.steps p); [done|]. simpl length. lia.
Qed.

(** ** How close the percentage is to the exact quotient *)

Lemma Zdigits2_eq a k :
  0 < a → 2 ^ (k - 1) ≤ a < 2 ^ k → Zdigits2 a = k.
Proof.
  intros Ha [Hlo Hhi].
  pose proof (Zdigits2_bounds a Ha) as [Hlo' Hhi'].
  pose proof (Zdigits2_nonneg a) as Hd.
  assert (0 ≤ k) as Hk.
  { destruct (decide (0 ≤ k)) as [|Hneg]; [done|].
    rewrite Z.pow_neg_r in Hhi by lia. lia. }
  destruct (Z.lt_trichotomy (Zdigits2 a) k) as [Hlt|[Heq|Hgt]]; [|done|].
  - assert (2 ^ Zdigits2 a ≤ 2 ^ (k - 1)) by (apply Z.pow_le_mono_r; lia). lia.
  - assert (2 ^ k ≤ 2 ^ (Zdigits2 a - 1)) by (apply Z.pow_le_mono_r; lia). lia.
Qed.

Section RoundingNear.
Variables prc emx : Z.
Hypothesis Hprc : 0 < prc.

Lemma binary_round_aux_near sx mx ex lx :
  0 < mx → prc ≤ Zdigits2 mx → emin prc emx ≤ ex →
  Zdigits2 mx + ex + 1 ≤ emx →
  ∃ p e, binary_round_aux prc emx sx mx ex lx = S754_finite sx p e
         ∧ Zdigits2 mx - prc ≤ e - ex ≤ Zdigits2 mx - prc + 1
         ∧ 2 ^ (prc - 1) ≤ Z.pos p < 2 ^ prc
         ∧ mx + 1 - 2 ^ (e - ex) ≤ Z.pos p * 2 ^ (e - ex) ≤ mx + 2 ^ (e - ex).
Proof.
  intros Hmx Hd Hex Hover.
  unfold binary_round_aux.
  pose proof (Zdigits2_bounds mx Hmx) as [Hlo Hhi].
  set (d := Zdigits2 mx) in *.
  destruct (shr_fexp_spec prc emx mx ex lx ltac:(lia))
    as (He' & Hm' & Hm'pos & Hloc).
  fold d in He', Hm', Hloc.
  assert (Z.max 0 (fexp prc emx (d + ex) - ex) = d - prc) as Hn.
  { unfold fexp. lia. }
  rewrite Hn in He', Hm', Hloc. clear Hn.
  set (n := d - prc) in *.
  assert (0 ≤ n) as Hn0 by (subst n; lia).
  assert (0 < 2 ^ n) as Hpn by (apply Z.pow_pos_nonneg; lia).
  destruct (shr_fexp prc emx mx ex lx) as [mrs' e']. cbn [fst snd] in *.
  set (m' := shr_m mrs') in *.
  assert (2 ^ (d - 1) = 2 ^ (prc - 1) * 2 ^ n) as Hsplit1.
  { rewrite <-Z.pow_add_r by lia. f_equal. lia. }
  assert (2 ^ d = 2 ^ prc * 2 ^ n) as Hsplit2.
  { rewrite <-Z.pow_add_r by lia. f_equal. lia. }
  assert (2 ^ (prc - 1) ≤ m' < 2 ^ prc) as Hm'range.
  { rewrite Hm'. split.
    - apply Z.div_le_lower_bound; [lia|]. lia.
    - apply Z.div_lt_upper_bound; [lia|]. lia. }
  assert (mx + 1 - 2 ^ n ≤ m' * 2 ^ n ≤ mx) as Hm'val.
  { pose proof (Z.div_mod mx (2 ^ n) ltac:(lia)) as Hdm.
    pose proof (Z.mod_pos_bound mx (2 ^ n) Hpn) as Hr.
    rewrite <-Hm' in Hdm. lia. }
  destruct (round_nearest_even_spec m' (loc_of_shr_record mrs'))
    as [[Hrlo Hrhi] _].
  set (m'' := round_nearest_even m' (loc_of_shr_record mrs')) in *.
  assert (0 < 2 ^ (prc - 1)) as Hpp by (apply Z.pow_pos_nonneg; lia).
  assert (2 ^ prc = 2 * 2 ^ (prc - 1)) as Hprc2.
  { replace prc with (1 + (prc - 1)) at 1 by lia.
    rewrite Z.pow_add_r by lia. done. }
  destruct (shr_fexp_spec prc emx m'' e' loc_Exact ltac:(lia))
    as (He'' & Hm3 & Hm3pos & _).
  destruct (decide (m'' < 2 ^ prc)) as [Hsmall|Hcarry].
  - assert (Zdigits2 m'' = prc) as Hd''.
    { apply Zdigits2_eq; [lia|]. lia. }
    rewrite Hd'' in He'', Hm3.
    assert (Z.max 0 (fexp prc emx (prc + e') - e') = 0) as Hn2.
    { unfold fexp. lia. }
    rewrite Hn2 in He'', Hm3. rewrite Z.pow_0_r, Z.div_1_r in Hm3.
    destruct (shr_fexp prc emx m'' e' loc_Exact) as [mrs'' e''].
    cbn [fst snd] in *. rewrite Hm3.
    destruct m'' as [|p|p] eqn:Hm''; [lia| |lia].
    rewrite (proj2 (Z.leb_le _ _)) by lia.
    exists p, e''. split; [done|].
    replace (e'' - ex) with n by lia.
    split; [subst n; lia|]. split; [lia|]. nia.
  - assert (m'' = 2 ^ prc) as Hm''eq by lia.
    assert (Zdigits2 m'' = prc + 1) as Hd''.
    { apply Zdigits2_eq; [lia|]. replace (prc + 1 - 1) with prc by lia.
      rewrite Z.pow_add_r, Z.pow_1_r by lia. lia. }
    rewrite Hd'' in He'', Hm3.
    assert (Z.max 0 (fexp prc emx (prc + 1 + e') - e') = 1) as Hn2.
    { unfold fexp. lia. }
    rewrite Hn2 in He'', Hm3. rewrite Z.pow_1_r in Hm3.
    assert (m'' / 2 = 2 ^ (prc - 1)) as Hhalf.
    { rewrite Hm''eq, Hprc2. rewrite Z.mul_comm. apply Z.div_mul. lia. }
    rewrite Hhalf in Hm3.
    destruct (shr_fexp prc emx m'' e' loc_Exact) as [mrs'' e''].
    cbn [fst snd] in *. rewrite Hm3.
    destruct (2 ^ (prc - 1)) as [|p|p] eqn:Hpw; [lia| |lia].
    rewrite (proj2 (Z.leb_le _ _)) by lia.
    exists p, e''. split; [done|].
    replace (e'' - ex) with (n + 1) by lia.
    split; [subst n; lia|]. split; [lia|].
    rewrite Z.pow_add_r, Z.pow_1_r by lia. nia.
Qed.

End RoundingNear.

Lemma int_true_divide_near c t :
  0 < c ≤ t → t < 2 ^ 36 →
  ∃ p e, int_true_divide c t = S754_finite false p e
         ∧ -200 ≤ e ≤ -52
         ∧ 2 ^ 52 ≤ Z.pos p < 2 ^ 53
         ∧ Z.abs (Z.pos p * t - c * 2 ^ (- e)) ≤ t.
Proof.
  intros [Hc Hct] Ht. unfold int_true_divide.
  destruct t as [|pt|pt]; try lia.
  destruct c as [|pc|pc]; try lia.
  cbn [int_operand SFdiv xorb].
  unfold SFdiv_core_binary.
  pose proof (Zdigits2_bounds (Z.pos pc) ltac:(lia)) as [Hclo Hchi].
  pose proof (Zdigits2_bounds (Z.pos pt) ltac:(lia)) as [Htlo Hthi].
  set (d1 := Zdigits2 (Z.pos pc)) in *.
  set (d2 := Zdigits2 (Z.pos pt)) in *.
  assert (1 ≤ d1) as Hd1.
  { destruct (decide (1 ≤ d1)) as [|Hn]; [done|].
    assert (2 ^ d1 ≤ 2 ^ 0) by (apply Z.pow_le_mono_r; [lia|];
      pose proof (Zdigits2_nonneg (Z.pos pc)); subst d1; lia).
    change (2 ^ 0) with 1 in *. lia. }
  assert (d2 ≤ 36) as Hd2 by (apply Zdigits2_le; lia).
  assert (d1 ≤ d2) as Hd12 by (apply Zdigits2_mono; lia).
  assert (Z.min (fexp prec emax (d1 + 0 - (d2 + 0))) (0 - 0) = d1 - d2 - 53)
    as Hez.
  { unfold fexp, emin, prec, emax. lia. }
  rewrite Hez. clear Hez.
  set (ez := d1 - d2 - 53).
  replace (0 - 0 - ez) with (- ez) by lia.
  set (m' := match - ez with
             | 0 => Z.pos pc
             | Z.pos _ => Z.shiftl (Z.pos pc) (- ez)
             | Z.neg _ => 0
             end).
  assert (m' = Z.pos pc * 2 ^ (- ez)) as Hm'.
  { subst m'. destruct (- ez) as [|s|s] eqn:Hs; [simpl; lia| |lia].
    rewrite Z.shiftl_mul_pow2 by lia. done. }
  pose proof (Z_div_mod m' (Z.pos pt) ltac:(lia)) as Hdm.
  assert (Z.div_eucl m' (Z.pos pt) = (m' / Z.pos pt, m' mod Z.pos pt)) as Hde.
  { unfold Z.div, Z.modulo. by destruct (Z.div_eucl m' (Z.pos pt)). }
  rewrite Hde in *. clear Hde. destruct Hdm as [Hqr Hr].
  set (q := m' / Z.pos pt) in *. set (r := m' mod Z.pos pt) in *.
  assert (0 < 2 ^ (- ez)) as Hpow by (apply Z.pow_pos_nonneg; lia).
  assert (2 ^ 52 * 2 ^ d2 ≤ m') as Hm'lo.
  { rewrite Hm'.
    assert (2 ^ 52 * 2 ^ d2 = 2 ^ (d1 - 1) * 2 ^ (- ez)) as ->.
    { rewrite <-!Z.pow_add_r by lia. f_equal. subst ez. lia. }
    nia. }
  assert (m' < 2 ^ 54 * 2 ^ (d2 - 1)) as Hm'hi.
  { rewrite Hm'.
    assert (2 ^ 54 * 2 ^ (d2 - 1) = 2 ^ d1 * 2 ^ (- ez)) as ->.
    { rewrite <-!Z.pow_add_r by lia. f_equal. subst ez. lia. }
    nia. }
  assert (2 ^ 52 ≤ q < 2 ^ 54) as Hq.
  { split.
    - apply Z.div_le_lower_bound; [lia|]. nia.
    - apply Z.div_lt_upper_bound; [lia|]. nia. }
  assert (53 ≤ Zdigits2 q ≤ 54) as Hdq.
  { split.
    - pose proof (Zdigits2_bounds q ltac:(lia)) as [_ Hqhi].
      destruct (decide (53 ≤ Zdigits2 q)) as [|Hn]; [done|].
      assert (2 ^ Zdigits2 q ≤ 2 ^ 52)
        by (apply Z.pow_le_mono_r; [lia|lia]). lia.
    - apply Zdigits2_le; lia. }
  destruct prec_emax_ok as [Hp He].
  destruct (binary_round_aux_near prec emax Hp false q ez
              (new_location (Z.pos pt) r))
    as (p & e & Hfin & Hs & Hprange & Hval).
  - lia.
  - unfold prec. lia.
  - unfold emin, prec, emax. lia.
  - unfold emax. lia.
  - exists p, e. split; [done|].
    unfold prec in Hs, Hprange. change (53 - 1) with 52 in Hprange.
    set (s := e - ez) in *.
    assert (0 ≤ s ≤ 2) as Hs02 by lia.
    assert (0 < 2 ^ s) as Hps by (apply Z.pow_pos_nonneg; lia).
    assert (0 ≤ - e) as Hea by (subst s ez; lia).
    assert (2 ^ (- ez) = 2 ^ (- e) * 2 ^ s) as Hsplit.
    { rewrite <-Z.pow_add_r by lia. f_equal. subst s. lia. }
    assert (0 < 2 ^ (- e)) as Hpa by (apply Z.pow_pos_nonneg; lia).
    assert (Z.abs (Z.pos p * Z.pos pt - Z.pos pc * 2 ^ (- e)) ≤ Z.pos pt)
      as Hnear.
    { rewrite Hm', Hsplit in Hqr.
      apply Z.abs_le. split.
      - apply (Z.mul_le_mono_pos_r _ _ (2 ^ s) Hps). nia.
      - apply (Z.mul_le_mono_pos_r _ _ (2 ^ s) Hps). nia. }
    split_and!; [subst s ez; lia| |lia|lia|done].
    destruct (decide (e ≤ -52)) as [|Hgt]; [done|]. exfalso.
    assert (2 ^ (- e) ≤ 2 ^ 51) by (apply Z.pow_le_mono_r; lia).
    apply Z.abs_le in Hnear.
    assert (Z.pos p * Z.pos pt ≤ (2 ^ 51 + 1) * Z.pos pt) by nia.
    assert (Z.pos p ≤ 2 ^ 51 + 1) by nia.
    change (2 ^ 51) with 2251799813685248 in *.
    change (2 ^ 52) with 4503599627370496 in *. lia.
Qed.

Lemma float_mul_100_near p e :
  2 ^ 52 ≤ Z.pos p < 2 ^ 53 → -200 ≤ e ≤ -52 →
  ∃ p' e', float_mul (S754_finite false p e) (float_of_int 100)
           = S754_finite false p' e'
           ∧ 52 ≤ e' - (e - 46) ≤ 54
           ∧ 2 ^ 52 ≤ Z.pos p' < 2 ^ 53
           ∧ Z.abs (Z.pos p' * 2 ^ (e' - (e - 46))
                    - Z.pos p * (100 * 2 ^ 46))
             ≤ 2 ^ (e' - (e - 46)).
Proof.
  intros Hp He. rewrite float_of_int_100.
  unfold float_mul. cbn [SFmul xorb].
  set (m100 := 7036874417766400%positive).
  assert (Z.pos m100 = 100 * 2 ^ 46) as Hm100 by done.
  rewrite Pos2Z.inj_mul.
  set (mx := Z.pos p * Z.pos m100).
  assert (2 ^ 104 ≤ mx < 2 ^ 106) as Hmx.
  { subst mx. rewrite Hm100.
    change (2 ^ 52) with 4503599627370496 in Hp.
    change (2 ^ 53) with 9007199254740992 in Hp.
    change (2 ^ 46) with 70368744177664.
    change (2 ^ 104) with 20282409603651670423947251286016.
    change (2 ^ 106) with 81129638414606681695789005144064.
    lia. }
  assert (105 ≤ Zdigits2 mx ≤ 106) as Hdmx.
  { split.
    - pose proof (Zdigits2_bounds mx ltac:(lia)) as [_ Hhi].
      destruct (decide (105 ≤ Zdigits2 mx)) as [|Hn]; [done|].
      assert (2 ^ Zdigits2 mx ≤ 2 ^ 104)
        by (apply Z.pow_le_mono_r; [lia|lia]). lia.
    - apply Zdigits2_le; lia. }
  destruct prec_emax_ok as [Hprec _].
  destruct (binary_round_aux_near prec emax Hprec false mx (e + -46) loc_Exact)
    as (p' & e' & Hfin & Hs & Hprange & Hval).
  - lia.
  - unfold prec. lia.
  - unfold emin, prec, emax. lia.
  - unfold emax. lia.
  - exists p', e'. split; [done|].
    unfold prec in Hs, Hprange. change (53 - 1) with 52 in Hprange.
    replace (e' - (e - 46)) with (e' - (e + -46)) by lia.
    split_and!; [lia|lia|lia|lia|].
    fold mx in Hval |- *. rewrite <-Hm100. fold mx.
    assert (0 < 2 ^ (e' - (e + -46))) by (apply Z.pow_pos_nonneg; lia).
    apply Z.abs_le. lia.
Qed.

Lemma round_half_even_div_near num den :
  0 < den →
  2 * Z.abs (round_half_even_div num den * den - num) ≤ den.
Proof.
  intros Hden. unfold round_half_even_div.
  pose proof (Z.div_mod num den ltac:(lia)) as Hdm.
  pose proof (Z.mod_pos_bound num den Hden) as Hr.
  set (q := num / den) in *. set (r := num mod den) in *.
  destruct (Z.compare_spec (2 * r) den) as [Heq|Hlt|Hgt].
  - destruct (Z.even q); nia.
  - nia.
  - nia.
Qed.

Lemma percentage_error_budget c t k px a py b s :
  0 < c ≤ t → t < 2 ^ 36 →
  52 ≤ a → 46 ≤ b → 0 ≤ s → b + s = a + 46 →
  Z.abs (px * t - c * 2 ^ a) ≤ t →
  Z.abs (py * 2 ^ s - px * (100 * 2 ^ 46)) ≤ 2 ^ s →
  2 * Z.abs (k * 2 ^ b - py * 100) ≤ 2 ^ b →
  nearest_hundredth c t k.
Proof.
  intros [Hc Hct] Ht Ha Hb Hs Hbs HD HM HR. unfold nearest_hundredth.
  set (A := 2 ^ a) in *. set (B := 2 ^ b) in *. set (S := 2 ^ s) in *.
  assert (0 < A) as HA by (apply Z.pow_pos_nonneg; lia).
  assert (0 < B) as HB by (apply Z.pow_pos_nonneg; lia).
  assert (0 < S) as HS by (apply Z.pow_pos_nonneg; lia).
  assert (B * S = A * 2 ^ 46) as HBS.
  { subst A B S. rewrite <-!Z.pow_add_r by lia. f_equal. lia. }
  assert (2 ^ 52 ≤ A) as HA52 by (apply Z.pow_le_mono_r; lia).
  assert (2 ^ 46 ≤ B) as HB46 by (apply Z.pow_le_mono_r; lia).
  change (2 ^ 46) with 70368744177664 in *.
  change (2 ^ 52) with 4503599627370496 in *.
  change (2 ^ 36) with 68719476736 in *.
  remember (2 * k * t - 20000 * c) as X eqn:HeqX.
  remember (2 * k * B - 200 * py) as X1 eqn:HeqX1.
  remember (py * S - px * (100 * 70368744177664)) as X2 eqn:HeqX2.
  remember (px * t - c * A) as X3 eqn:HeqX3.
  assert (Z.abs X1 ≤ B) as HX1 by lia.
  assert (Z.abs X2 ≤ S) as HX2 by lia.
  assert (Z.abs X3 ≤ t) as HX3 by lia.
  assert (X * (B * S) = t * S * X1 + 200 * t * X2
                         + 20000 * 70368744177664 * X3) as Hid.
  { transitivity (2 * k * t * (B * S) - 20000 * c * (B * S));
      [rewrite HeqX; ring|].
    rewrite HBS at 2. rewrite HeqX1, HeqX2, HeqX3. ring. }
  clear HD HM HR HeqX1 HeqX2 HeqX3.
  set (P := B * S) in *.
  assert (0 < P) as HP by (subst P; apply Z.mul_pos_pos; lia).
  assert (0 ≤ t * S) as HtS by (apply Z.mul_nonneg_nonneg; lia).
  assert (Z.abs (t * S * X1) ≤ t * P) as H1.
  { rewrite Z.abs_mul, (Z.abs_eq (t * S)) by done.
    replace (t * P) with (t * S * B) by (subst P; ring).
    apply Z.mul_le_mono_nonneg_l; done. }
  assert (Z.abs (200 * t * X2) ≤ 200 * (t * S)) as H2.
  { rewrite Z.abs_mul, (Z.abs_eq (200 * t)) by lia.
    rewrite <-Z.mul_assoc.
    apply Z.mul_le_mono_nonneg_l; [lia|].
    apply Z.mul_le_mono_nonneg_l; [lia|done]. }
  assert (Z.abs (20000 * 70368744177664 * X3) ≤ 20000 * 70368744177664 * t)
    as H3.
  { rewrite Z.abs_mul. rewrite (Z.abs_eq (20000 * 70368744177664)) by lia.
    apply Z.mul_le_mono_nonneg_l; [lia|done]. }
  assert (Z.abs (X * P) ≤ t * P + 200 * (t * S) + 20000 * 70368744177664 * t)
    as Hsum.
  { rewrite Hid.
    pose proof (Z.abs_triangle (t * S * X1 + 200 * t * X2)
                  (20000 * 70368744177664 * X3)).
    pose proof (Z.abs_triangle (t * S * X1) (200 * t * X2)). lia. }
  assert (200 * (t * S) + 20000 * 70368744177664 * t < P) as Hsmall.
  { assert (t * S * 70368744177664 ≤ t * P) as Ha1.
    { replace (t * P) with (t * S * B) by (subst P; ring).
      apply Z.mul_le_mono_nonneg_l; done. }
    assert (t * (70368744177664 * 4503599627370496) ≤ t * P) as Ha2.
    { apply Z.mul_le_mono_nonneg_l; [lia|].
      rewrite HBS. rewrite (Z.mul_comm A).
      apply Z.mul_le_mono_nonneg_l; [lia|done]. }
    assert (t * P ≤ 68719476735 * P) as Ha3.
    { apply Z.mul_le_mono_nonneg_r; lia. }
    lia. }
  assert (Z.abs X * P < (t + 1) * P) as Hlt.
  { rewrite Z.abs_mul, (Z.abs_eq P) in Hsum by lia. lia. }
  assert (Z.abs X < t + 1) as HXt.
  { apply (Z.mul_lt_mono_pos_r P); done. }
  lia.
Qed.

Lemma nearest_hundredth_range c t k :
  0 ≤ c ≤ t → 0 < t → nearest_hundredth c t k → 0 ≤ k ≤ 10000.
Proof.
  unfold nearest_hundredth. intros Hc Ht Hk.
  split.
  - destruct (decide (0 ≤ k)) as [|Hneg]; [done|]. exfalso.
    assert (k * t ≤ -1 * t) by (apply Z.mul_le_mono_nonneg_r; lia). lia.
  - destruct (decide (k ≤ 10000)) as [|Hbig]; [done|]. exfalso.
    assert (10001 * t ≤ k * t) by (apply Z.mul_le_mono_nonneg_r; lia). lia.
Qed.

Lemma completion_percentage_nearest c t :
  0 < c ≤ t → t < 2 ^ 36 →
  ∃ k, nearest_hundredth c t k
       ∧ float_round (float_mul (int_true_divide c t) (float_of_int 100)) 2
         = int_true_divide k 100.
Proof.
  intros Hc Ht.
  destruct (int_true_divide_near c t Hc Ht)
    as (p & e & Hdiv & He & Hp & HD).
  destruct (float_mul_100_near p e Hp He)
    as (p' & e' & Hmul & Hs & Hp' & HM).
  assert (e' < 0) as He' by lia.
  assert (46 ≤ - e') as Hb.
  { destruct (float_mul_100_le (int_true_divide c t)) as [Hz|Hle].
    - destruct (int_true_divide_le_one c t ltac:(lia) ltac:(lia))
        as [Hz|Hfin]; [by left|by right].
    - rewrite Hdiv, Hmul in Hz. done.
    - destruct Hle as (p2 & e2 & Heq & _ & Hneg).
      rewrite Hdiv, Hmul in Heq. injection Heq as <- <-.
      specialize (Hneg He').
      destruct (decide (46 ≤ - e')) as [|Hsmall]; [done|]. exfalso.
      assert (2 ^ (- e') ≤ 2 ^ 45) by (apply Z.pow_le_mono_r; lia).
      change (2 ^ 45) with 35184372088832 in *.
      change (2 ^ 52) with 4503599627370496 in *. lia. }
  rewrite Hdiv, Hmul. unfold float_round. change (10 ^ 2) with 100.
  rewrite (bool_decide_eq_false_2 (0 ≤ e')) by lia.
  set (k := round_half_even_div (Z.pos p' * 100) (2 ^ (- e'))).
  assert (nearest_hundredth c t k) as Hnear.
  { apply (percentage_error_budget c t k (Z.pos p) (- e) (Z.pos p') (- e')
             (e' - (e - 46))); try lia; [done..|].
    subst k. apply round_half_even_div_near.
    apply Z.pow_pos_nonneg; lia. }
  exists k. split; [done|].
  pose proof (nearest_hundredth_range c t k ltac:(lia) ltac:(lia) Hnear) as Hk.
  case_bool_decide as Hk0.
  - by rewrite Hk0.
  - unfold int_true_divide. destruct k as [|pk|pk]; [done| |lia]. done.
Qed.

(** C4, as stated, fails: the percentage is not always 100 times
    completed over total rounded to two decimals.  With 23 of 160 steps
    completed the exact value is 14.375, which rounds to 14.38 (ties to
    even, and also with ties away from zero); [get_progress] returns
    14.37, because the float product (23 / 160) * 100 falls just below
    14.375. *)
Lemma completion_percentage_of_23_in_160 :
  Plan.total_steps (Plan.get_progress plan_23_of_160) = 160
  ∧ Plan.completed_steps (Plan.get_progress plan_23_of_160) = 23
  ∧ 100 * 23 * 1000 = 14375 * 160
  ∧ round_half_even_div (10000 * 23) 160 = 1438
  ∧ Plan.completion_percentage (Plan.get_progress plan_23_of_160)
    = int_true_divide 1437 100
  ∧ Plan.completion_percentage (Plan.get_progress plan_23_of_160)
    ≠ completion_percentage_spec 23 160.
Proof.
  split_and!; [vm_compute; reflexivity..|].
  vm_compute. discriminate.
Qed.

(** C4 (amended): [get_progress] reports the number of steps as total
    and, for each status, the number of steps that have it; the five
    counts add up to the total; for a plan without steps every count is
    0 and the percentage is +0.0.  The percentage is a float between 0.0
    and 100.0, the double nearest to [k / 100] for an integer [k] from 0
    to 10000; and for a plan of fewer than 2^36 steps this [k] is an
    integer nearest to 10000 times completed over total, so that the
    percentage is the exact quotient rounded to two decimals except that
    a quotient exactly halfway between two hundredths may go either
    way. *)
Theorem get_progress_counts_and_percentage (p : Plan.t) :
  let g := Plan.get_progress p in
  let total := Z.of_nat (length (Plan.steps p)) in
  let count st :=
    Z.of_nat (length (filter (λ s, Step.status s = st) (Plan.steps p))) in
  Plan.total_steps g = total
  ∧ Plan.completed_steps g = count StepStatus.COMPLETED
  ∧ Plan.in_progress_steps g = count StepStatus.IN_PROGRESS
  ∧ Plan.pending_steps g = count StepStatus.PENDING
  ∧ Plan.failed_steps g = count StepStatus.FAILED
  ∧ Plan.skipped_steps g = count StepStatus.SKIPPED
  ∧ Plan.completed_steps g + Plan.in_progress_steps g + Plan.pending_steps g
    + Plan.failed_steps g + Plan.skipped_steps g = Plan.total_steps g
  ∧ (total = 0 → g = Plan.mkProgress 0 0 0 0 0 0 (S754_zero false))
  ∧ percentage_in_range (Plan.completion_percentage g) = true
  ∧ (∃ k, 0 ≤ k ≤ 10000
          ∧ Plan.completion_percentage g = int_true_divide k 100)
  ∧ (0 < total < 2 ^ 36 →
     ∃ k, nearest_hundredth (count StepStatus.COMPLETED) total k
          ∧ Plan.completion_percentage g = int_true_divide k 100).
Proof.
  intros g total count. subst g total count.
  assert (percentage_in_range
            (Plan.completion_percentage (Plan.get_progress p)) = true
          ∧ ∃ k, 0 ≤ k ≤ 10000
                 ∧ Plan.completion_percentage (Plan.get_progress p)
                   = int_true_divide k 100) as [Hrange Hk].
  { destruct (decide (Plan.steps p = [])) as [Hnil|Hne].
    { rewrite (get_progress_empty p Hnil). cbn [Plan.completion_percentage].
      split; [done|]. exists 0. split; [lia|done]. }
    rewrite (get_progress_nonempty p Hne). cbn [Plan.completion_percentage].
    apply float_round_2_in_range, float_mul_100_le, int_true_divide_le_one.
    - apply count_status_range.
    - destruct (Plan.steps p); [done|]. simpl length. lia. }
  destruct (decide (Plan.steps p = [])) as [Hnil|Hne].
  - rewrite (get_progress_empty p Hnil) in *. rewrite Hnil. simpl.
    split_and!; try done. lia.
  - rewrite (get_progress_nonempty p Hne) in *.
    cbn [Plan.total_steps Plan.completed_steps Plan.in_progress_steps
         Plan.pending_steps Plan.failed_steps Plan.skipped_steps
         Plan.completion_percentage] in *.
    rewrite <-!count_status_filter.
    split_and!; try done.
    + apply count_status_total.
    + intros Hzero. destruct (Plan.steps p); [done|]. simpl length in Hzero.
      lia.
    + intros Htotal.
      pose proof (count_status_range p StepStatus.COMPLETED) as Hc.
      destruct (decide (Plan.count_status p StepStatus.COMPLETED = 0))
        as [Hc0|Hc0].
      * exists 0. rewrite Hc0. split; [unfold nearest_hundredth; lia|].
        destruct (Z.of_nat (length (Plan.steps p))) as [|pt|pt];
          [lia|reflexivity|lia].
      * apply completion_percentage_nearest; lia.
Qed.

Lemma get_progress_counts_and_percentage_witness :
  ∃ k, nearest_hundredth 23 160 k
       ∧ Plan.completion_percentage (Plan.get_progress plan_23_of_160)
         = int_true_divide k 100.
Proof.
  refine (proj2 (proj2 (proj2 (proj2 (proj2 (proj2 (proj2 (proj2 (proj2
            (proj2 (get_progress_counts_and_percentage plan_23_of_160))))))))))
            _).
  vm_compute. split; reflexivity.
Defined.
